(** * Validation of arithmetic expressions (src/aaaa.py)

    The program builds a parser from the constant [GRAMMAR] with
    [Lark(GRAMMAR, start="start", parser="lalr")] and exposes one function,
    [validate_expression], which runs the parser on a string and turns the
    parser's exceptions into a pair [(is_valid, error)].  A window,
    [CFGValidatorApp], passes the text of an entry to that function and
    shows the answer.

    The development follows the program and the parser library (Lark 1.x)
    that it runs:
    - the two terminals the grammar imports from the library's
      [common.lark], NUMBER and WS_INLINE (module [Common]);
    - the rules of [GRAMMAR], with their aliases;
    - the lexer of the library, one token per call, and its contextual
      variant, which [parser="lalr"] selects;
    - the LALR(1) parse table of the grammar and the shift/reduce loop of
      the library;
    - [validate_expression] itself;
    - the methods of the window, on the texts its widgets hold.

    The parse table is written out by hand.  [parse_accepts] shows that,
    with it, the parser accepts exactly the sentences of [GRAMMAR].

    Offsets are 0-based character offsets into the input.  Only ASCII
    characters occur in a terminal of the grammar, so a character is an
    [ascii]; any other character behaves like every character that starts no
    terminal. *)

From Stdlib Require Import List String Ascii Arith Lia Bool QArith.
From Stdlib Require Import DecimalString.
Import ListNotations.

Local Open Scope nat_scope.
Set Warnings "-register-all".

(* ------------------------------------------------------------------ *)
(** ** Matching a terminal at the head of the text

    A terminal is compiled to a regular expression and matched at the
    current position of the text.  A matcher takes the text from that
    position on and gives the number of characters the match consumes.  The
    combinators are the operators of the grammar's terminal definitions:
    a literal, [+] on a character range, juxtaposition, [|] and [?].

    [|] takes the first alternative that matches and the repetitions are
    greedy.  The regular-expression engine would also retry a shorter
    repetition or a later alternative when what follows fails; in the
    terminals below that never succeeds, since a run of digits is always
    followed by something that is not a digit. *)

Definition matcher := list ascii -> option nat.

Definition lit (a : ascii) : matcher := fun cs =>
  match cs with
  | c :: _ => if Ascii.eqb c a then Some 1 else None
  | [] => None
  end.

(** The longest run of characters of a class at the head of the text. *)
Fixpoint run (cls : ascii -> bool) (cs : list ascii) : nat :=
  match cs with
  | c :: cs' => if cls c then S (run cls cs') else 0
  | [] => 0
  end.

Definition plus (cls : ascii -> bool) : matcher := fun cs =>
  match run cls cs with
  | 0 => None
  | n => Some n
  end.

Definition seq (p q : matcher) : matcher := fun cs =>
  match p cs with
  | Some n => option_map (Nat.add n) (q (skipn n cs))
  | None => None
  end.

Definition alt (p q : matcher) : matcher := fun cs =>
  match p cs with
  | Some n => Some n
  | None => q cs
  end.

Definition opt (p : matcher) : matcher := fun cs =>
  match p cs with
  | Some n => Some n
  | None => Some 0
  end.

(** A match lies within the text, and a match of a terminal is not empty. *)
Definition bounded (p : matcher) : Prop :=
  forall cs n, p cs = Some n -> n <= List.length cs.

Definition positive (p : matcher) : Prop :=
  forall cs n, p cs = Some n -> 1 <= n.

(* ------------------------------------------------------------------ *)
(** ** Terminals imported from [common.lark]
    ([%import common.NUMBER], [%import common.WS_INLINE]) *)

Module Common.

(** [DIGIT: "0".."9"] *)
Definition DIGIT (c : ascii) : bool :=
  (48 <=? nat_of_ascii c) && (nat_of_ascii c <=? 57).

(** [INT: DIGIT+] *)
Definition INT : matcher := plus DIGIT.

(** [SIGNED_INT: ["+"|"-"] INT] *)
Definition SIGNED_INT : matcher := seq (opt (alt (lit "+") (lit "-"))) INT.

(** [DECIMAL: INT "." INT? | "." INT] *)
Definition DECIMAL : matcher :=
  alt (seq INT (seq (lit ".") (opt INT))) (seq (lit ".") INT).

(** [_EXP: ("e"|"E") SIGNED_INT] *)
Definition EXP : matcher := seq (alt (lit "e") (lit "E")) SIGNED_INT.

(** [FLOAT: INT _EXP | DECIMAL _EXP?] *)
Definition FLOAT : matcher := alt (seq INT EXP) (seq DECIMAL (opt EXP)).

(** [NUMBER: FLOAT | INT] *)
Definition NUMBER : matcher := alt FLOAT INT.

(** [WS_INLINE: (" "|/\t/)+] *)
Definition WS_INLINE_char (c : ascii) : bool :=
  Ascii.eqb c " " || Ascii.eqb c "009".

Definition WS_INLINE : matcher := plus WS_INLINE_char.

End Common.

(* ------------------------------------------------------------------ *)
(** ** The grammar [GRAMMAR]

    The string literals of the rules are anonymous terminals; the parser
    library names them PLUS, MINUS, STAR, SLASH, LPAR and RPAR.  [END] is
    the end-of-input marker [$END], which the parser feeds itself and the
    lexer never produces. *)

Inductive Terminal : Set :=
  NUMBER | PLUS | MINUS | STAR | SLASH | LPAR | RPAR | END.

Inductive NonTerminal : Set := start | expr | term | factor.

Inductive Symbol : Set :=
  | T (t : Terminal)
  | NT (n : NonTerminal).

(** One constructor per alternative of the grammar, in the order of the
    text. *)
Inductive Rule : Set :=
  | start_expr      (* ?start: expr                    *)
  | expr_add        (* ?expr: expr "+" term   -> add   *)
  | expr_sub        (*      | expr "-" term   -> sub   *)
  | expr_term       (*      | term                     *)
  | term_mul        (* ?term: term "*" factor -> mul   *)
  | term_div        (*      | term "/" factor -> div   *)
  | term_factor     (*      | factor                   *)
  | factor_neg      (* ?factor: "-" factor    -> neg    *)
  | factor_number   (*        | NUMBER        -> number *)
  | factor_paren.   (*        | "(" expr ")"            *)

Definition GRAMMAR : list Rule :=
  [start_expr; expr_add; expr_sub; expr_term; term_mul; term_div; term_factor;
   factor_neg; factor_number; factor_paren].

Definition origin (r : Rule) : NonTerminal :=
  match r with
  | start_expr => start
  | expr_add | expr_sub | expr_term => expr
  | term_mul | term_div | term_factor => term
  | factor_neg | factor_number | factor_paren => factor
  end.

Definition expansion (r : Rule) : list Symbol :=
  match r with
  | start_expr => [NT expr]
  | expr_add => [NT expr; T PLUS; NT term]
  | expr_sub => [NT expr; T MINUS; NT term]
  | expr_term => [NT term]
  | term_mul => [NT term; T STAR; NT factor]
  | term_div => [NT term; T SLASH; NT factor]
  | term_factor => [NT factor]
  | factor_neg => [T MINUS; NT factor]
  | factor_number => [T NUMBER]
  | factor_paren => [T LPAR; NT expr; T RPAR]
  end.

Definition alias (r : Rule) : option string :=
  match r with
  | expr_add => Some "add"%string
  | expr_sub => Some "sub"%string
  | term_mul => Some "mul"%string
  | term_div => Some "div"%string
  | factor_neg => Some "neg"%string
  | factor_number => Some "number"%string
  | start_expr | expr_term | term_factor | factor_paren => None
  end.

Definition name (n : NonTerminal) : string :=
  match n with
  | start => "start"
  | expr => "expr"
  | term => "term"
  | factor => "factor"
  end%string.

(** Every rule of the grammar is written with a leading [?]. *)
Definition expand1 (n : NonTerminal) : bool := true.

(** A token made from a string literal of a rule is left out of the tree;
    a token of a named terminal is kept. *)
Definition filter_out (t : Terminal) : bool :=
  match t with
  | NUMBER | END => false
  | PLUS | MINUS | STAR | SLASH | LPAR | RPAR => true
  end.

(* ------------------------------------------------------------------ *)
(** ** Tokens and trees *)

Record Token : Set := mkToken {
  type_ : Terminal;
  value : string;
  start_pos : nat
}.

(** The end-of-input token takes its position from the last token read. *)
Definition new_borrow_pos (ty : Terminal) (v : string) (borrow_t : Token) : Token :=
  {| type_ := ty; value := v; start_pos := start_pos borrow_t |}.

Inductive Tree : Set :=
  | Leaf (t : Token)
  | Node (data : string) (children : list Tree).

(* ------------------------------------------------------------------ *)
(** ** Exceptions

    The two exceptions of the parser library that carry a position, and the
    built-in exceptions that a lookup in the tables or in a stack can
    raise. *)

Inductive PyException : Set :=
  | UnexpectedToken (token : Token) (expected : list Terminal)
  | UnexpectedCharacters (lex_pos : nat) (char : ascii) (allowed : list Terminal)
  | KeyError
  | IndexError
  | AssertionError
  | EOFError.

(** A call either returns a value or raises an exception. *)
Inductive Result (A : Type) : Type :=
  | Return (a : A)
  | Raise (e : PyException).

Arguments Return {A} a.
Arguments Raise {A} e.

(* ------------------------------------------------------------------ *)
(** ** The lexer *)

Definition pattern (t : Terminal) : matcher :=
  match t with
  | NUMBER => Common.NUMBER
  | PLUS => lit "+"
  | MINUS => lit "-"
  | STAR => lit "*"
  | SLASH => lit "/"
  | LPAR => lit "("
  | RPAR => lit ")"
  | END => fun _ => None
  end.

(** The characters a match of a terminal can start with. *)
Definition starts (t : Terminal) (c : ascii) : bool :=
  match t with
  | NUMBER => Common.DIGIT c || Ascii.eqb c "."
  | PLUS => Ascii.eqb c "+"
  | MINUS => Ascii.eqb c "-"
  | STAR => Ascii.eqb c "*"
  | SLASH => Ascii.eqb c "/"
  | LPAR => Ascii.eqb c "("
  | RPAR => Ascii.eqb c ")"
  | END => false
  end.

(** The terminals of the grammar that the lexer knows, the ignored
    WS_INLINE apart. *)
Definition terminals : list Terminal :=
  [NUMBER; PLUS; MINUS; STAR; SLASH; LPAR; RPAR].

(** The scanner tries its terminals in turn at the current position. *)
Fixpoint scan (ts : list Terminal) (cs : list ascii) : option (Terminal * nat) :=
  match ts with
  | [] => None
  | t :: ts' =>
      match pattern t cs with
      | Some n => Some (t, n)
      | None => scan ts' cs
      end
  end.

(** The state of the lexer: the text from the current position on, and
    that position. *)
Record LexerState : Set := mkLexerState {
  text : list ascii;
  char_pos : nat
}.

Inductive Lexed : Set :=
  | Tok (t : Token) (ls : LexerState)
  | EOF
  | NoMatch (ls : LexerState).

(** The length of the match of the ignored terminal, [%ignore WS_INLINE],
    if there is one. *)
Definition ignored (cs : list ascii) : nat :=
  match Common.WS_INLINE cs with
  | Some n => n
  | None => 0
  end.

(** [next_token] of a lexer with the terminals [ts].  Every lexer also
    has the ignored terminal: a match of it is a whole run of blanks,
    dropped without making a token, and the scanner then looks at what
    follows the run. *)
Definition next_token (ts : list Terminal) (ls : LexerState) : Lexed :=
  let w := ignored (text ls) in
  let cs := skipn w (text ls) in
  let pos := char_pos ls + w in
  match cs with
  | [] => EOF
  | _ :: _ =>
      match scan ts cs with
      | None => NoMatch {| text := cs; char_pos := pos |}
      | Some (ty, n) =>
          Tok {| type_ := ty;
                 value := string_of_list_ascii (firstn n cs);
                 start_pos := pos |}
              {| text := skipn n cs; char_pos := pos + n |}
      end
  end.

(** The lexer state after a run of blanks, and the offset at which the
    text of a lexer state ends: the length of the whole text. *)
Definition skip_blanks (ls : LexerState) : LexerState :=
  let w := ignored (text ls) in
  {| text := skipn w (text ls); char_pos := char_pos ls + w |}.

Definition extent (ls : LexerState) : nat := char_pos ls + List.length (text ls).

(** The lexer state is at an offset of the whole text [w]. *)
Definition within (w : list ascii) (ls : LexerState) : Prop :=
  text ls = skipn (char_pos ls) w.

(* ------------------------------------------------------------------ *)
(** ** The LALR(1) parse table of the grammar

    A state is a set of items of the grammar; it is named here after the
    symbol read last.  The items of each state and the look-ahead sets are
    in the comments; [action] and [goto] are the table. *)

Inductive State : Set :=
  | s_init    (* $root -> . start ; every rule at its start            *)
  | s_end     (* $root -> start .                                      *)
  | s_expr    (* start -> expr . ; expr -> expr . "+" term | expr . "-" term *)
  | s_term    (* expr -> term . ; term -> term . "*" factor | term . "/" factor *)
  | s_factor  (* term -> factor .                                      *)
  | s_neg     (* factor -> "-" . factor                                *)
  | s_number  (* factor -> NUMBER .                                    *)
  | s_lpar    (* factor -> "(" . expr ")"                              *)
  | s_plus    (* expr -> expr "+" . term                               *)
  | s_minus   (* expr -> expr "-" . term                               *)
  | s_star    (* term -> term "*" . factor                             *)
  | s_slash   (* term -> term "/" . factor                             *)
  | s_negated (* factor -> "-" factor .                                *)
  | s_inner   (* factor -> "(" expr . ")" ; expr -> expr . "+" term | expr . "-" term *)
  | s_add     (* expr -> expr "+" term . ; term -> term . "*" factor | term . "/" factor *)
  | s_sub     (* expr -> expr "-" term . ; term -> term . "*" factor | term . "/" factor *)
  | s_mul     (* term -> term "*" factor .                             *)
  | s_div     (* term -> term "/" factor .                             *)
  | s_rpar.   (* factor -> "(" expr ")" .                              *)

Inductive Action : Set :=
  | Shift (s : State)
  | Reduce (r : Rule).

(** Where an operand may start. *)
Definition operand (t : Terminal) : option Action :=
  match t with
  | MINUS => Some (Shift s_neg)
  | NUMBER => Some (Shift s_number)
  | LPAR => Some (Shift s_lpar)
  | _ => None
  end.

(** Reduce on the tokens that may follow an [expr], shift "*" and "/". *)
Definition after_term (r : Rule) (t : Terminal) : option Action :=
  match t with
  | STAR => Some (Shift s_star)
  | SLASH => Some (Shift s_slash)
  | PLUS | MINUS | RPAR | END => Some (Reduce r)
  | _ => None
  end.

(** Reduce on the tokens that may follow a [factor]. *)
Definition after_factor (r : Rule) (t : Terminal) : option Action :=
  match t with
  | PLUS | MINUS | STAR | SLASH | RPAR | END => Some (Reduce r)
  | _ => None
  end.

Definition action (s : State) (t : Terminal) : option Action :=
  match s with
  | s_init | s_neg | s_lpar | s_plus | s_minus | s_star | s_slash => operand t
  | s_end => None
  | s_expr =>
      match t with
      | PLUS => Some (Shift s_plus)
      | MINUS => Some (Shift s_minus)
      | END => Some (Reduce start_expr)
      | _ => None
      end
  | s_inner =>
      match t with
      | PLUS => Some (Shift s_plus)
      | MINUS => Some (Shift s_minus)
      | RPAR => Some (Shift s_rpar)
      | _ => None
      end
  | s_term => after_term expr_term t
  | s_add => after_term expr_add t
  | s_sub => after_term expr_sub t
  | s_factor => after_factor term_factor t
  | s_number => after_factor factor_number t
  | s_negated => after_factor factor_neg t
  | s_mul => after_factor term_mul t
  | s_div => after_factor term_div t
  | s_rpar => after_factor factor_paren t
  end.

Definition goto (s : State) (n : NonTerminal) : option State :=
  match s, n with
  | s_init, start => Some s_end
  | s_init, expr => Some s_expr
  | s_lpar, expr => Some s_inner
  | (s_init | s_lpar), term => Some s_term
  | s_plus, term => Some s_add
  | s_minus, term => Some s_sub
  | (s_init | s_lpar | s_plus | s_minus), factor => Some s_factor
  | s_neg, factor => Some s_negated
  | s_star, factor => Some s_mul
  | s_slash, factor => Some s_div
  | _, _ => None
  end.

Definition start_state : State := s_init.
Definition end_state : State := s_end.

Definition all_terminals : list Terminal :=
  [NUMBER; PLUS; MINUS; STAR; SLASH; LPAR; RPAR; END].

Definition has_action (s : State) (t : Terminal) : bool :=
  match action s t with
  | Some _ => true
  | None => false
  end.

(** The terminals with an entry in the row of a state.  In the program
    this is a set, without an order; here its members come in the order of
    [all_terminals]. *)
Definition accepts (s : State) : list Terminal :=
  filter (has_action s) all_terminals.

Definition State_eqb (a b : State) : bool :=
  match a, b with
  | s_init, s_init | s_end, s_end | s_expr, s_expr | s_term, s_term
  | s_factor, s_factor | s_neg, s_neg | s_number, s_number | s_lpar, s_lpar
  | s_plus, s_plus | s_minus, s_minus | s_star, s_star | s_slash, s_slash
  | s_negated, s_negated | s_inner, s_inner | s_add, s_add | s_sub, s_sub
  | s_mul, s_mul | s_div, s_div | s_rpar, s_rpar => true
  | _, _ => false
  end.

(* ------------------------------------------------------------------ *)
(** ** Building the tree of a rule

    The callback of a rule gets the values of the symbols of its expansion.
    It drops the filtered-out tokens; a rule written with [?] and without
    an alias that is left with one child gives that child; every other rule
    gives a node named by its alias, or by its origin.  [None] stands for
    the [IndexError] of a callback that is given too few values; on the
    stacks the parser builds there are enough ([reduce_step]). *)

Fixpoint child_filter (syms : list Symbol) (children : list Tree) : option (list Tree) :=
  match syms, children with
  | [], _ => Some []
  | _ :: _, [] => None
  | sym :: syms', c :: children' =>
      match child_filter syms' children' with
      | None => None
      | Some rest =>
          match sym with
          | T t => if filter_out t then Some rest else Some (c :: rest)
          | NT _ => Some (c :: rest)
          end
      end
  end.

Definition callback (r : Rule) (children : list Tree) : option Tree :=
  match child_filter (expansion r) children with
  | None => None
  | Some kept =>
      match alias r with
      | Some a => Some (Node a kept)
      | None =>
          match kept with
          | [c] => if expand1 (origin r) then Some c else Some (Node (name (origin r)) kept)
          | _ => Some (Node (name (origin r)) kept)
          end
      end
  end.

(* ------------------------------------------------------------------ *)
(** ** The parser

    Both stacks have their top at the head of the list. *)

Record ParserState : Set := mkParserState {
  state_stack : list State;
  value_stack : list Tree
}.

(** A bound on the reductions one token can cause: every reduction takes
    more of this weight off the state stack than it puts back. *)
Definition weight (s : State) : nat :=
  match s with
  | s_number | s_rpar => 5
  | s_factor | s_negated | s_mul | s_div => 4
  | s_term | s_add | s_sub => 3
  | s_expr | s_inner => 2
  | _ => 1
  end.

Definition budget (st : ParserState) : nat :=
  S (list_sum (map weight (state_stack st))).

(** The weight of the states entered under a nonterminal. *)
Definition rank (n : NonTerminal) : nat :=
  match n with
  | start => 1
  | expr => 2
  | term => 3
  | factor => 4
  end.

(** The stacks the parser builds: the state stack starts at the start
    state, each state is entered from the one below it by a shift or under a
    nonterminal, and the value stack has one value for each state above the
    first. *)
Definition enters (below s : State) : bool :=
  existsb (fun t => match action below t with
                    | Some (Shift s') => State_eqb s' s
                    | _ => false
                    end) all_terminals ||
  existsb (fun n => match goto below n with
                    | Some s' => State_eqb s' s
                    | None => false
                    end) [start; expr; term; factor].

Fixpoint stack_ok (states : list State) : bool :=
  match states with
  | [] => false
  | s :: below =>
      match below with
      | [] => State_eqb s start_state
      | b :: _ => enters b s && stack_ok below
      end
  end.

Definition well_formed (st : ParserState) : Prop :=
  stack_ok (state_stack st) = true /\
  List.length (state_stack st) = S (List.length (value_stack st)).

(** The symbol a state is entered under: the symbol before the dot in its
    items. *)
Definition symbol_of (s : State) : option Symbol :=
  match s with
  | s_init => None
  | s_end => Some (NT start)
  | s_expr | s_inner => Some (NT expr)
  | s_term | s_add | s_sub => Some (NT term)
  | s_factor | s_negated | s_mul | s_div => Some (NT factor)
  | s_neg | s_minus => Some (T MINUS)
  | s_number => Some (T NUMBER)
  | s_lpar => Some (T LPAR)
  | s_plus => Some (T PLUS)
  | s_star => Some (T STAR)
  | s_slash => Some (T SLASH)
  | s_rpar => Some (T RPAR)
  end.

(** The state entered from a state under a symbol. *)
Definition trans (s : State) (X : Symbol) : option State :=
  match X with
  | T t =>
      match action s t with
      | Some (Shift s') => Some s'
      | _ => None
      end
  | NT n => goto s n
  end.

(** The parser state with one more state and value on its stacks. *)
Definition push (s : State) (v : Tree) (st : ParserState) : ParserState :=
  {| state_stack := s :: state_stack st; value_stack := v :: value_stack st |}.

(** The tokens that may follow a symbol in a sentence of the grammar; for
    [expr], [term] and [factor] these are the look-ahead sets of the
    reductions in the table.  Nothing is read after [start]: the parser
    returns when it has reduced to it. *)
Definition follow (X : Symbol) (t : Terminal) : bool :=
  match X with
  | T _ => true
  | NT start => false
  | NT expr =>
      match t with
      | PLUS | MINUS | RPAR | END => true
      | _ => false
      end
  | NT term | NT factor =>
      match t with
      | PLUS | MINUS | STAR | SLASH | RPAR | END => true
      | _ => false
      end
  end.

(** The language of the grammar: a terminal derives itself, and the
    origin of a rule derives what the symbols of its expansion derive, one
    after the other. *)
Inductive derives : Symbol -> list Terminal -> Prop :=
  | derives_T (t : Terminal) : derives (T t) [t]
  | derives_NT (r : Rule) (ws : list (list Terminal)) :
      Forall2 derives (expansion r) ws ->
      derives (NT (origin r)) (List.concat ws).

(** The state stack against the tokens read so far: the symbols of the
    states, from the bottom up, derive these tokens. *)
Inductive yields : list State -> list Terminal -> Prop :=
  | yields_start : yields [start_state] []
  | yields_push (s : State) (below : list State) (X : Symbol) (w1 w2 : list Terminal) :
      yields below w1 -> symbol_of s = Some X -> derives X w2 ->
      yields (s :: below) (w1 ++ w2).

(** The loop of [feed_token]: look the token up in the row of the state on
    top; shift it, or reduce by a rule and look again.  A reduction by a
    rule takes as many entries off both stacks as its expansion is long,
    and puts the state found under the rule's origin and the rule's tree on
    them.  The parser state is updated in place, so a call that returns
    gives the new state along with its value: nothing after a shift, the
    tree on top of the stack when the end state is reached.  [None] stands
    for a loop that is cut off after [fuel] iterations. *)
Fixpoint feed_loop (fuel : nat) (st : ParserState) (token : Token) (is_end : bool)
  : option (Result (ParserState * option Tree)) :=
  match fuel with
  | 0 => None
  | S fuel' =>
      match state_stack st with
      | [] => Some (Raise IndexError)
      | state :: _ =>
          match action state (type_ token) with
          | None => Some (Raise (UnexpectedToken token (accepts state)))
          | Some (Shift s') =>
              if is_end then Some (Raise AssertionError)
              else Some (Return ({| state_stack := s' :: state_stack st;
                                    value_stack := Leaf token :: value_stack st |},
                                 None))
          | Some (Reduce rule) =>
              let size := List.length (expansion rule) in
              let s := rev (firstn size (value_stack st)) in
              let states := skipn size (state_stack st) in
              let values := skipn size (value_stack st) in
              match callback rule s with
              | None => Some (Raise IndexError)
              | Some v =>
                  match states with
                  | [] => Some (Raise IndexError)
                  | below :: _ =>
                      match goto below (origin rule) with
                      | None => Some (Raise KeyError)
                      | Some new_state =>
                          let st' := {| state_stack := new_state :: states;
                                        value_stack := v :: values |} in
                          if is_end && State_eqb new_state end_state
                          then Some (Return (st', Some v))
                          else feed_loop fuel' st' token is_end
                      end
                  end
              end
          end
      end
  end.

(** [feed_token]: the loop with a budget that it never uses up
    ([feed_token_terminates]). *)
Definition feed_token (st : ParserState) (token : Token) (is_end : bool)
  : option (Result (ParserState * option Tree)) :=
  feed_loop (budget st) st token is_end.

(* ------------------------------------------------------------------ *)
(** ** The contextual lexer

    With [parser="lalr"] the lexer is contextual: for each state of the
    parser there is a lexer with the terminals that have an entry in the row
    of that state, and the next token is read by the lexer of the state on
    top of the stack.  When that lexer finds no match, the root lexer, which
    has every terminal, is tried at the same position: if it reads a token,
    that token is reported as unexpected; if not, the character is.  Both
    exceptions carry the terminals of the lexer of the state.  (For a state
    without terminals the library puts a placeholder name in their place;
    the only such state is the end state, in which no token is read.) *)

Definition lexer_terminals (s : State) : list Terminal :=
  filter (has_action s) terminals.

Definition lex (ls : LexerState) (st : ParserState) : Result (option (Token * LexerState)) :=
  match state_stack st with
  | [] => Raise IndexError
  | position :: _ =>
      match next_token (lexer_terminals position) ls with
      | Tok t ls' => Return (Some (t, ls'))
      | EOF => Return None
      | NoMatch ls' =>
          let allowed := lexer_terminals position in
          match next_token terminals ls' with
          | Tok t _ => Raise (UnexpectedToken t allowed)
          | NoMatch _ =>
              Raise (UnexpectedCharacters (char_pos ls') (hd " "%char (text ls')) allowed)
          | EOF => Raise EOFError
          end
      end
  end.

(** The main loop: feed the parser the tokens of the lexer one by one, then
    the end-of-input token.  That token borrows the position of the last
    token read; with no token read it is at offset 0:
    [Token.new_borrow_pos('$END', '', token) if token else
     Token('$END', '', 0, 1, 1)].  [None] stands for a loop that is cut off
    after [fuel] iterations. *)
Fixpoint parse_loop (fuel : nat) (st : ParserState) (ls : LexerState)
  (token : option Token) : option (Result (option Tree)) :=
  match fuel with
  | 0 => None
  | S fuel' =>
      match lex ls st with
      | Raise e => Some (Raise e)
      | Return (Some (t, ls')) =>
          match feed_token st t false with
          | None => None
          | Some (Raise e) => Some (Raise e)
          | Some (Return (st', _)) => parse_loop fuel' st' ls' (Some t)
          end
      | Return None =>
          let end_token :=
            match token with
            | Some t => new_borrow_pos END "" t
            | None => {| type_ := END; value := ""; start_pos := 0 |}
            end in
          match feed_token st end_token true with
          | None => None
          | Some (Raise e) => Some (Raise e)
          | Some (Return (_, v)) => Some (Return v)
          end
      end
  end.

(** [parser.parse(text)]: the loop from the start state at offset 0.  Each
    token takes at least one character, so the loop runs at most once more
    than the text is long ([parse_terminates]). *)
Definition parse (text : string) : option (Result (option Tree)) :=
  let cs := list_ascii_of_string text in
  parse_loop (S (List.length cs))
    {| state_stack := [start_state]; value_stack := [] |}
    {| text := cs; char_pos := 0 |}
    None.

(* ------------------------------------------------------------------ *)
(** ** [validate_expression]

    The function returns [(True, None)] when the parser returns, and
    [(False, message)] when it raises.  [exc_str] is the text the parser
    library gives an exception, which the program copies into its message;
    [str_int] is the decimal numeral of an offset.

    The exception of the library also keeps the input and the tokens read
    before, and its text shows them (the line of the input around the
    error, the token before an unexpected token).  An exception here keeps
    neither, so [exc_str] stands for the text of the exception on one
    input: no statement equates a message for one input with a message for
    another, and where the messages for two inputs stand side by side
    (a text with and without blanks after it) each input has an [exc_str]
    of its own. *)

Definition str_int (n : nat) : string := NilZero.string_of_uint (Nat.to_uint n).

(** The attribute [pos_in_stream] of an exception of the parser library:
    the offset of the unexpected token, or of the unexpected character. *)
Definition pos_in_stream (e : PyException) : option nat :=
  match e with
  | UnexpectedToken token _ => Some (start_pos token)
  | UnexpectedCharacters lex_pos _ _ => Some lex_pos
  | _ => None
  end.

Definition str_pos (p : option nat) : string :=
  match p with
  | Some n => str_int n
  | None => "None"
  end.

(** The message of the three [except] clauses, tried in the order of the
    text: [UnexpectedToken], then [UnexpectedInput], which here is an
    [UnexpectedCharacters], then every other [Exception]. *)
Definition error_message (exc_str : PyException -> string) (e : PyException) : string :=
  match e with
  | UnexpectedToken _ _ =>
      "Unexpected token at position " ++ str_pos (pos_in_stream e) ++ ": " ++ exc_str e
  | UnexpectedCharacters _ _ _ =>
      "Invalid input at position " ++ str_pos (pos_in_stream e) ++ ": " ++ exc_str e
  | _ => exc_str e
  end%string.

Definition validate_expression (exc_str : PyException -> string) (expr : string)
  : option (bool * option string) :=
  match parse expr with
  | None => None
  | Some (Return _) => Some (true, None)
  | Some (Raise e) => Some (false, Some (error_message exc_str e))
  end.

(* ------------------------------------------------------------------ *)
(** ** The token stream of a text

    The tokens the root lexer reads from a position on, up to the end of
    the text or to the first character that starts no terminal, and the
    lexer state at which it stops. *)

Fixpoint tokens_from (fuel : nat) (ls : LexerState) : list Token :=
  match fuel with
  | 0 => []
  | S fuel' =>
      match next_token terminals ls with
      | Tok t ls' => t :: tokens_from fuel' ls'
      | _ => []
      end
  end.

Fixpoint stop_from (fuel : nat) (ls : LexerState) : LexerState :=
  match fuel with
  | 0 => ls
  | S fuel' =>
      match next_token terminals ls with
      | Tok _ ls' => stop_from fuel' ls'
      | _ => ls
      end
  end.

Definition tokenize (s : string) : list Token :=
  let cs := list_ascii_of_string s in
  tokens_from (S (List.length cs)) {| text := cs; char_pos := 0 |}.

(** The main loop seen on a token stream: [toks] are the tokens still to
    come and [stop] is what the root lexer finds after them. *)
Fixpoint run_tokens (st : ParserState) (token : option Token) (toks : list Token)
  (stop : Lexed) : option (Result (option Tree)) :=
  match state_stack st with
  | [] => Some (Raise IndexError)
  | position :: _ =>
      match toks with
      | t :: toks' =>
          if has_action position (type_ t) then
            match feed_token st t false with
            | None => None
            | Some (Raise e) => Some (Raise e)
            | Some (Return (st', _)) => run_tokens st' (Some t) toks' stop
            end
          else Some (Raise (UnexpectedToken t (lexer_terminals position)))
      | [] =>
          match stop with
          | NoMatch ls =>
              Some (Raise (UnexpectedCharacters (char_pos ls) (hd " "%char (text ls))
                             (lexer_terminals position)))
          | Tok t _ => Some (Raise (UnexpectedToken t (lexer_terminals position)))
          | EOF =>
              let end_token :=
                match token with
                | Some t => new_borrow_pos END "" t
                | None => {| type_ := END; value := ""; start_pos := 0 |}
                end in
              match feed_token st end_token true with
              | None => None
              | Some (Raise e) => Some (Raise e)
              | Some (Return (_, v)) => Some (Return v)
              end
          end
      end
  end.

(** Feeding the parser a list of tokens, each of which it shifts. *)
Fixpoint feed_all (st : ParserState) (toks : list Token) : option ParserState :=
  match toks with
  | [] => Some st
  | t :: toks' =>
      match feed_token st t false with
      | Some (Return (st', _)) => feed_all st' toks'
      | _ => None
      end
  end.

(** The parser reads a derivation of a symbol: from a state that has an
    entry for the symbol it shifts the tokens, and with a token in sight
    that may follow the symbol it then goes on as if the state under that
    entry were on the stack, with the tree of the symbol. *)
Definition reads (X : Symbol) (w : list Terminal) : Prop :=
  forall (toks : list Token) (st : ParserState) (p q : State) (below : list State),
    map type_ toks = w ->
    state_stack st = p :: below ->
    trans p X = Some q ->
    exists st_w v,
      feed_all st toks = Some st_w /\
      forall (a : Token) (is_end : bool),
        follow X (type_ a) = true ->
        feed_token st_w a is_end = feed_token (push q v st) a is_end.

(** The root lexer reads the text to its end. *)
Definition lexed_whole (s : string) : Prop :=
  let cs := list_ascii_of_string s in
  next_token terminals (stop_from (S (List.length cs)) {| text := cs; char_pos := 0 |})
  = EOF.

(* ------------------------------------------------------------------ *)
(** ** The shape of a number

    [number_parts cs ip fp ep]: the text [cs] is an integer part [ip] of
    digits, then a fractional part [fp], empty or a "." and digits, then an
    exponent [ep], empty or "e" or "E", an optional sign and at least one
    digit. *)

Definition all_digits (cs : list ascii) : bool := forallb Common.DIGIT cs.

Definition fraction (fp : list ascii) : bool :=
  match fp with
  | [] => true
  | c :: f => Ascii.eqb c "." && all_digits f
  end.

Definition unsigned_digits (d : list ascii) : bool :=
  match d with
  | [] => false
  | _ :: _ => all_digits d
  end.

Definition signed_digits (r : list ascii) : bool :=
  match r with
  | s :: d =>
      if Ascii.eqb s "+" || Ascii.eqb s "-" then unsigned_digits d
      else unsigned_digits r
  | [] => false
  end.

Definition exponent (ep : list ascii) : bool :=
  match ep with
  | [] => true
  | c :: r => (Ascii.eqb c "e" || Ascii.eqb c "E") && signed_digits r
  end.

Definition number_parts (cs ip fp ep : list ascii) : Prop :=
  cs = ip ++ fp ++ ep /\
  all_digits ip = true /\ fraction fp = true /\ exponent ep = true.

(** At least one digit anywhere in the text. *)
Definition number_shape (cs : list ascii) : Prop :=
  exists ip fp ep, number_parts cs ip fp ep /\ existsb Common.DIGIT cs = true.

(** At least one digit in the integer or in the fractional part. *)
Definition number_text (cs : list ascii) : Prop :=
  exists ip fp ep, number_parts cs ip fp ep /\ existsb Common.DIGIT (ip ++ fp) = true.

(* ------------------------------------------------------------------ *)
(** ** The value of a tree

    The program never evaluates an expression.  This evaluation of the
    trees whose numbers are written as integers tells one shape of a tree
    from another. *)

Fixpoint int_value (acc : Z) (cs : list ascii) : Z :=
  match cs with
  | [] => acc
  | c :: cs' => int_value (10 * acc + Z.of_nat (nat_of_ascii c - 48)) cs'
  end.

Definition literal (s : string) : option Q :=
  let cs := list_ascii_of_string s in
  if unsigned_digits cs then Some (inject_Z (int_value 0 cs)) else None.

Definition binop (f : Q -> Q -> Q) (a b : option Q) : option Q :=
  match a, b with
  | Some x, Some y => Some (f x y)
  | _, _ => None
  end.

Fixpoint eval (t : Tree) : option Q :=
  match t with
  | Node d [a; b] =>
      if String.eqb d "add" then binop Qplus (eval a) (eval b)
      else if String.eqb d "sub" then binop Qminus (eval a) (eval b)
      else if String.eqb d "mul" then binop Qmult (eval a) (eval b)
      else if String.eqb d "div" then
        match eval b with
        | Some y => if Qeq_bool y 0 then None else binop Qdiv (eval a) (Some y)
        | None => None
        end
      else None
  | Node d [Leaf tok] =>
      if String.eqb d "number" then literal (value tok) else None
  | Node d [a] =>
      if String.eqb d "neg" then option_map Qopp (eval a) else None
  | _ => None
  end.

(* ------------------------------------------------------------------ *)
(** ** The shape of a sentence

    What every sentence of the grammar looks like from outside: the depth
    of its parentheses, and which token may stand next to which. *)

(** The depth of parentheses after the tokens [w], from the depth [depth];
    [None] when a ")" closes nothing. *)
Fixpoint nesting (depth : nat) (w : list Terminal) : option nat :=
  match w with
  | [] => Some depth
  | LPAR :: w' => nesting (S depth) w'
  | RPAR :: w' =>
      match depth with
      | 0 => None
      | S d => nesting d w'
      end
  | _ :: w' => nesting depth w'
  end.

Definition begins_operand (t : Terminal) : bool :=
  match t with
  | NUMBER | MINUS | LPAR => true
  | _ => false
  end.

Definition ends_operand (t : Terminal) : bool :=
  match t with
  | NUMBER | RPAR => true
  | _ => false
  end.

(** After the end of an operand comes a binary operator or a ")"; after
    an operator or a "(" comes the beginning of an operand. *)
Definition may_follow (a b : Terminal) : bool :=
  match a with
  | NUMBER | RPAR =>
      match b with
      | PLUS | MINUS | STAR | SLASH | RPAR => true
      | _ => false
      end
  | PLUS | MINUS | STAR | SLASH | LPAR => begins_operand b
  | END => false
  end.

Fixpoint chained (w : list Terminal) : bool :=
  match w with
  | a :: w' =>
      match w' with
      | b :: _ => may_follow a b && chained w'
      | [] => true
      end
  | [] => true
  end.

Definition sentence_shape (w : list Terminal) : bool :=
  match w with
  | [] => false
  | a :: _ => begins_operand a && ends_operand (last w END) && chained w
  end.

(** The characters of the terminals and of the ignored blanks. *)
Definition alphabet (c : ascii) : bool :=
  Common.DIGIT c || Common.WS_INLINE_char c ||
  existsb (Ascii.eqb c) (list_ascii_of_string ".eE+-*/()").

Definition no_blank (c : ascii) : bool := negb (Common.WS_INLINE_char c).

(** A prefix of a sentence of the grammar. *)
Definition viable (w : list Terminal) : Prop :=
  exists rest, derives (NT start) (w ++ rest).

(** The tokens that close what a state stack has open: an operand where
    one is due, then a ")" for every "(" that is still open. *)
Definition wants_operand (s : State) : bool :=
  match s with
  | s_init | s_neg | s_lpar | s_plus | s_minus | s_star | s_slash => true
  | _ => false
  end.

Fixpoint unclosed (states : list State) : nat :=
  match states with
  | [] => 0
  | s_lpar :: below => S (unclosed below)
  | s_rpar :: below => unclosed below - 1
  | _ :: below => unclosed below
  end.

Definition completion (states : list State) : list Terminal :=
  match states with
  | [] => []
  | s :: _ =>
      ((if wants_operand s then [NUMBER] else []) ++ repeat RPAR (unclosed states))%list
  end.

(** A token of a given terminal, for a sentence given by its terminals. *)
Definition token_of (t : Terminal) : Token := mkToken t "" 0.

(* ------------------------------------------------------------------ *)
(** ** Blanks around a text

    A lexer state with more blanks at the end of its text, and a lexer
    state, a token, a tree, a parser state and an exception [k] characters
    further on in a text. *)

Definition pad (ws : list ascii) (ls : LexerState) : LexerState :=
  {| text := text ls ++ ws; char_pos := char_pos ls |}.

Definition pad_lexed (ws : list ascii) (l : Lexed) : Lexed :=
  match l with
  | Tok t ls => Tok t (pad ws ls)
  | EOF => EOF
  | NoMatch ls => NoMatch (pad ws ls)
  end.

(** Blanks after a text change no match of the matcher. *)
Definition stable (ws : list ascii) (p : matcher) : Prop :=
  forall cs, p (cs ++ ws) = p cs.

Definition shift (k : nat) (t : Token) : Token :=
  {| type_ := type_ t; value := value t; start_pos := k + start_pos t |}.

Definition relocate (k : nat) (ls : LexerState) : LexerState :=
  {| text := text ls; char_pos := k + char_pos ls |}.

Definition relocate_lexed (k : nat) (l : Lexed) : Lexed :=
  match l with
  | Tok t ls => Tok (shift k t) (relocate k ls)
  | EOF => EOF
  | NoMatch ls => NoMatch (relocate k ls)
  end.

Fixpoint shift_tree (k : nat) (t : Tree) : Tree :=
  match t with
  | Leaf tok => Leaf (shift k tok)
  | Node data children => Node data (map (shift_tree k) children)
  end.

Definition shift_state (k : nat) (st : ParserState) : ParserState :=
  {| state_stack := state_stack st; value_stack := map (shift_tree k) (value_stack st) |}.

Definition shift_exception (k : nat) (e : PyException) : PyException :=
  match e with
  | UnexpectedToken t expected => UnexpectedToken (shift k t) expected
  | UnexpectedCharacters lex_pos char allowed => UnexpectedCharacters (k + lex_pos) char allowed
  | _ => e
  end.

Definition shift_result {A B : Type} (f : A -> B) (k : nat) (r : option (Result A))
  : option (Result B) :=
  match r with
  | None => None
  | Some (Return a) => Some (Return (f a))
  | Some (Raise e) => Some (Raise (shift_exception k e))
  end.

(* ------------------------------------------------------------------ *)
(** ** The window ([CFGValidatorApp])

    The widgets are seen through what the methods read and write: the
    text of the entry ([input_var], the variable of the [ttk.Entry]), the
    text of the status bar ([status]) and the result box, a text widget
    with its contents and its [state] option.  A text widget whose state is
    [disabled] ignores [insert] and [delete]; [see] scrolls and changes
    neither the contents nor the state.  [messagebox.showinfo] opens a
    dialog; a method gives the dialogs it opens along with the new window.

    A character of a text is a code point below 256. *)

Local Open Scope string_scope.

Inductive WidgetState : Set := normal | disabled.

Record ScrolledText : Set := mkScrolledText {
  contents : string;
  state : WidgetState
}.

(** [configure(state=...)] *)
Definition configure (s : WidgetState) (w : ScrolledText) : ScrolledText :=
  {| contents := contents w; state := s |}.

(** [insert("end", chars)] *)
Definition insert_end (chars : string) (w : ScrolledText) : ScrolledText :=
  match state w with
  | normal => {| contents := contents w ++ chars; state := normal |}
  | disabled => w
  end.

(** [delete("1.0", "end")] *)
Definition delete_all (w : ScrolledText) : ScrolledText :=
  match state w with
  | normal => {| contents := ""; state := normal |}
  | disabled => w
  end.

Record CFGValidatorApp : Set := mkCFGValidatorApp {
  input_var : string;
  result_box : ScrolledText;
  status : string
}.

(** A dialog of [messagebox.showinfo]: its title and its message. *)
Definition Dialog : Set := (string * string)%type.

(** The window that [__init__] builds: [tk.StringVar()] holds the empty
    string, the result box is created with [state="disabled"] and the
    status is [tk.StringVar(value="Ready")]. *)
Definition __init__ : CFGValidatorApp :=
  {| input_var := "";
     result_box := {| contents := ""; state := disabled |};
     status := "Ready" |}.

Definition newline : string := String "010"%char EmptyString.

Definition append_result (text : string) (self : CFGValidatorApp) : CFGValidatorApp :=
  let box := configure normal (result_box self) in
  let box := insert_end (text ++ newline) box in
  let box := configure disabled box in
  {| input_var := input_var self; result_box := box; status := status self |}.

(** [str.isspace] of a character, and [str.strip()]: the text without the
    whitespace at its two ends. *)
Definition isspace (c : ascii) : bool :=
  let n := nat_of_ascii c in
  (((9 <=? n) && (n <=? 13)) || ((28 <=? n) && (n <=? 32)) || (n =? 133) || (n =? 160))%nat.

Fixpoint lstrip (cs : list ascii) : list ascii :=
  match cs with
  | c :: cs' => if isspace c then lstrip cs' else cs
  | [] => []
  end.

Definition rstrip (cs : list ascii) : list ascii := rev (lstrip (rev cs)).

Definition strip (s : string) : string :=
  string_of_list_ascii (rstrip (lstrip (list_ascii_of_string s))).

(** The text of a value in an f-string. *)
Definition str_error (err : option string) : string :=
  match err with
  | Some message => message
  | None => "None"
  end.

Definition set_status (s : string) (self : CFGValidatorApp) : CFGValidatorApp :=
  {| input_var := input_var self; result_box := result_box self; status := s |}.

Definition set_input (s : string) (self : CFGValidatorApp) : CFGValidatorApp :=
  {| input_var := s; result_box := result_box self; status := status self |}.

(** [check]: [None] stands, as in [validate_expression], for a parser that
    is cut off. *)
Definition check (exc_str : PyException -> string) (self : CFGValidatorApp)
  : option (CFGValidatorApp * list Dialog) :=
  let expr := strip (input_var self) in
  if String.eqb expr "" then
    Some (self, [("Empty input", "Please enter an expression to validate.")])
  else
    match validate_expression exc_str expr with
    | None => None
    | Some (valid, err) =>
        if valid then
          Some (append_result ("[OK] " ++ expr) (set_status "Valid expression" self), [])
        else
          Some (append_result ("[ERROR] " ++ expr ++ " -> " ++ str_error err)
                  (set_status "Invalid expression" self), [])
    end.

Definition clear (self : CFGValidatorApp) : CFGValidatorApp :=
  let self := set_input "" self in
  let box := configure normal (result_box self) in
  let box := delete_all box in
  let box := configure disabled box in
  set_status "Cleared"
    {| input_var := input_var self; result_box := box; status := status self |}.

Definition examples : list string :=
  ["1+2*3"; "(4 - 5) * (6 + 7)"; "-(3+2)*4"; "42"; "3 + * 4"; "(1+2"].

(** [examples[0]] is in the list, which has six entries. *)
Definition insert_example (self : CFGValidatorApp) : CFGValidatorApp :=
  set_status "Inserted example" (set_input (nth 0 examples "") self).

(** What the user does: edit the text of the entry, press Return or the
    button "Validate" (both bound to [check]), press "Clear", press
    "Example". *)
Inductive Event : Set :=
  | Edit (s : string)
  | Validate
  | Clear
  | Example.

Definition handle (exc_str : PyException -> string) (self : CFGValidatorApp) (ev : Event)
  : option (CFGValidatorApp * list Dialog) :=
  match ev with
  | Edit s => Some (set_input s self, [])
  | Validate => check exc_str self
  | Clear => Some (clear self, [])
  | Example => Some (insert_example self, [])
  end.

(** The window after a list of events, and the dialogs shown on the
    way. *)
Fixpoint mainloop (exc_str : PyException -> string) (self : CFGValidatorApp)
  (evs : list Event) : option (CFGValidatorApp * list Dialog) :=
  match evs with
  | [] => Some (self, [])
  | ev :: evs' =>
      match handle exc_str self ev with
      | None => None
      | Some (self', shown) =>
          match mainloop exc_str self' evs' with
          | None => None
          | Some (self'', shown') => Some (self'', (shown ++ shown')%list)
          end
      end
  end.

(** The status bar describes the last line of the result box. *)
Definition describes (exc_str : PyException -> string) (self : CFGValidatorApp) : Prop :=
  let box := contents (result_box self) in
  (status self = "Ready" /\ box = "") \/
  (status self = "Cleared" /\ box = "") \/
  status self = "Inserted example" \/
  (status self = "Valid expression" /\
   exists pre expr,
     validate_expression exc_str expr = Some (true, None) /\
     box = pre ++ ("[OK] " ++ expr) ++ newline) \/
  (status self = "Invalid expression" /\
   exists pre expr message,
     validate_expression exc_str expr = Some (false, Some message) /\
     box = pre ++ ("[ERROR] " ++ expr ++ " -> " ++ message) ++ newline).

Local Close Scope string_scope.

(* ================================================================== *)
(** * Properties *)

(* ------------------------------------------------------------------ *)
(** ** Matches lie within the text *)

Section Matchers.

Variables p q : matcher.

Lemma run_le (cls : ascii -> bool) (cs : list ascii) : run cls cs <= List.length cs.
Proof.
  induction cs as [|c cs IH]; simpl; [lia|].
  destruct (cls c); simpl; lia.
Qed.

Lemma bounded_lit (a : ascii) : bounded (lit a).
Proof.
  intros [|c cs] n; simpl; [discriminate|].
  destruct (Ascii.eqb c a); intros H; inversion H; lia.
Qed.

Lemma positive_lit (a : ascii) : positive (lit a).
Proof.
  intros [|c cs] n; simpl; [discriminate|].
  destruct (Ascii.eqb c a); intros H; inversion H; lia.
Qed.

Lemma bounded_plus (cls : ascii -> bool) : bounded (plus cls).
Proof.
  intros cs n. unfold plus. pose proof (run_le cls cs) as Hle.
  destruct (run cls cs); intros H; inversion H; subst; exact Hle.
Qed.

Lemma positive_plus (cls : ascii -> bool) : positive (plus cls).
Proof.
  intros cs n. unfold plus.
  destruct (run cls cs); intros H; inversion H; lia.
Qed.

Lemma seq_inv (cs : list ascii) (n : nat) :
  seq p q cs = Some n ->
  exists a b, p cs = Some a /\ q (skipn a cs) = Some b /\ n = a + b.
Proof.
  unfold seq. destruct (p cs) as [a|]; [|discriminate].
  destruct (q (skipn a cs)) as [b|] eqn:Hq; simpl; [|discriminate].
  intros H; inversion H. exists a, b. auto.
Qed.

Lemma alt_inv (cs : list ascii) (n : nat) :
  alt p q cs = Some n -> p cs = Some n \/ (p cs = None /\ q cs = Some n).
Proof.
  unfold alt. destruct (p cs); intros H; [left | right]; auto.
Qed.

Lemma opt_inv (cs : list ascii) (n : nat) :
  opt p cs = Some n -> p cs = Some n \/ (p cs = None /\ n = 0).
Proof.
  unfold opt. destruct (p cs); intros H; inversion H; auto.
Qed.

Hypothesis bounded_p : bounded p.
Hypothesis bounded_q : bounded q.

Lemma bounded_seq : bounded (seq p q).
Proof.
  intros cs n H. apply seq_inv in H as (a & b & Ha & Hb & ->).
  apply bounded_p in Ha. apply bounded_q in Hb.
  rewrite length_skipn in Hb. lia.
Qed.

Lemma bounded_alt : bounded (alt p q).
Proof.
  intros cs n H. apply alt_inv in H as [H | [_ H]]; auto.
Qed.

Lemma bounded_opt : bounded (opt p).
Proof.
  intros cs n H. apply opt_inv in H as [H | [_ ->]]; [auto | lia].
Qed.

Lemma positive_seq_l : positive p -> positive (seq p q).
Proof.
  intros Hp cs n H. apply seq_inv in H as (a & b & Ha & _ & ->).
  apply Hp in Ha. lia.
Qed.

Lemma positive_alt : positive p -> positive q -> positive (alt p q).
Proof.
  intros Hp Hq cs n H. apply alt_inv in H as [H | [_ H]]; eauto.
Qed.

End Matchers.

Lemma bounded_NUMBER : bounded Common.NUMBER.
Proof.
  unfold Common.NUMBER, Common.FLOAT, Common.DECIMAL, Common.EXP,
    Common.SIGNED_INT, Common.INT.
  repeat first [ apply bounded_opt | apply bounded_alt | apply bounded_seq
               | apply bounded_lit | apply bounded_plus ].
Qed.

Lemma positive_NUMBER : positive Common.NUMBER.
Proof.
  unfold Common.NUMBER, Common.FLOAT, Common.DECIMAL, Common.EXP,
    Common.SIGNED_INT, Common.INT.
  repeat first [ apply positive_alt | apply positive_seq_l
               | apply positive_lit | apply positive_plus ].
Qed.

Lemma bounded_pattern (t : Terminal) : bounded (pattern t).
Proof.
  destruct t; simpl; try apply bounded_lit; [apply bounded_NUMBER|].
  intros cs n H; discriminate.
Qed.

Lemma positive_pattern (t : Terminal) : positive (pattern t).
Proof.
  destruct t; simpl; try apply positive_lit; [apply positive_NUMBER|].
  intros cs n H; discriminate.
Qed.

(* ------------------------------------------------------------------ *)
(** ** The scanner: at most one terminal matches at a position *)

Lemma plus_starts (cls : ascii -> bool) (c : ascii) (cs : list ascii) (n : nat) :
  plus cls (c :: cs) = Some n -> cls c = true.
Proof.
  unfold plus; simpl. destruct (cls c); [reflexivity | discriminate].
Qed.

Lemma lit_starts (a c : ascii) (cs : list ascii) (n : nat) :
  lit a (c :: cs) = Some n -> Ascii.eqb c a = true.
Proof.
  simpl. destruct (Ascii.eqb c a); [reflexivity | discriminate].
Qed.

Lemma NUMBER_starts (c : ascii) (cs : list ascii) (n : nat) :
  Common.NUMBER (c :: cs) = Some n -> starts NUMBER c = true.
Proof.
  intros H. simpl. apply orb_true_iff.
  apply alt_inv in H as [H | [_ H]]; [| left; eapply plus_starts; exact H].
  apply alt_inv in H as [H | [_ H]].
  - apply seq_inv in H as (a & b & H & _). left; eapply plus_starts; exact H.
  - apply seq_inv in H as (a & b & H & _).
    apply alt_inv in H as [H | [_ H]]; apply seq_inv in H as (a' & b' & H & _).
    + left; eapply plus_starts; exact H.
    + right; eapply lit_starts; exact H.
Qed.

Lemma pattern_starts (t : Terminal) (c : ascii) (cs : list ascii) (n : nat) :
  pattern t (c :: cs) = Some n -> starts t c = true.
Proof.
  destruct t; simpl pattern; intros H;
    first [ exact (NUMBER_starts c cs n H)
          | exact (lit_starts _ c cs n H)
          | discriminate H ].
Qed.

Lemma starts_unique (t t' : Terminal) (c : ascii) :
  starts t c = true -> starts t' c = true -> t = t'.
Proof.
  destruct t, t'; simpl; intros H H'; try reflexivity; try discriminate;
    repeat match goal with
           | E : Ascii.eqb _ _ = true |- _ => apply Ascii.eqb_eq in E; subst
           | E : _ || _ = true |- _ => apply orb_true_iff in E as [E | E]
           end;
    try discriminate.
Qed.

Lemma pattern_unique (t t' : Terminal) (cs : list ascii) (n n' : nat) :
  pattern t cs = Some n -> pattern t' cs = Some n' -> t = t'.
Proof.
  destruct cs as [|c cs].
  - intros H _. apply positive_pattern in H as H1. apply bounded_pattern in H.
    simpl in H. lia.
  - intros H H'. eapply starts_unique; eapply pattern_starts; eassumption.
Qed.

Lemma scan_inv (ts : list Terminal) (cs : list ascii) (t : Terminal) (n : nat) :
  scan ts cs = Some (t, n) -> In t ts /\ pattern t cs = Some n.
Proof.
  induction ts as [|t0 ts IH]; simpl; [discriminate|].
  destruct (pattern t0 cs) as [m|] eqn:E.
  - intros H; inversion H; subst. auto.
  - intros H. apply IH in H as [H1 H2]. auto.
Qed.

Lemma scan_None (ts : list Terminal) (cs : list ascii) :
  scan ts cs = None <-> forall t, In t ts -> pattern t cs = None.
Proof.
  induction ts as [|t0 ts IH]; simpl.
  - split; [intros _ t [] | reflexivity].
  - destruct (pattern t0 cs) as [m|] eqn:E.
    + split; [discriminate|]. intros H. rewrite (H t0) in E; [discriminate | auto].
    + rewrite IH. split.
      * intros H t [<- | Ht]; auto.
      * intros H t Ht. apply H. auto.
Qed.

Lemma scan_complete (ts : list Terminal) (cs : list ascii) (t : Terminal) (n : nat) :
  In t ts -> pattern t cs = Some n -> scan ts cs = Some (t, n).
Proof.
  intros Hin Hp. destruct (scan ts cs) as [[t' n']|] eqn:E.
  - apply scan_inv in E as [_ E].
    assert (t = t') by (eapply pattern_unique; eassumption). subst t'.
    congruence.
  - rewrite scan_None in E. rewrite (E t Hin) in Hp. discriminate.
Qed.

(** The lexer of a state reads what the root lexer reads, when the type of
    that token is among its terminals, and nothing otherwise. *)
Lemma scan_filter (f : Terminal -> bool) (cs : list ascii) :
  scan (filter f terminals) cs =
  match scan terminals cs with
  | Some (t, n) => if f t then Some (t, n) else None
  | None => None
  end.
Proof.
  destruct (scan terminals cs) as [[t n]|] eqn:E.
  - apply scan_inv in E as [Hin Hp]. destruct (f t) eqn:Hf.
    + apply scan_complete; [|exact Hp]. apply filter_In. auto.
    + apply scan_None. intros t' Ht'. apply filter_In in Ht' as [_ Hf'].
      destruct (pattern t' cs) as [n'|] eqn:Hp'; [|reflexivity].
      assert (t = t') by (eapply pattern_unique; eassumption). congruence.
  - apply scan_None. intros t Ht. apply filter_In in Ht as [Ht _].
    rewrite scan_None in E. auto.
Qed.

(* ------------------------------------------------------------------ *)
(** ** One token: offsets and progress *)

Lemma run_skipn (cls : ascii -> bool) (cs : list ascii) :
  run cls (skipn (run cls cs) cs) = 0.
Proof.
  induction cs as [|c cs IH]; simpl; [reflexivity|].
  destruct (cls c) eqn:E; simpl; [exact IH | now rewrite E].
Qed.

Lemma ignored_run (cs : list ascii) : ignored cs = run Common.WS_INLINE_char cs.
Proof.
  unfold ignored, Common.WS_INLINE, plus.
  now destruct (run Common.WS_INLINE_char cs).
Qed.

Lemma extent_skip_blanks (ls : LexerState) : extent (skip_blanks ls) = extent ls.
Proof.
  unfold extent, skip_blanks; simpl. rewrite ignored_run, length_skipn.
  pose proof (run_le Common.WS_INLINE_char (text ls)). lia.
Qed.

Lemma next_token_skip_blanks (ts : list Terminal) (ls : LexerState) :
  next_token ts (skip_blanks ls) = next_token ts ls.
Proof.
  unfold next_token, skip_blanks; simpl.
  rewrite !ignored_run, run_skipn. simpl. now rewrite Nat.add_0_r.
Qed.

Lemma next_token_Tok (ts : list Terminal) (ls ls' : LexerState) (t : Token) :
  next_token ts ls = Tok t ls' ->
  In (type_ t) ts /\
  char_pos ls <= start_pos t /\ start_pos t < char_pos ls' /\
  extent ls' = extent ls /\
  List.length (text ls') < List.length (text ls).
Proof.
  unfold next_token.
  pose proof (extent_skip_blanks ls) as He. unfold extent, skip_blanks in He.
  simpl in He. revert He.
  set (w := ignored (text ls)).
  destruct (skipn w (text ls)) as [|c cs] eqn:Ecs; [discriminate|].
  destruct (scan ts (c :: cs)) as [[ty n]|] eqn:Es; [|discriminate].
  intros He H. inversion H; subst; clear H. simpl.
  apply scan_inv in Es as [Hin Hp].
  pose proof (positive_pattern _ _ _ Hp) as H1.
  pose proof (bounded_pattern _ _ _ Hp) as H2.
  unfold extent; simpl. rewrite length_skipn.
  change (List.length (c :: cs)) with (S (List.length cs)) in *.
  repeat split; try lia. exact Hin.
Qed.

Lemma next_token_NoMatch (ts : list Terminal) (ls ls' : LexerState) :
  next_token ts ls = NoMatch ls' ->
  ls' = skip_blanks ls /\ text ls' <> [] /\ scan ts (text ls') = None /\
  char_pos ls' < extent ls.
Proof.
  unfold next_token.
  pose proof (extent_skip_blanks ls) as He. unfold extent, skip_blanks in *.
  simpl in He. revert He.
  set (w := ignored (text ls)).
  destruct (skipn w (text ls)) as [|c cs] eqn:Ecs; [discriminate|].
  destruct (scan ts (c :: cs)) as [[ty n]|] eqn:Es; [discriminate|].
  intros He H. inversion H; subst; clear H. simpl in *.
  repeat split; try congruence; try lia.
Qed.

(** The lexer of a state against the root lexer. *)
Lemma next_token_filter (f : Terminal -> bool) (ls : LexerState) :
  next_token (filter f terminals) ls =
  match next_token terminals ls with
  | Tok t ls' => if f (type_ t) then Tok t ls' else NoMatch (skip_blanks ls)
  | EOF => EOF
  | NoMatch ls' => NoMatch ls'
  end.
Proof.
  unfold next_token, skip_blanks.
  destruct (skipn _ (text ls)) as [|c cs]; [reflexivity|].
  rewrite scan_filter.
  destruct (scan terminals (c :: cs)) as [[ty n]|]; [|reflexivity].
  simpl. destruct (f ty); reflexivity.
Qed.

Lemma lex_root (ls : LexerState) (st : ParserState) (position : State) (below : list State) :
  state_stack st = position :: below ->
  lex ls st =
  match next_token terminals ls with
  | Tok t ls' =>
      if has_action position (type_ t) then Return (Some (t, ls'))
      else Raise (UnexpectedToken t (lexer_terminals position))
  | EOF => Return None
  | NoMatch ls' =>
      Raise (UnexpectedCharacters (char_pos ls') (hd " "%char (text ls'))
               (lexer_terminals position))
  end.
Proof.
  intros Hst. unfold lex. rewrite Hst. unfold lexer_terminals at 1.
  rewrite next_token_filter.
  destruct (next_token terminals ls) as [t ls'| |ls'] eqn:E; [|reflexivity|].
  - destruct (has_action position (type_ t)); [reflexivity|].
    rewrite next_token_skip_blanks, E. reflexivity.
  - apply next_token_NoMatch in E as E'. destruct E' as [-> _].
    rewrite next_token_skip_blanks, E. reflexivity.
Qed.

(* ------------------------------------------------------------------ *)
(** ** The reductions of one token come to an end *)

Lemma weight_pos (s : State) : 1 <= weight s.
Proof. destruct s; simpl; lia. Qed.

Lemma weight_length (states : list State) :
  List.length states <= list_sum (map weight states).
Proof.
  induction states as [|s states IH]; simpl; [lia|].
  pose proof (weight_pos s). lia.
Qed.

Lemma goto_weight (below s : State) (n : NonTerminal) :
  goto below n = Some s -> weight s = rank n.
Proof.
  destruct below, n; simpl; intros H; inversion H; reflexivity.
Qed.

Lemma reduce_weight (s : State) (t : Terminal) (r : Rule) :
  action s t = Some (Reduce r) ->
  1 <= List.length (expansion r) /\
  S (rank (origin r)) <= weight s + (List.length (expansion r) - 1).
Proof.
  destruct s, t; simpl; intros H; inversion H; subst; simpl; lia.
Qed.

Lemma weight_skipn (states rest : list State) (k : nat) :
  1 <= k ->
  skipn k states = rest -> rest <> [] ->
  match states with
  | [] => False
  | s :: _ =>
      weight s + (k - 1) + list_sum (map weight rest)
      <= list_sum (map weight states)
  end.
Proof.
  intros Hk Hskip Hne.
  destruct states as [|s states].
  - rewrite skipn_nil in Hskip. congruence.
  - destruct k as [|k]; [lia|]. simpl in Hskip. simpl.
    replace (list_sum (map weight states))
      with (list_sum (map weight (firstn k states)) + list_sum (map weight rest))
      by (now rewrite <- Hskip, <- list_sum_app, <- map_app, firstn_skipn).
    assert (Hlen : List.length (firstn k states) = k).
    { apply firstn_length_le.
      assert (List.length (skipn k states) <> 0)
        by (rewrite Hskip; destruct rest; simpl; congruence).
      rewrite length_skipn in H. lia. }
    pose proof (weight_length (firstn k states)). lia.
Qed.

Lemma feed_loop_terminates (fuel : nat) (st : ParserState) (token : Token) (is_end : bool) :
  list_sum (map weight (state_stack st)) < fuel ->
  feed_loop fuel st token is_end <> None.
Proof.
  revert st. induction fuel as [|fuel IH]; intros st Hfuel; [lia|].
  simpl. destruct (state_stack st) as [|s below] eqn:Est; [discriminate|].
  destruct (action s (type_ token)) as [[s'|r]|] eqn:Ea; [| |discriminate].
  - destruct is_end; discriminate.
  - destruct (callback r _); [|discriminate].
    destruct (skipn _ (s :: below)) as [|b rest] eqn:Eskip; [discriminate|].
    destruct (goto b (origin r)) as [s'|] eqn:Eg; [|discriminate].
    destruct (is_end && State_eqb s' end_state); [discriminate|].
    apply IH. simpl.
    apply reduce_weight in Ea as [Hk Hw].
    apply goto_weight in Eg.
    pose proof (weight_skipn _ _ _ Hk Eskip) as Hs. simpl in Hs.
    assert (b :: rest <> []) by discriminate.
    specialize (Hs H). simpl in Hfuel. lia.
Qed.

Lemma feed_token_terminates (st : ParserState) (token : Token) (is_end : bool) :
  feed_token st token is_end <> None.
Proof. apply feed_loop_terminates. unfold budget. lia. Qed.

(* ------------------------------------------------------------------ *)
(** ** The main loop comes to an end *)

Lemma lex_Some (ls ls' : LexerState) (st : ParserState) (t : Token) :
  lex ls st = Return (Some (t, ls')) ->
  exists position below,
    state_stack st = position :: below /\
    next_token (lexer_terminals position) ls = Tok t ls'.
Proof.
  unfold lex. destruct (state_stack st) as [|position below]; [discriminate|].
  destruct (next_token (lexer_terminals position) ls) as [t0 ls0| |ls0] eqn:E.
  - intros H; inversion H; subst. now exists position, below.
  - discriminate.
  - destruct (next_token terminals ls0); discriminate.
Qed.

Lemma parse_loop_terminates (fuel : nat) (st : ParserState) (ls : LexerState)
  (token : option Token) :
  List.length (text ls) < fuel -> parse_loop fuel st ls token <> None.
Proof.
  revert st ls token. induction fuel as [|fuel IH]; intros st ls token Hfuel; [lia|].
  simpl. destruct (lex ls st) as [[[t ls']|]|e] eqn:El; [| |discriminate].
  - pose proof (feed_token_terminates st t false) as Hf.
    destruct (feed_token st t false) as [[[st' v]|e]|]; [|discriminate|congruence].
    apply IH. apply lex_Some in El as (position & below & _ & El).
    apply next_token_Tok in El. lia.
  - match goal with |- context [feed_token st ?tk true] =>
      pose proof (feed_token_terminates st tk true) as Hf;
      destruct (feed_token st tk true) as [[[st' v]|e]|] end;
      [discriminate|discriminate|congruence].
Qed.

Lemma parse_terminates (s : string) : exists r, parse s = Some r.
Proof.
  destruct (parse s) as [r|] eqn:E; [now exists r|].
  exfalso. revert E. apply parse_loop_terminates. simpl. lia.
Qed.

(* ------------------------------------------------------------------ *)
(** ** The stacks stay well formed, and the tables are never missed *)

Lemma stack_ok_cons (s b : State) (below : list State) :
  stack_ok (s :: b :: below) = enters b s && stack_ok (b :: below).
Proof. reflexivity. Qed.

(** Look one state further down a well-formed stack. *)
Ltac below H :=
  match type of H with
  | stack_ok (_ :: ?l) = true =>
      let b := fresh "b" in
      let l' := fresh "l" in
      let He := fresh "He" in
      destruct l as [|b l']; [vm_compute in H; discriminate H|];
      rewrite stack_ok_cons in H; apply andb_true_iff in H as [He H];
      destruct b; try (vm_compute in He; discriminate He); clear He
  end.

Ltac reduce_here H :=
  first [ do 3 eexists; split; [reflexivity|]; split; [reflexivity|];
          rewrite stack_ok_cons, H; reflexivity
        | below H; reduce_here H ].

Lemma reduce_ok (s : State) (below : list State) (t : Terminal) (r : Rule) :
  stack_ok (s :: below) = true ->
  action s t = Some (Reduce r) ->
  exists b rest s',
    skipn (List.length (expansion r)) (s :: below) = b :: rest /\
    goto b (origin r) = Some s' /\
    stack_ok (s' :: b :: rest) = true.
Proof.
  intros Hok Ha.
  destruct s, t; simpl in Ha; inversion Ha; subst; clear Ha;
    simpl expansion; simpl origin; simpl List.length; reduce_here Hok.
Qed.

Lemma enters_shift (s s' : State) (t : Terminal) :
  action s t = Some (Shift s') -> enters s s' = true.
Proof.
  destruct s, t; simpl; intros H; inversion H; subst; reflexivity.
Qed.

Lemma no_shift_END (s s' : State) : action s END <> Some (Shift s').
Proof. destruct s; simpl; discriminate. Qed.

Lemma callback_total (r : Rule) (children : list Tree) :
  List.length children = List.length (expansion r) ->
  exists v, callback r children = Some v.
Proof.
  destruct r; destruct children as [|a [|b [|c [|d l]]]]; simpl;
    try discriminate; intros _; eexists; reflexivity.
Qed.

(** One reduction on a well-formed state: the callback has its children,
    the state below is there and has an entry for the origin of the rule,
    and the new state is well formed. *)
Lemma reduce_step (st : ParserState) (s : State) (below : list State)
  (t : Terminal) (rule : Rule) :
  well_formed st ->
  state_stack st = s :: below ->
  action s t = Some (Reduce rule) ->
  exists v b rest s',
    callback rule (rev (firstn (List.length (expansion rule)) (value_stack st))) = Some v /\
    skipn (List.length (expansion rule)) (s :: below) = b :: rest /\
    goto b (origin rule) = Some s' /\
    List.length (expansion rule) < List.length (s :: below) /\
    well_formed {| state_stack := s' :: b :: rest;
                   value_stack := v :: skipn (List.length (expansion rule)) (value_stack st) |}.
Proof.
  intros [Hok Hlen] Est Ea. rewrite Est in Hok, Hlen.
  destruct (reduce_ok _ _ _ _ Hok Ea) as (b & rest & s' & Hskip & Hg & Hok').
  assert (Hk : List.length (expansion rule) < List.length (s :: below)).
  { assert (List.length (skipn (List.length (expansion rule)) (s :: below)) <> 0)
      by (rewrite Hskip; discriminate).
    rewrite length_skipn in H. lia. }
  destruct (callback_total rule
              (rev (firstn (List.length (expansion rule)) (value_stack st))))
    as [v Hv].
  { rewrite length_rev. apply firstn_length_le. lia. }
  exists v, b, rest, s'. repeat split; auto.
  cbn [state_stack value_stack List.length].
  assert (List.length (b :: rest)
          = List.length (s :: below) - List.length (expansion rule))
    by (rewrite <- Hskip; apply length_skipn).
  rewrite length_skipn. cbn [List.length] in *. lia.
Qed.

Lemma feed_loop_ok (fuel : nat) (st : ParserState) (token : Token) (is_end : bool)
  (r : Result (ParserState * option Tree)) :
  well_formed st ->
  (is_end = true -> type_ token = END) ->
  feed_loop fuel st token is_end = Some r ->
  match r with
  | Return (st', _) => well_formed st'
  | Raise e => exists expected, e = UnexpectedToken token expected
  end.
Proof.
  revert st r. induction fuel as [|fuel IH]; intros st r Hwf Hend; [discriminate|].
  pose proof Hwf as [Hok Hlen].
  simpl. destruct (state_stack st) as [|s below] eqn:Est; [discriminate Hok|].
  destruct (action s (type_ token)) as [[s'|rule]|] eqn:Ea.
  - destruct is_end.
    + rewrite Hend in Ea by reflexivity. now apply no_shift_END in Ea.
    + intros H; inversion H; subst; clear H.
      split; cbn [state_stack value_stack].
      * rewrite stack_ok_cons, Hok, (enters_shift _ _ _ Ea). reflexivity.
      * simpl in Hlen. simpl. lia.
  - destruct (reduce_step st s below _ rule Hwf Est Ea)
      as (v & b & rest & s' & Hv & Hskip & Hg & _ & Hwf').
    rewrite Hv, Hskip, Hg.
    destruct (is_end && State_eqb s' end_state).
    + intros H; injection H as <-. exact Hwf'.
    + intros H. exact (IH _ _ Hwf' Hend H).
  - intros H; injection H as <-. eexists; reflexivity.
Qed.

Lemma feed_token_ok (st : ParserState) (token : Token) (is_end : bool)
  (r : Result (ParserState * option Tree)) :
  well_formed st ->
  (is_end = true -> type_ token = END) ->
  feed_token st token is_end = Some r ->
  match r with
  | Return (st', _) => well_formed st'
  | Raise e => exists expected, e = UnexpectedToken token expected
  end.
Proof. apply feed_loop_ok. Qed.

Lemma well_formed_start :
  well_formed {| state_stack := [start_state]; value_stack := [] |}.
Proof. split; reflexivity. Qed.

(* ------------------------------------------------------------------ *)
(** ** Every exception of the parser names an offset of the text *)

Lemma length_list_ascii (s : string) :
  List.length (list_ascii_of_string s) = String.length s.
Proof. induction s as [|c s IH]; simpl; [reflexivity | now rewrite IH]. Qed.

Lemma well_formed_top (st : ParserState) :
  well_formed st -> exists position below, state_stack st = position :: below.
Proof.
  intros [Hok _]. destruct (state_stack st) as [|s below]; [discriminate Hok|].
  now exists s, below.
Qed.

Lemma parse_loop_raise (fuel : nat) (st : ParserState) (ls : LexerState)
  (token : option Token) (e : PyException) :
  well_formed st ->
  (forall t, token = Some t -> start_pos t <= extent ls) ->
  parse_loop fuel st ls token = Some (Raise e) ->
  exists p, pos_in_stream e = Some p /\ p <= extent ls.
Proof.
  revert st ls token.
  induction fuel as [|fuel IH]; intros st ls token Hwf Htok; [discriminate|].
  destruct (well_formed_top st Hwf) as (position & below & Est).
  simpl. rewrite (lex_root ls st position below Est).
  destruct (next_token terminals ls) as [t ls'| |ls'] eqn:E.
  - apply next_token_Tok in E as (_ & _ & Hpos & Hext & _).
    assert (Ht : start_pos t <= extent ls) by (unfold extent in *; lia).
    destruct (has_action position (type_ t)).
    + destruct (feed_token st t false) as [[[st' v]|e']|] eqn:Ef; [| |discriminate].
      * intros H. rewrite <- Hext.
        apply (IH st' ls' (Some t)); [| |exact H].
        -- apply (feed_token_ok _ _ _ _ Hwf) in Ef; [exact Ef | discriminate].
        -- intros t' Ht'; inversion Ht'; subst. now rewrite Hext.
      * intros H; injection H as <-.
        apply (feed_token_ok _ _ _ _ Hwf) in Ef as [expected ->]; [|discriminate].
        exists (start_pos t). auto.
    + intros H; injection H as <-. exists (start_pos t). auto.
  - match goal with |- context [feed_token st ?tk true] =>
      set (end_token := tk);
      destruct (feed_token st end_token true) as [[[st' v]|e']|] eqn:Ef end;
      try discriminate.
    intros H; injection H as <-.
    apply (feed_token_ok _ _ _ _ Hwf) in Ef as [expected ->];
      [|intros _; subst end_token; destruct token; reflexivity].
    exists (start_pos end_token). split; [reflexivity|].
    subst end_token. destruct token as [t|]; simpl; [auto | lia].
  - apply next_token_NoMatch in E as (_ & _ & _ & Hpos).
    intros H; injection H as <-. exists (char_pos ls'). simpl. split; [reflexivity | lia].
Qed.

Lemma parse_raise (s : string) (e : PyException) :
  parse s = Some (Raise e) ->
  exists p, pos_in_stream e = Some p /\ p <= String.length s.
Proof.
  intros H. apply parse_loop_raise in H.
  - unfold extent in H. simpl in H. now rewrite length_list_ascii in H.
  - exact well_formed_start.
  - discriminate.
Qed.

(* ------------------------------------------------------------------ *)
(** ** The main loop on the token stream of the text *)

Lemma parse_loop_run_tokens (fuel : nat) (st : ParserState) (ls : LexerState)
  (token : option Token) :
  List.length (text ls) < fuel ->
  parse_loop fuel st ls token =
  run_tokens st token (tokens_from fuel ls) (next_token terminals (stop_from fuel ls)).
Proof.
  revert st ls token.
  induction fuel as [|fuel IH]; intros st ls token Hfuel; [lia|].
  destruct (state_stack st) as [|position below] eqn:Est.
  - cbn [parse_loop]. unfold lex. rewrite Est.
    destruct (tokens_from (S fuel) ls); cbn [run_tokens]; rewrite Est; reflexivity.
  - cbn [parse_loop tokens_from stop_from].
    rewrite (lex_root ls st position below Est).
    destruct (next_token terminals ls) as [t ls'| |ls'] eqn:E.
    + cbn [run_tokens]. rewrite Est.
      destruct (has_action position (type_ t)); [|reflexivity].
      destruct (feed_token st t false) as [[[st' v]|e]|]; try reflexivity.
      apply IH. apply next_token_Tok in E. lia.
    + cbn [run_tokens]. rewrite Est, E. reflexivity.
    + cbn [run_tokens]. rewrite Est, E. reflexivity.
Qed.

Lemma parse_run_tokens (s : string) :
  exists stop, parse s =
    run_tokens {| state_stack := [start_state]; value_stack := [] |} None
      (tokenize s) stop.
Proof.
  eexists. unfold parse, tokenize. apply parse_loop_run_tokens. simpl. lia.
Qed.

(** A stream that ends well is read in the same way when more follows. *)
Lemma run_tokens_app (pre : list Token) (st : ParserState) (token : option Token)
  (stop : Lexed) (v : option Tree) :
  run_tokens st token pre stop = Some (Return v) ->
  exists st' token',
    run_tokens st' token' [] stop = Some (Return v) /\
    forall toks stop',
      run_tokens st token (pre ++ toks) stop' = run_tokens st' token' toks stop'.
Proof.
  revert st token. induction pre as [|t pre IH]; intros st token H.
  - exists st, token. auto.
  - cbn [run_tokens] in H.
    destruct (state_stack st) as [|position below] eqn:Est; [discriminate|].
    destruct (has_action position (type_ t)) eqn:Ha; [|discriminate].
    destruct (feed_token st t false) as [[[st1 v1]|e]|] eqn:Ef; try discriminate.
    apply IH in H as (st' & token' & H1 & H2).
    exists st', token'. split; [exact H1|].
    intros toks stop'. rewrite <- H2. simpl. now rewrite Est, Ha, Ef.
Qed.

(** Where the end of the input is accepted, a number, a "(" and a ")" are
    not. *)
Lemma table_END (s : State) (r : Rule) :
  action s END = Some (Reduce r) ->
  action s NUMBER = None /\ action s LPAR = None /\
  (action s RPAR = None \/ (action s RPAR = Some (Reduce r) /\ origin r <> start)).
Proof.
  destruct s; simpl; intros H; inversion H; subst; simpl;
    repeat split; auto; right; split; auto; discriminate.
Qed.

Lemma goto_end_state (b s : State) (n : NonTerminal) :
  goto b n = Some s -> State_eqb s end_state = true -> n = start.
Proof.
  destruct b, n; simpl; intros H; inversion H; subst; simpl; congruence.
Qed.

Lemma feed_loop_trailing (fuel : nat) (st : ParserState) (end_token t : Token)
  (r : ParserState * option Tree) :
  type_ end_token = END ->
  In (type_ t) [NUMBER; LPAR; RPAR] ->
  feed_loop fuel st end_token true = Some (Return r) ->
  exists expected, feed_loop fuel st t false = Some (Raise (UnexpectedToken t expected)).
Proof.
  intros Hend Ht. revert st.
  induction fuel as [|fuel IH]; intros st; [discriminate|].
  simpl. destruct (state_stack st) as [|s below]; [discriminate|].
  rewrite Hend.
  destruct (action s END) as [[s'|rule]|] eqn:Ea; try discriminate.
  destruct (table_END _ _ Ea) as (Hn & Hl & Hr).
  destruct Ht as [Ht | [Ht | [Ht | []]]]; rewrite <- Ht.
  - rewrite Hn. intros _. eexists; reflexivity.
  - rewrite Hl. intros _. eexists; reflexivity.
  - destruct Hr as [Hr | [Hr Ho]]; rewrite Hr; [intros _; eexists; reflexivity|].
    destruct (callback rule _) as [v|]; [|discriminate].
    destruct (skipn _ (s :: below)) as [|b rest]; [discriminate|].
    destruct (goto b (origin rule)) as [s'|] eqn:Eg; [|discriminate].
    destruct (State_eqb s' end_state) eqn:Ee.
    + now apply (goto_end_state _ _ _ Eg) in Ee.
    + simpl. apply IH.
Qed.

(* ------------------------------------------------------------------ *)
(** ** What NUMBER matches *)

Lemma firstn_plus {A : Type} (a b : nat) (l : list A) :
  firstn (a + b) l = firstn a l ++ firstn b (skipn a l).
Proof.
  revert l. induction a as [|a IH]; intros l; [reflexivity|].
  destruct l as [|x l]; simpl; [now rewrite firstn_nil | now rewrite IH].
Qed.

Lemma run_firstn (cls : ascii -> bool) (cs : list ascii) :
  forallb cls (firstn (run cls cs) cs) = true.
Proof.
  induction cs as [|c cs IH]; simpl; [reflexivity|].
  destruct (cls c) eqn:E; simpl; [now rewrite E | reflexivity].
Qed.

Lemma run_app_all (cls : ascii -> bool) (a b : list ascii) :
  forallb cls a = true -> run cls (a ++ b) = List.length a + run cls b.
Proof.
  induction a as [|c a IH]; simpl; [reflexivity|].
  intros H. apply andb_true_iff in H as [-> H]. now rewrite IH.
Qed.

Lemma skipn_length_app {A : Type} (a b : list A) : skipn (List.length a) (a ++ b) = b.
Proof. induction a as [|x a IH]; simpl; auto. Qed.

Lemma plus_sound (cls : ascii -> bool) (cs : list ascii) (n : nat) :
  plus cls cs = Some n -> firstn n cs <> [] /\ forallb cls (firstn n cs) = true.
Proof.
  unfold plus. pose proof (run_firstn cls cs) as H.
  destruct (run cls cs) as [|k] eqn:E; [discriminate|].
  intros H'; inversion H'; subst. split; [|exact H].
  destruct cs; simpl in *; [discriminate E | discriminate].
Qed.

Lemma plus_app (cls : ascii -> bool) (a b : list ascii) :
  a <> [] -> forallb cls a = true -> run cls b = 0 ->
  plus cls (a ++ b) = Some (List.length a).
Proof.
  intros Hne Ha Hb. unfold plus. rewrite run_app_all, Hb, Nat.add_0_r by exact Ha.
  destruct a; [congruence | reflexivity].
Qed.

Lemma plus_None (cls : ascii -> bool) (b : list ascii) :
  run cls b = 0 -> plus cls b = None.
Proof. unfold plus. now intros ->. Qed.

Lemma lit_sound (a : ascii) (cs : list ascii) (n : nat) :
  lit a cs = Some n -> n = 1 /\ firstn 1 cs = [a].
Proof.
  destruct cs as [|c cs]; simpl; [discriminate|].
  destruct (Ascii.eqb c a) eqn:E; [|discriminate].
  apply Ascii.eqb_eq in E. subst. intros H; inversion H. auto.
Qed.

Lemma DIGIT_not_sign (c : ascii) :
  Common.DIGIT c = true -> Ascii.eqb c "+" || Ascii.eqb c "-" = false.
Proof.
  intros H.
  destruct (Ascii.eqb c "+") eqn:E1; [apply Ascii.eqb_eq in E1; subst; discriminate H|].
  destruct (Ascii.eqb c "-") eqn:E2; [apply Ascii.eqb_eq in E2; subst; discriminate H|].
  reflexivity.
Qed.

Lemma unsigned_digits_iff (d : list ascii) :
  unsigned_digits d = true <-> d <> [] /\ all_digits d = true.
Proof.
  destruct d as [|c d]; simpl; split.
  - discriminate.
  - intros [H _]; congruence.
  - intros H; split; [discriminate | exact H].
  - intros [_ H]; exact H.
Qed.

Lemma digits_exists (d : list ascii) :
  d <> [] -> forallb Common.DIGIT d = true -> existsb Common.DIGIT d = true.
Proof.
  destruct d as [|c d]; [congruence|]. simpl.
  intros _ H. apply andb_true_iff in H as [-> _]. reflexivity.
Qed.

Lemma INT_sound (cs : list ascii) (n : nat) :
  Common.INT cs = Some n -> unsigned_digits (firstn n cs) = true.
Proof. intros H. apply unsigned_digits_iff. now apply plus_sound. Qed.

Lemma SIGNED_INT_sound (cs : list ascii) (n : nat) :
  Common.SIGNED_INT cs = Some n -> signed_digits (firstn n cs) = true.
Proof.
  intros H. apply seq_inv in H as (a & b & Ha & Hb & ->).
  rewrite firstn_plus. apply INT_sound in Hb.
  apply opt_inv in Ha as [Ha | [Ha ->]].
  - assert (Hs : a = 1 /\ (firstn 1 cs = ["+"%char] \/ firstn 1 cs = ["-"%char])).
    { apply alt_inv in Ha as [Ha | [_ Ha]]; apply lit_sound in Ha as [-> Ha]; auto. }
    destruct Hs as [-> [-> | ->]]; simpl; exact Hb.
  - simpl. simpl in Hb. destruct (firstn b cs) as [|s d] eqn:E; [discriminate Hb|].
    unfold signed_digits. rewrite DIGIT_not_sign; [exact Hb|].
    simpl in Hb. now apply andb_true_iff in Hb as [Hb _].
Qed.

Lemma EXP_sound (cs : list ascii) (n : nat) :
  Common.EXP cs = Some n -> firstn n cs <> [] /\ exponent (firstn n cs) = true.
Proof.
  intros H. apply seq_inv in H as (a & b & Ha & Hb & ->).
  rewrite firstn_plus. apply SIGNED_INT_sound in Hb.
  assert (Hs : a = 1 /\ (firstn 1 cs = ["e"%char] \/ firstn 1 cs = ["E"%char])).
  { apply alt_inv in Ha as [Ha | [_ Ha]]; apply lit_sound in Ha as [-> Ha]; auto. }
  destruct Hs as [-> [-> | ->]]; simpl; (split; [discriminate | exact Hb]).
Qed.

Lemma DECIMAL_sound (cs : list ascii) (n : nat) :
  Common.DECIMAL cs = Some n ->
  exists ip fp, firstn n cs = ip ++ fp /\ all_digits ip = true /\
                fraction fp = true /\ fp <> [] /\
                existsb Common.DIGIT (ip ++ fp) = true.
Proof.
  intros H. apply alt_inv in H as [H | [_ H]];
    apply seq_inv in H as (a & b & Ha & Hb & ->).
  - apply seq_inv in Hb as (d & f & Hd & Hf & ->).
    apply lit_sound in Hd as [-> Hd].
    apply plus_sound in Ha as [Hne Ha].
    exists (firstn a cs), (firstn (1 + f) (skipn a cs)).
    rewrite firstn_plus. rewrite (firstn_plus 1 f), Hd.
    repeat split; auto.
    + simpl. apply opt_inv in Hf as [Hf | [_ ->]].
      * apply plus_sound in Hf as [_ Hf]. exact Hf.
      * reflexivity.
    + discriminate.
    + rewrite existsb_app. apply orb_true_iff. left. now apply digits_exists.
  - apply lit_sound in Ha as [-> Ha]. apply plus_sound in Hb as [Hne Hb].
    exists [], (firstn (1 + b) cs). rewrite (firstn_plus 1 b), Ha.
    repeat split; auto.
    + discriminate.
    + rewrite !existsb_app. apply orb_true_iff. right.
      apply orb_true_iff. right. now apply digits_exists.
Qed.

Lemma NUMBER_sound (cs : list ascii) (n : nat) :
  Common.NUMBER cs = Some n -> number_text (firstn n cs).
Proof.
  intros H. apply alt_inv in H as [H | [_ H]].
  - apply alt_inv in H as [H | [_ H]];
      apply seq_inv in H as (a & b & Ha & Hb & ->); rewrite firstn_plus.
    + apply plus_sound in Ha as [Hne Ha]. apply EXP_sound in Hb as [_ Hb].
      exists (firstn a cs), [], (firstn b (skipn a cs)).
      repeat split; auto.
      rewrite app_nil_r. now apply digits_exists.
    + apply DECIMAL_sound in Ha as (ip & fp & -> & Hip & Hfp & _ & Hd).
      exists ip, fp, (firstn b (skipn a cs)).
      repeat split; auto; [now rewrite app_assoc|].
      apply opt_inv in Hb as [Hb | [_ ->]]; [now apply EXP_sound in Hb | reflexivity].
  - apply plus_sound in H as [Hne H].
    exists (firstn n cs), [], []. rewrite !app_nil_r.
    repeat split; auto; [now rewrite app_nil_r | now apply digits_exists].
Qed.

Section Sequencing.

Variables p q : matcher.

Lemma seq_Some (cs : list ascii) (a b : nat) :
  p cs = Some a -> q (skipn a cs) = Some b -> seq p q cs = Some (a + b).
Proof. unfold seq. now intros -> ->. Qed.

Lemma seq_None_l (cs : list ascii) : p cs = None -> seq p q cs = None.
Proof. unfold seq. now intros ->. Qed.

Lemma seq_None_r (cs : list ascii) (a : nat) :
  p cs = Some a -> q (skipn a cs) = None -> seq p q cs = None.
Proof. unfold seq. now intros -> ->. Qed.

Lemma alt_Some (cs : list ascii) (a : nat) : p cs = Some a -> alt p q cs = Some a.
Proof. unfold alt. now intros ->. Qed.

Lemma alt_None (cs : list ascii) : p cs = None -> alt p q cs = q cs.
Proof. unfold alt. now intros ->. Qed.

Lemma opt_Some (cs : list ascii) (a : nat) : p cs = Some a -> opt p cs = Some a.
Proof. unfold opt. now intros ->. Qed.

Lemma opt_None (cs : list ascii) : p cs = None -> opt p cs = Some 0.
Proof. unfold opt. now intros ->. Qed.

End Sequencing.

Lemma INT_all (d b : list ascii) :
  unsigned_digits d = true -> run Common.DIGIT b = 0 ->
  Common.INT (d ++ b) = Some (List.length d).
Proof.
  intros H Hb. apply unsigned_digits_iff in H as [Hne H].
  now apply plus_app.
Qed.

Lemma SIGNED_INT_complete (r : list ascii) :
  signed_digits r = true -> Common.SIGNED_INT r = Some (List.length r).
Proof.
  destruct r as [|s d]; [discriminate|]. unfold signed_digits, Common.SIGNED_INT.
  destruct (Ascii.eqb s "+" || Ascii.eqb s "-") eqn:E; intros H.
  - assert (Hs : opt (alt (lit "+") (lit "-")) (s :: d) = Some 1).
    { unfold opt, alt, lit. apply orb_true_iff in E as [-> | E]; [reflexivity|].
      rewrite E. now destruct (Ascii.eqb s "+"). }
    rewrite (seq_Some _ _ _ 1 (List.length d) Hs); [reflexivity|].
    simpl. rewrite <- (app_nil_r d) at 1. now apply INT_all.
  - assert (Hs : opt (alt (lit "+") (lit "-")) (s :: d) = Some 0).
    { unfold opt, alt, lit. apply orb_false_iff in E as [-> ->]. reflexivity. }
    rewrite (seq_Some _ _ _ 0 (List.length (s :: d)) Hs); [reflexivity|].
    simpl skipn. rewrite <- (app_nil_r (s :: d)) at 1.
    now apply INT_all.
Qed.

Lemma EXP_complete (ep : list ascii) :
  exponent ep = true -> ep <> [] -> Common.EXP ep = Some (List.length ep).
Proof.
  destruct ep as [|c r]; [congruence|]. simpl. intros H _.
  apply andb_true_iff in H as [Hc Hr]. apply SIGNED_INT_complete in Hr.
  assert (Hs : alt (lit "e") (lit "E") (c :: r) = Some 1).
  { unfold alt, lit. apply orb_true_iff in Hc as [-> | Hc]; [reflexivity|].
    rewrite Hc. now destruct (Ascii.eqb c "e"). }
  unfold Common.EXP. now rewrite (seq_Some _ _ _ 1 (List.length r) Hs).
Qed.

(** An exponent starts with no digit and with no ".". *)
Lemma exponent_head (ep : list ascii) :
  exponent ep = true ->
  run Common.DIGIT ep = 0 /\ lit "." ep = None /\
  (ep = [] -> Common.EXP ep = None).
Proof.
  destruct ep as [|c r]; [now repeat split|]. simpl. intros H.
  apply andb_true_iff in H as [Hc _].
  assert (Hd : Common.DIGIT c = false /\ Ascii.eqb c "." = false).
  { apply orb_true_iff in Hc as [Hc | Hc]; apply Ascii.eqb_eq in Hc; subst; now split. }
  destruct Hd as [-> ->]. repeat split. discriminate.
Qed.

Lemma opt_EXP_complete (ep : list ascii) :
  exponent ep = true -> opt Common.EXP ep = Some (List.length ep).
Proof.
  intros H. destruct ep as [|c r] eqn:E; [reflexivity|].
  apply opt_Some. apply EXP_complete; [exact H | discriminate].
Qed.

Lemma opt_INT_complete (f ep : list ascii) :
  all_digits f = true -> exponent ep = true ->
  opt Common.INT (f ++ ep) = Some (List.length f).
Proof.
  intros Hf Hep. apply exponent_head in Hep as (Hrun & _).
  destruct f as [|c f].
  - apply opt_None. now apply plus_None.
  - apply opt_Some. now apply INT_all.
Qed.

Lemma DECIMAL_complete (ip f ep : list ascii) :
  all_digits ip = true -> all_digits f = true ->
  existsb Common.DIGIT (ip ++ "."%char :: f) = true ->
  exponent ep = true ->
  Common.DECIMAL (ip ++ "."%char :: f ++ ep) = Some (List.length ip + (1 + List.length f)).
Proof.
  intros Hip Hf Hd Hep. unfold Common.DECIMAL.
  destruct ip as [|c ip].
  - rewrite alt_None by reflexivity.
    simpl in Hd. simpl app.
    apply (seq_Some _ _ _ 1 (List.length f)); [reflexivity|].
    simpl skipn. apply exponent_head in Hep as (Hrun & _).
    apply INT_all; [|exact Hrun].
    destruct f; [discriminate Hd | exact Hf].
  - apply alt_Some. apply seq_Some.
    + apply INT_all; [exact Hip | reflexivity].
    + rewrite skipn_length_app.
      apply (seq_Some _ _ _ 1 (List.length f)); [reflexivity|].
      simpl skipn. now apply opt_INT_complete.
Qed.

Lemma NUMBER_complete (cs : list ascii) :
  number_text cs -> Common.NUMBER cs = Some (List.length cs).
Proof.
  intros (ip & fp & ep & (-> & Hip & Hfp & Hep) & Hd).
  unfold Common.NUMBER, Common.FLOAT.
  destruct fp as [|c f].
  - (* no fractional part: the integer part is not empty *)
    rewrite app_nil_r in Hd. simpl app.
    assert (Hu : unsigned_digits ip = true).
    { destruct ip; [discriminate Hd | exact Hip]. }
    destruct (exponent_head ep Hep) as (Hrun & Hdot & Hnil).
    assert (Hint : Common.INT (ip ++ ep) = Some (List.length ip))
      by now apply INT_all.
    destruct ep as [|e r] eqn:E.
    + rewrite app_nil_r in *.
      rewrite alt_None; [exact Hint|].
      rewrite alt_None.
      * apply seq_None_l. unfold Common.DECIMAL. rewrite alt_None.
        -- apply seq_None_l. destruct ip as [|d ip]; [discriminate Hu|].
           simpl in Hu. apply andb_true_iff in Hu as [Hu _]. simpl.
           destruct (Ascii.eqb d ".") eqn:Ed; [|reflexivity].
           apply Ascii.eqb_eq in Ed. subst. discriminate Hu.
        -- eapply seq_None_r; [exact Hint|]. now rewrite skipn_all.
      * eapply seq_None_r; [exact Hint|]. rewrite skipn_all. now apply Hnil.
    + rewrite <- E in *. apply alt_Some. apply alt_Some.
      rewrite length_app. apply seq_Some; [exact Hint|].
      rewrite skipn_length_app. apply EXP_complete; [exact Hep | subst; discriminate].
  - (* a fractional part *)
    simpl in Hfp. apply andb_true_iff in Hfp as [Hc Hf].
    apply Ascii.eqb_eq in Hc. subst c.
    apply alt_Some.
    change (("."%char :: f) ++ ep) with ("."%char :: f ++ ep).
    pose proof (DECIMAL_complete ip f ep Hip Hf Hd Hep) as Hdec.
    rewrite alt_None.
    + rewrite !length_app. simpl List.length. rewrite length_app.
      replace (List.length ip + S (List.length f + List.length ep))
        with (List.length ip + (1 + List.length f) + List.length ep) by lia.
      apply seq_Some; [exact Hdec|].
      replace (List.length ip + (1 + List.length f))
        with (List.length (ip ++ "."%char :: f))
        by (rewrite length_app; reflexivity).
      replace (ip ++ "."%char :: f ++ ep) with ((ip ++ "."%char :: f) ++ ep)
        by (now rewrite <- app_assoc).
      rewrite skipn_length_app. now apply opt_EXP_complete.
    + destruct ip as [|d ip].
      * now apply seq_None_l.
      * eapply seq_None_r.
        -- apply INT_all; [exact Hip | reflexivity].
        -- now rewrite skipn_length_app.
Qed.

(* ------------------------------------------------------------------ *)
(** ** A token is the piece of the text at its offset *)

Lemma substring_list (s : string) (a n : nat) :
  list_ascii_of_string (substring a n s) = firstn n (skipn a (list_ascii_of_string s)).
Proof.
  revert a n. induction s as [|c s IH]; intros a n.
  - destruct a, n; reflexivity.
  - destruct a as [|a]; simpl.
    + destruct n as [|n]; simpl; [reflexivity|]. f_equal. apply (IH 0 n).
    + apply IH.
Qed.

Lemma next_token_within (w : list ascii) (ts : list Terminal) (ls ls' : LexerState)
  (t : Token) :
  within w ls ->
  next_token ts ls = Tok t ls' ->
  within w ls' /\
  list_ascii_of_string (value t) =
    firstn (String.length (value t)) (skipn (start_pos t) w).
Proof.
  unfold within, next_token. intros Hw.
  set (k := ignored (text ls)).
  destruct (skipn k (text ls)) as [|c cs] eqn:Ecs; [discriminate|].
  destruct (scan ts (c :: cs)) as [[ty n]|] eqn:Es; [|discriminate].
  intros H. injection H as <- <-. cbn [value start_pos text char_pos type_].
  apply scan_inv in Es as [_ Hp]. apply bounded_pattern in Hp.
  assert (Hsk : skipn (char_pos ls + k) w = c :: cs).
  { rewrite <- Ecs, Hw, skipn_skipn. f_equal. lia. }
  split.
  - rewrite <- Hsk, skipn_skipn. f_equal. lia.
  - rewrite list_ascii_of_string_of_list_ascii, Hsk.
    rewrite <- length_list_ascii, list_ascii_of_string_of_list_ascii.
    rewrite firstn_length_le by exact Hp. reflexivity.
Qed.

Lemma tokens_from_within (w : list ascii) (fuel : nat) (ls : LexerState) (t : Token) :
  within w ls ->
  In t (tokens_from fuel ls) ->
  list_ascii_of_string (value t) =
    firstn (String.length (value t)) (skipn (start_pos t) w).
Proof.
  revert ls. induction fuel as [|fuel IH]; intros ls Hw; simpl; [intros []|].
  destruct (next_token terminals ls) as [t0 ls'| |ls'] eqn:E;
    [|intros []|intros []].
  destruct (next_token_within w _ _ _ _ Hw E) as [Hw' Ht0].
  intros [<- | Hin]; [exact Ht0 | exact (IH ls' Hw' Hin)].
Qed.

(** The position of a token of the text is the offset of its piece of the
    text. *)
Lemma tokenize_substring (s : string) (t : Token) :
  In t (tokenize s) ->
  substring (start_pos t) (String.length (value t)) s = value t.
Proof.
  intros Hin. apply (tokens_from_within (list_ascii_of_string s)) in Hin;
    [|reflexivity].
  rewrite <- (string_of_list_ascii_of_string (substring _ _ s)).
  rewrite substring_list, <- Hin. apply string_of_list_ascii_of_string.
Qed.

(* ------------------------------------------------------------------ *)
(** ** What the parser accepts is in the language of the grammar *)

Lemma shift_symbol (s s' : State) (t : Terminal) :
  action s t = Some (Shift s') -> symbol_of s' = Some (T t).
Proof. destruct s, t; simpl; intros H; inversion H; reflexivity. Qed.

Lemma goto_symbol (b s' : State) (n : NonTerminal) :
  goto b n = Some s' -> symbol_of s' = Some (NT n).
Proof. destruct b, n; simpl; intros H; inversion H; reflexivity. Qed.

Ltac spell_here H := first [ reflexivity | below H; spell_here H ].

(** The states a reduction takes off the stack were entered under the
    symbols of the rule. *)
Lemma reduce_symbols (s : State) (below : list State) (t : Terminal) (r : Rule) :
  stack_ok (s :: below) = true ->
  action s t = Some (Reduce r) ->
  rev (map symbol_of (firstn (List.length (expansion r)) (s :: below)))
  = map Some (expansion r).
Proof.
  intros Hok Ha.
  destruct s, t; simpl in Ha; inversion Ha; subst; clear Ha;
    simpl expansion; simpl List.length; spell_here Hok.
Qed.

Lemma yields_split (states : list State) (w : list Terminal) (k : nat) :
  yields states w ->
  k < List.length states ->
  exists w0 ws,
    w = (w0 ++ List.concat ws)%list /\
    yields (skipn k states) w0 /\
    Forall2 (fun o v => exists X, o = Some X /\ derives X v)
      (rev (map symbol_of (firstn k states))) ws.
Proof.
  intros H. revert k. induction H as [|s below X w1 w2 Hy IH Hs Hd]; intros k Hk.
  - destruct k; [|simpl in Hk; lia]. exists [], []. repeat split; constructor.
  - destruct k as [|k].
    + exists (w1 ++ w2)%list, []. simpl. rewrite app_nil_r.
      repeat split; [|constructor]. econstructor; eassumption.
    + simpl in Hk. destruct (IH k) as (w0 & ws & -> & Hy0 & Hf); [lia|].
      exists w0, (ws ++ [w2])%list. simpl. repeat split.
      * rewrite concat_app. simpl. now rewrite app_nil_r, app_assoc.
      * exact Hy0.
      * apply Forall2_app; [exact Hf|]. constructor; [|constructor].
        now exists X.
Qed.

Lemma Forall2_Some (syms : list Symbol) (ws : list (list Terminal)) :
  Forall2 (fun o v => exists X, o = Some X /\ derives X v) (map Some syms) ws ->
  Forall2 derives syms ws.
Proof.
  revert ws. induction syms as [|X syms IH]; intros ws H; inversion H; subst.
  - constructor.
  - constructor; [|now apply IH].
    match goal with H' : exists _, _ |- _ => destruct H' as (Y & HY & HdY) end.
    now inversion HY; subst.
Qed.

Lemma feed_loop_yields (fuel : nat) (st st' : ParserState) (w : list Terminal)
  (token : Token) (is_end : bool) (ret : option Tree) :
  well_formed st ->
  yields (state_stack st) w ->
  feed_loop fuel st token is_end = Some (Return (st', ret)) ->
  if is_end
  then yields (state_stack st') w /\ exists below, state_stack st' = end_state :: below
  else yields (state_stack st') (w ++ [type_ token]).
Proof.
  revert st w. induction fuel as [|fuel IH]; intros st w Hwf Hy; [discriminate|].
  pose proof Hwf as [Hok Hlen].
  simpl. destruct (state_stack st) as [|s below] eqn:Est; [discriminate|].
  destruct (action s (type_ token)) as [[s'|rule]|] eqn:Ea; [| |discriminate].
  - destruct is_end; [discriminate|].
    intros H; injection H as <- <-. cbn [state_stack].
    apply yields_push with (T (type_ token));
      [exact Hy | exact (shift_symbol _ _ _ Ea) | constructor].
  - pose proof (reduce_symbols _ _ _ _ Hok Ea) as Hsym.
    destruct (reduce_step st s below _ rule Hwf Est Ea)
      as (v & b & rest & s' & Hv & Hskip & Hg & Hk & Hwf').
    rewrite Hv, Hskip, Hg.
    destruct (yields_split _ _ _ Hy Hk) as (w0 & ws & -> & Hy0 & Hf).
    rewrite Hsym in Hf. apply Forall2_Some in Hf. rewrite Hskip in Hy0.
    assert (Hy' : yields (s' :: b :: rest) (w0 ++ List.concat ws)).
    { apply yields_push with (NT (origin rule));
        [exact Hy0 | exact (goto_symbol _ _ _ Hg) | now constructor]. }
    destruct (is_end && State_eqb s' end_state) eqn:Ee.
    + intros H; injection H as <- <-. cbn [state_stack].
      apply andb_true_iff in Ee as [-> Ee]. split; [exact Hy'|].
      exists (b :: rest). destruct s'; try discriminate Ee. reflexivity.
    + intros H. exact (IH _ _ Hwf' Hy' H).
Qed.

Lemma yields_end (below : list State) (w : list Terminal) :
  stack_ok (end_state :: below) = true ->
  yields (end_state :: below) w ->
  derives (NT start) w.
Proof.
  intros Hok Hy. inversion Hy as [|s b X w1 w2 Hb Hs Hd]; subst.
  simpl in Hs. injection Hs as <-.
  below Hok. destruct l as [|b' l];
    [|rewrite stack_ok_cons in Hok; apply andb_true_iff in Hok as [He _];
      destruct b'; vm_compute in He; discriminate He].
  inversion Hb as [|s b X w3 w4 Hb' Hs' Hd']; subst; [exact Hd | discriminate Hs'].
Qed.

Lemma run_tokens_yields (toks : list Token) (st : ParserState) (token : option Token)
  (stop : Lexed) (w : list Terminal) (v : option Tree) :
  well_formed st ->
  yields (state_stack st) w ->
  run_tokens st token toks stop = Some (Return v) ->
  derives (NT start) (w ++ map type_ toks).
Proof.
  revert st token w. induction toks as [|t toks IH]; intros st token w Hwf Hy;
    cbn [run_tokens];
    destruct (state_stack st) as [|position below] eqn:Est; try discriminate.
  - destruct stop as [t1 ls1| |ls1]; try discriminate.
    destruct (feed_token st _ true) as [[[st' v']|e]|] eqn:Ef; try discriminate.
    intros _. pose proof Ef as Ef'.
    apply (feed_loop_yields _ _ _ w) in Ef as [Hy' [b Hb]];
      [|exact Hwf|now rewrite Est].
    apply feed_token_ok in Ef';
      [|exact Hwf|intros _; destruct token; reflexivity].
    destruct Ef' as [Hok' _]. rewrite Hb in *. rewrite app_nil_r.
    now apply yields_end with b.
  - destruct (has_action position (type_ t)); [|discriminate].
    destruct (feed_token st t false) as [[[st' v']|e]|] eqn:Ef; try discriminate.
    intros H. pose proof Ef as Ef'.
    apply (feed_loop_yields _ _ _ w) in Ef; [|exact Hwf|now rewrite Est].
    apply feed_token_ok in Ef'; [|exact Hwf|discriminate].
    apply (IH _ _ _ Ef' Ef) in H. now rewrite <- app_assoc in H.
Qed.

(** Soundness: the tokens of a text that the parser accepts are derived
    from the start symbol of the grammar. *)
Theorem parse_sound (s : string) (v : option Tree) :
  parse s = Some (Return v) -> derives (NT start) (map type_ (tokenize s)).
Proof.
  destruct (parse_run_tokens s) as [stop ->]. intros H.
  apply (run_tokens_yields _ _ _ _ []) in H; [exact H | exact well_formed_start|].
  constructor.
Qed.

(* ------------------------------------------------------------------ *)
(** ** The language of the grammar is accepted *)

Lemma reduce_lighter (s : State) (below rest : list State) (b s' : State)
  (t : Terminal) (rule : Rule) :
  action s t = Some (Reduce rule) ->
  skipn (List.length (expansion rule)) (s :: below) = b :: rest ->
  goto b (origin rule) = Some s' ->
  list_sum (map weight (s' :: b :: rest)) < list_sum (map weight (s :: below)).
Proof.
  intros Ea Eskip Eg.
  apply reduce_weight in Ea as [Hk Hw]. apply goto_weight in Eg.
  pose proof (weight_skipn _ _ _ Hk Eskip) as Hs. simpl in Hs.
  assert (H : b :: rest <> []) by discriminate.
  specialize (Hs H). simpl in *. lia.
Qed.

(** More fuel than the weight of the stack changes nothing. *)
Lemma feed_loop_fuel (f1 f2 : nat) (st : ParserState) (token : Token) (is_end : bool) :
  list_sum (map weight (state_stack st)) < f1 ->
  list_sum (map weight (state_stack st)) < f2 ->
  feed_loop f1 st token is_end = feed_loop f2 st token is_end.
Proof.
  revert f2 st. induction f1 as [|f1 IH]; intros f2 st H1 H2; [lia|].
  destruct f2 as [|f2]; [lia|].
  simpl. destruct (state_stack st) as [|s below] eqn:Est; [reflexivity|].
  destruct (action s (type_ token)) as [[s'|rule]|] eqn:Ea; try reflexivity.
  destruct (callback rule _) as [v|]; [|reflexivity].
  destruct (skipn _ (s :: below)) as [|b rest] eqn:Eskip; [reflexivity|].
  destruct (goto b (origin rule)) as [s'|] eqn:Eg; [|reflexivity].
  destruct (is_end && State_eqb s' end_state); [reflexivity|].
  pose proof (reduce_lighter _ _ _ _ _ _ _ Ea Eskip Eg) as Hlt.
  apply IH; cbn [state_stack]; lia.
Qed.

Lemma feed_token_shift (st : ParserState) (p q : State) (below : list State) (a : Token) :
  state_stack st = p :: below ->
  action p (type_ a) = Some (Shift q) ->
  feed_token st a false = Some (Return (push q (Leaf a) st, None)).
Proof.
  intros Est Ea. unfold feed_token, budget, push. simpl.
  now rewrite Est, Ea.
Qed.

(** A reduction, then the same token again. *)
Lemma feed_token_reduce (rule : Rule) (st st' : ParserState) (s b s' : State)
  (below rest : list State) (a : Token) (is_end : bool) (v : Tree) :
  state_stack st = s :: below ->
  action s (type_ a) = Some (Reduce rule) ->
  callback rule (rev (firstn (List.length (expansion rule)) (value_stack st))) = Some v ->
  skipn (List.length (expansion rule)) (s :: below) = b :: rest ->
  goto b (origin rule) = Some s' ->
  State_eqb s' end_state = false ->
  st' = {| state_stack := s' :: b :: rest;
           value_stack := v :: skipn (List.length (expansion rule)) (value_stack st) |} ->
  feed_token st a is_end = feed_token st' a is_end.
Proof.
  intros Est Ea Hv Hskip Hg He ->. unfold feed_token at 1. unfold budget.
  simpl. rewrite Est, Ea, Hv, Hskip, Hg, He, andb_false_r.
  pose proof (reduce_lighter _ _ _ _ _ _ _ Ea Hskip Hg) as Hlt.
  apply feed_loop_fuel; unfold budget; cbn [state_stack]; lia.
Qed.

Lemma derives_induction (P : Symbol -> list Terminal -> Prop) :
  (forall t, P (T t) [t]) ->
  (forall r ws, Forall2 derives (expansion r) ws -> Forall2 P (expansion r) ws ->
                P (NT (origin r)) (List.concat ws)) ->
  forall X w, derives X w -> P X w.
Proof.
  intros HT HNT.
  refine (fix F X w (d : derives X w) {struct d} : P X w :=
            match d with
            | derives_T t => HT t
            | derives_NT r ws Hf =>
                HNT r ws Hf
                  ((fix G syms ws (Hf : Forall2 derives syms ws) {struct Hf}
                     : Forall2 P syms ws :=
                      match Hf with
                      | Forall2_nil _ => Forall2_nil _
                      | Forall2_cons x y hd tl =>
                          Forall2_cons _ _ (F _ _ hd) (G _ _ tl)
                      end) _ _ Hf)
            end).
Qed.

Lemma feed_all_app (st : ParserState) (l1 l2 : list Token) :
  feed_all st (l1 ++ l2) =
  match feed_all st l1 with
  | Some st1 => feed_all st1 l2
  | None => None
  end.
Proof.
  revert st. induction l1 as [|t l1 IH]; intros st; simpl; [reflexivity|].
  destruct (feed_token st t false) as [[[st' v]|e]|]; auto.
Qed.

Lemma reads_T (t : Terminal) : reads (T t) [t].
Proof.
  intros toks st p q below Htoks Est Hq.
  destruct toks as [|tok [|tok' toks]]; try discriminate. injection Htoks as Ht.
  simpl in Hq. destruct (action p t) as [[q'|r]|] eqn:Ea; try discriminate.
  injection Hq as ->. rewrite <- Ht in Ea.
  exists (push q (Leaf tok) st), (Leaf tok). split; [|reflexivity].
  simpl. now rewrite (feed_token_shift _ _ _ _ _ Est Ea).
Qed.

Lemma map_type_split (toks : list Token) (w1 w2 : list Terminal) :
  map type_ toks = (w1 ++ w2)%list ->
  exists l1 l2, toks = (l1 ++ l2)%list /\ map type_ l1 = w1 /\ map type_ l2 = w2.
Proof. intros H. apply map_eq_app in H as (l1 & l2 & -> & H1 & H2). now exists l1, l2. Qed.

(** A rule with an operator between two operands: [sop] is the state after
    the operator and [sres] the state after the second operand. *)
Ltac read_binary IH1 IH3 sop sres rule data :=
  let toks := fresh "toks" in
  let st := fresh "st" in
  let p := fresh "p" in
  let q := fresh "q" in
  let below := fresh "below" in
  let Htoks := fresh "Htoks" in
  let Est := fresh "Est" in
  let Hq := fresh "Hq" in
  let toks1 := fresh "toks1" in
  let toks' := fresh "toks'" in
  let tok2 := fresh "tok2" in
  let toks3 := fresh "toks3" in
  let H1 := fresh "H1" in
  let H' := fresh "H'" in
  let H2 := fresh "H2" in
  let H3 := fresh "H3" in
  let ss := fresh "ss" in
  let vs := fresh "vs" in
  let st1 := fresh "st1" in
  let v1 := fresh "v1" in
  let Hf1 := fresh "Hf1" in
  let Heq1 := fresh "Heq1" in
  let st3 := fresh "st3" in
  let v3 := fresh "v3" in
  let Hf3 := fresh "Hf3" in
  let Heq3 := fresh "Heq3" in
  let a := fresh "a" in
  let is_end := fresh "is_end" in
  let Ha := fresh "Ha" in
  intros toks st p q below Htoks Est Hq;
  apply map_type_split in Htoks as (toks1 & toks' & -> & H1 & H');
  destruct toks' as [|tok2 toks3]; [discriminate|]; injection H' as H2 H3;
  destruct st as [ss vs]; simpl in Est; subst ss;
  destruct (IH1 toks1 {| state_stack := p :: below; value_stack := vs |}
              p q below H1 eq_refl Hq) as (st1 & v1 & Hf1 & Heq1);
  simpl in Hq; destruct p; try discriminate Hq; injection Hq as <-;
  (match type of Heq1 with
   | context [push ?q' ?v {| state_stack := ?p' :: ?b; value_stack := ?l |}] =>
       destruct (IH3 toks3
                   (push sop (Leaf tok2)
                      (push q' v {| state_stack := p' :: b; value_stack := l |}))
                   sop sres (q' :: p' :: b) H3 eq_refl eq_refl)
         as (st3 & v3 & Hf3 & Heq3)
   end);
  (exists st3, (Node data [v1; v3]); split;
   [ rewrite feed_all_app, Hf1; cbn [feed_all];
     rewrite Heq1 by (rewrite H2; reflexivity);
     erewrite feed_token_shift by (try reflexivity; rewrite H2; reflexivity);
     exact Hf3
   | intros a is_end Ha;
     rewrite Heq3 by (destruct (type_ a); try discriminate Ha; reflexivity);
     eapply (feed_token_reduce rule); try reflexivity;
     destruct (type_ a); try discriminate Ha; reflexivity ]).

Lemma reads_add (w1 w3 : list Terminal) :
  reads (NT expr) w1 -> reads (NT term) w3 -> reads (NT expr) (w1 ++ PLUS :: w3).
Proof. intros IH1 IH3. read_binary IH1 IH3 s_plus s_add expr_add "add"%string. Qed.

Lemma reads_sub (w1 w3 : list Terminal) :
  reads (NT expr) w1 -> reads (NT term) w3 -> reads (NT expr) (w1 ++ MINUS :: w3).
Proof. intros IH1 IH3. read_binary IH1 IH3 s_minus s_sub expr_sub "sub"%string. Qed.

Lemma reads_mul (w1 w3 : list Terminal) :
  reads (NT term) w1 -> reads (NT factor) w3 -> reads (NT term) (w1 ++ STAR :: w3).
Proof. intros IH1 IH3. read_binary IH1 IH3 s_star s_mul term_mul "mul"%string. Qed.

Lemma reads_div (w1 w3 : list Terminal) :
  reads (NT term) w1 -> reads (NT factor) w3 -> reads (NT term) (w1 ++ SLASH :: w3).
Proof. intros IH1 IH3. read_binary IH1 IH3 s_slash s_div term_div "div"%string. Qed.

(** A rule with one nonterminal: [s1] is the state after it. *)
Ltac read_unit IH s1 rule :=
  let toks := fresh "toks" in
  let st := fresh "st" in
  let p := fresh "p" in
  let q := fresh "q" in
  let below := fresh "below" in
  let Htoks := fresh "Htoks" in
  let Est := fresh "Est" in
  let Hq := fresh "Hq" in
  let ss := fresh "ss" in
  let vs := fresh "vs" in
  let st1 := fresh "st1" in
  let v1 := fresh "v1" in
  let Hf1 := fresh "Hf1" in
  let Heq1 := fresh "Heq1" in
  let a := fresh "a" in
  let is_end := fresh "is_end" in
  let Ha := fresh "Ha" in
  intros toks st p q below Htoks Est Hq;
  destruct st as [ss vs]; simpl in Est; subst ss;
  simpl in Hq; destruct p; try discriminate Hq; injection Hq as <-;
  match goal with
  | |- context [feed_all {| state_stack := ?p' :: ?b; value_stack := ?l |} _] =>
      destruct (IH toks {| state_stack := p' :: b; value_stack := l |}
                  p' s1 b Htoks eq_refl eq_refl) as (st1 & v1 & Hf1 & Heq1)
  end;
  (exists st1, v1; split;
   [ exact Hf1
   | intros a is_end Ha;
     rewrite Heq1 by (destruct (type_ a); try discriminate Ha; reflexivity);
     eapply (feed_token_reduce rule); try reflexivity;
     destruct (type_ a); try discriminate Ha; reflexivity ]).

Lemma reads_expr_term (w : list Terminal) : reads (NT term) w -> reads (NT expr) w.
Proof. intros IH. read_unit IH s_term expr_term. Qed.

Lemma reads_term_factor (w : list Terminal) : reads (NT factor) w -> reads (NT term) w.
Proof. intros IH. read_unit IH s_factor term_factor. Qed.

Lemma reads_start (w : list Terminal) : reads (NT expr) w -> reads (NT start) w.
Proof.
  intros IH toks st p q below Htoks Est Hq.
  simpl in Hq. destruct p; try discriminate Hq.
  destruct (IH toks st s_init s_expr below Htoks Est eq_refl) as (st1 & v1 & Hf1 & _).
  exists st1, v1. split; [exact Hf1 | discriminate].
Qed.

Lemma reads_neg (w : list Terminal) :
  reads (NT factor) w -> reads (NT factor) (MINUS :: w).
Proof.
  intros IH toks st p q below Htoks Est Hq.
  destruct toks as [|tok1 toks2]; [discriminate|]. injection Htoks as H1 H2.
  destruct st as [ss vs]. simpl in Est. subst ss.
  simpl in Hq. destruct p; try discriminate Hq; injection Hq as <-.
  all: match goal with
       | |- context [feed_all {| state_stack := ?p' :: ?b; value_stack := ?l |} _] =>
           destruct (IH toks2
                       (push s_neg (Leaf tok1)
                          {| state_stack := p' :: b; value_stack := l |})
                       s_neg s_negated (p' :: b) H2 eq_refl eq_refl)
             as (st2 & v2 & Hf2 & Heq2)
       end.
  all: exists st2, (Node "neg" [v2]); split;
    [ cbn [feed_all];
      erewrite feed_token_shift by (try reflexivity; rewrite H1; reflexivity);
      exact Hf2
    | intros a is_end Ha; rewrite Heq2 by exact Ha;
      eapply (feed_token_reduce factor_neg); try reflexivity;
      destruct (type_ a); try discriminate Ha; reflexivity ].
Qed.

Lemma reads_number : reads (NT factor) [NUMBER].
Proof.
  intros toks st p q below Htoks Est Hq.
  destruct toks as [|tok [|tok' toks]]; try discriminate. injection Htoks as H1.
  destruct st as [ss vs]. simpl in Est. subst ss.
  simpl in Hq. destruct p; try discriminate Hq; injection Hq as <-.
  all: eexists _, (Node "number" [Leaf tok]); split;
    [ cbn [feed_all];
      erewrite feed_token_shift by (try reflexivity; rewrite H1; reflexivity);
      reflexivity
    | intros a is_end Ha;
      eapply (feed_token_reduce factor_number); try reflexivity;
      destruct (type_ a); try discriminate Ha; reflexivity ].
Qed.

Lemma reads_paren (w : list Terminal) :
  reads (NT expr) w -> reads (NT factor) (LPAR :: w ++ [RPAR]).
Proof.
  intros IH toks st p q below Htoks Est Hq.
  destruct toks as [|tok1 toks']; [discriminate|]. injection Htoks as H1 H'.
  apply map_type_split in H' as (toks2 & toks3 & -> & H2 & H3).
  destruct toks3 as [|tok3 [|tok' toks3]]; try discriminate. injection H3 as H3.
  destruct st as [ss vs]. simpl in Est. subst ss.
  simpl in Hq. destruct p; try discriminate Hq; injection Hq as <-.
  all: match goal with
       | |- context [feed_all {| state_stack := ?p' :: ?b; value_stack := ?l |} _] =>
           destruct (IH toks2
                       (push s_lpar (Leaf tok1)
                          {| state_stack := p' :: b; value_stack := l |})
                       s_lpar s_inner (p' :: b) H2 eq_refl eq_refl)
             as (st2 & v2 & Hf2 & Heq2)
       end.
  all: eexists _, v2; split;
    [ cbn [feed_all];
      erewrite feed_token_shift by (try reflexivity; rewrite H1; reflexivity);
      rewrite feed_all_app, Hf2; cbn [feed_all];
      rewrite Heq2 by (rewrite H3; reflexivity);
      erewrite feed_token_shift by (try reflexivity; rewrite H3; reflexivity);
      reflexivity
    | intros a is_end Ha;
      eapply (feed_token_reduce factor_paren); try reflexivity;
      destruct (type_ a); try discriminate Ha; reflexivity ].
Qed.

Lemma GRAMMAR_rules (r : Rule) : In r GRAMMAR.
Proof. destruct r; simpl; tauto. Qed.

Lemma derives_T_inv (t : Terminal) (w : list Terminal) : derives (T t) w -> w = [t].
Proof. intros H; inversion H; reflexivity. Qed.

(** The parser reads every derivation of the grammar. *)
Lemma derives_reads (X : Symbol) (w : list Terminal) : derives X w -> reads X w.
Proof.
  intros H. induction H as [t | r ws Hd HP] using derives_induction.
  - apply reads_T.
  - destruct r; simpl in *;
      repeat match goal with
             | H : Forall2 _ (_ :: _) _ |- _ => inversion H; subst; clear H
             | H : Forall2 _ [] _ |- _ => inversion H; subst; clear H
             | H : derives (T _) _ |- _ => apply derives_T_inv in H; subst
             end;
      simpl; rewrite ?app_nil_r.
    + now apply reads_start.
    + now apply reads_add.
    + now apply reads_sub.
    + now apply reads_expr_term.
    + now apply reads_mul.
    + now apply reads_div.
    + now apply reads_term_factor.
    + now apply reads_neg.
    + apply reads_number.
    + now apply reads_paren.
Qed.

Lemma derives_start_inv (w : list Terminal) :
  derives (NT start) w -> derives (NT expr) w.
Proof.
  intros H. inversion H as [|r ws Hf Hr Hw]; subst.
  destruct r; try discriminate Hr. simpl in Hf.
  inversion Hf as [|x y l l' Hx Hl]; subst. inversion Hl; subst.
  simpl. now rewrite app_nil_r.
Qed.

Lemma feed_token_Return_top (st st' : ParserState) (t : Token) (is_end : bool)
  (ret : option Tree) :
  feed_token st t is_end = Some (Return (st', ret)) ->
  exists position below,
    state_stack st = position :: below /\ has_action position (type_ t) = true.
Proof.
  unfold feed_token, budget, has_action. simpl.
  destruct (state_stack st) as [|s below]; [discriminate|].
  destruct (action s (type_ t)) eqn:Ea; [|discriminate]. intros _.
  exists s, below. now rewrite Ea.
Qed.

Lemma run_tokens_feed_all (toks : list Token) (st st_w : ParserState)
  (token : option Token) (stop : Lexed) :
  feed_all st toks = Some st_w ->
  exists token', run_tokens st token toks stop = run_tokens st_w token' [] stop.
Proof.
  revert st token. induction toks as [|t toks IH]; intros st token H.
  - injection H as ->. now exists token.
  - simpl in H.
    destruct (feed_token st t false) as [[[st' v]|e]|] eqn:Ef; try discriminate.
    destruct (feed_token_Return_top _ _ _ _ _ Ef) as (position & below & Est & Ha).
    destruct (IH st' (Some t) H) as [token' IH'].
    exists token'. cbn [run_tokens]. now rewrite Est, Ha, Ef.
Qed.

(** Completeness on tokens: a sentence of the grammar is accepted. *)
Lemma tokens_accepted (toks : list Token) :
  derives (NT start) (map type_ toks) ->
  exists v,
    run_tokens {| state_stack := [start_state]; value_stack := [] |} None toks EOF
    = Some (Return (Some v)).
Proof.
  intros H. apply derives_start_inv, derives_reads in H.
  destruct (H toks {| state_stack := [start_state]; value_stack := [] |}
              s_init s_expr [] eq_refl eq_refl eq_refl) as (st_w & v & Hf & Heq).
  destruct (run_tokens_feed_all _ _ _ None EOF Hf) as [token' ->].
  exists v. cbn [run_tokens].
  match goal with |- context [feed_token st_w ?tk true] => set (end_token := tk) end.
  assert (He : feed_token st_w end_token true
               = Some (Return (push s_end v {| state_stack := [start_state];
                                               value_stack := [] |}, Some v))).
  { rewrite Heq by (subst end_token; destruct token'; reflexivity).
    subst end_token. destruct token'; reflexivity. }
  destruct (feed_token_Return_top _ _ _ _ _ He) as (position & below & -> & _).
  now rewrite He.
Qed.

Lemma run_tokens_Return_stop (toks : list Token) (st : ParserState)
  (token : option Token) (stop : Lexed) (v : option Tree) :
  run_tokens st token toks stop = Some (Return v) -> stop = EOF.
Proof.
  revert st token. induction toks as [|t toks IH]; intros st token;
    cbn [run_tokens]; destruct (state_stack st) as [|position below]; try discriminate.
  - destruct stop; try discriminate. reflexivity.
  - destruct (has_action position (type_ t)); [|discriminate].
    destruct (feed_token st t false) as [[[st' v']|e]|]; try discriminate.
    apply IH.
Qed.

Lemma parse_as_run_tokens (s : string) :
  parse s =
  run_tokens {| state_stack := [start_state]; value_stack := [] |} None (tokenize s)
    (next_token terminals
       (stop_from (S (List.length (list_ascii_of_string s)))
          {| text := list_ascii_of_string s; char_pos := 0 |})).
Proof. unfold parse, tokenize. apply parse_loop_run_tokens. simpl. lia. Qed.

(** The parser accepts exactly the texts that the lexer reads to their end
    and whose tokens are a sentence of the grammar. *)
Theorem parse_accepts (s : string) :
  (exists v, parse s = Some (Return v)) <->
  lexed_whole s /\ derives (NT start) (map type_ (tokenize s)).
Proof.
  split.
  - intros [v H]. split; [|now apply parse_sound with v].
    rewrite parse_as_run_tokens in H. now apply run_tokens_Return_stop in H.
  - intros [Hl Hd]. rewrite parse_as_run_tokens. unfold lexed_whole in Hl.
    rewrite Hl. destruct (tokens_accepted _ Hd) as [v Hv]. now exists (Some v).
Qed.

(* ================================================================== *)
(** * The validator *)

Local Open Scope string_scope.

Lemma validate_return (exc_str : PyException -> string) (expr : string) (v : option Tree) :
  parse expr = Some (Return v) ->
  validate_expression exc_str expr = Some (true, None).
Proof. unfold validate_expression. now intros ->. Qed.

Lemma validate_raise (exc_str : PyException -> string) (expr : string) (e : PyException) :
  parse expr = Some (Raise e) ->
  validate_expression exc_str expr = Some (false, Some (error_message exc_str e)).
Proof. unfold validate_expression. now intros ->. Qed.

Lemma validate_true_inv (exc_str : PyException -> string) (expr : string) (error : option string) :
  validate_expression exc_str expr = Some (true, error) ->
  exists v, parse expr = Some (Return v).
Proof.
  unfold validate_expression.
  destruct (parse expr) as [[v|e]|]; try discriminate. now exists v.
Qed.

Lemma validate_false_inv (exc_str : PyException -> string) (expr : string) (error : option string) :
  validate_expression exc_str expr = Some (false, error) ->
  exists e, parse expr = Some (Raise e) /\ error = Some (error_message exc_str e).
Proof.
  unfold validate_expression.
  destruct (parse expr) as [[v|e]|]; try discriminate.
  intros H; inversion H. now exists e.
Qed.

(** The parser raises nothing but its two exceptions. *)
Lemma parse_raise_kind (s : string) (e : PyException) :
  parse s = Some (Raise e) ->
  (exists token expected, e = UnexpectedToken token expected) \/
  (exists lex_pos char allowed, e = UnexpectedCharacters lex_pos char allowed).
Proof.
  intros H. apply parse_raise in H as (p & Hp & _).
  destruct e; try discriminate Hp; [left | right]; repeat eexists.
Qed.

(* ------------------------------------------------------------------ *)
(** ** Numbers *)

Lemma NUMBER_no_blank (c : ascii) :
  starts NUMBER c = true -> Common.WS_INLINE_char c = false.
Proof.
  simpl. unfold Common.WS_INLINE_char. intros H.
  destruct (Ascii.eqb c " ") eqn:E1; [apply Ascii.eqb_eq in E1; subst; discriminate H|].
  destruct (Ascii.eqb c "009") eqn:E2; [apply Ascii.eqb_eq in E2; subst; discriminate H|].
  reflexivity.
Qed.

Lemma next_token_number (s : string) (pos : nat) :
  number_text (list_ascii_of_string s) ->
  next_token (lexer_terminals start_state)
    {| text := list_ascii_of_string s; char_pos := pos |}
  = Tok (mkToken NUMBER s pos) {| text := []; char_pos := pos + String.length s |}.
Proof.
  intros H. apply NUMBER_complete in H.
  unfold next_token. cbn [text char_pos].
  destruct (list_ascii_of_string s) as [|c cs] eqn:E.
  - apply positive_NUMBER in H. simpl in H. lia.
  - apply NUMBER_starts in H as Hc. apply NUMBER_no_blank in Hc.
    rewrite ignored_run. cbn [run]. rewrite Hc. cbn [skipn].
    change (lexer_terminals start_state) with [NUMBER; MINUS; LPAR].
    cbn [scan pattern]. rewrite H.
    rewrite firstn_all, skipn_all, <- E, string_of_list_ascii_of_string.
    rewrite length_list_ascii, Nat.add_0_r. reflexivity.
Qed.

Lemma parse_number (s : string) :
  number_text (list_ascii_of_string s) ->
  parse s = Some (Return (Some (Node "number" [Leaf (mkToken NUMBER s 0)]))).
Proof.
  intros H. pose proof (next_token_number s 0 H) as Hn.
  unfold parse.
  destruct (list_ascii_of_string s) as [|c cs] eqn:E.
  - apply NUMBER_complete in H. apply positive_NUMBER in H. simpl in H. lia.
  - cbn [List.length parse_loop]. unfold lex at 1. cbn [state_stack].
    rewrite Hn. reflexivity.
Qed.

Lemma token_number_text (ts : list Terminal) (ls ls' : LexerState) (t : Token) :
  next_token ts ls = Tok t ls' -> type_ t = NUMBER ->
  number_text (list_ascii_of_string (value t)).
Proof.
  unfold next_token.
  destruct (skipn _ (text ls)) as [|c cs]; [discriminate|].
  destruct (scan ts (c :: cs)) as [[ty n]|] eqn:Es; [|discriminate].
  intros H. injection H as <- <-. cbn [type_ value]. intros ->.
  apply scan_inv in Es as [_ Hp].
  rewrite list_ascii_of_string_of_list_ascii. now apply NUMBER_sound.
Qed.

Lemma number_text_shape (cs : list ascii) : number_text cs -> number_shape cs.
Proof.
  intros (ip & fp & ep & Hparts & Hd). exists ip, fp, ep. split; [exact Hparts|].
  destruct Hparts as (-> & _). rewrite app_assoc, existsb_app, Hd. reflexivity.
Qed.

(** The texts of the NUMBER tokens are exactly the strings of this shape
    with a digit in the integer part or in the fractional part. *)
Theorem NUMBER_token_texts (s : string) :
  (exists ts ls t ls',
      next_token ts ls = Tok t ls' /\ type_ t = NUMBER /\ value t = s)
  <-> number_text (list_ascii_of_string s).
Proof.
  split.
  - intros (ts & ls & t & ls' & Hn & Hty & <-). now apply token_number_text with ts ls ls'.
  - intros H. eexists _, _, _, _. split; [exact (next_token_number s 0 H)|].
    split; reflexivity.
Qed.

(** An exponent alone is no number, whatever its digits. *)
Lemma exponent_alone :
  number_shape (list_ascii_of_string "e5")
  /\ ~ number_text (list_ascii_of_string "e5")
  /\ parse "e5" = Some (Raise (UnexpectedCharacters 0 "e" [NUMBER; MINUS; LPAR])).
Proof.
  split; [|split].
  - exists [], [], (list_ascii_of_string "e5"). repeat split; reflexivity.
  - intros H. apply NUMBER_complete in H. discriminate H.
  - reflexivity.
Qed.

(* ------------------------------------------------------------------ *)
(** ** The specification of the validator *)

(** C1: the strings "1+2*3", "(4 - 5) * (6 + 7)", "42" and "-(3+2)*4" are
    valid: blanks are skipped, a unary minus may stand before a group in
    parentheses, and the tokens of each string are a sentence of the
    grammar. *)
Theorem C1_examples_valid (exc_str : PyException -> string) :
  (validate_expression exc_str "1+2*3" = Some (true, None) /\
   validate_expression exc_str "(4 - 5) * (6 + 7)" = Some (true, None) /\
   validate_expression exc_str "42" = Some (true, None) /\
   validate_expression exc_str "-(3+2)*4" = Some (true, None)) /\
  (derives (NT start) (map type_ (tokenize "1+2*3")) /\
   derives (NT start) (map type_ (tokenize "(4 - 5) * (6 + 7)")) /\
   derives (NT start) (map type_ (tokenize "42")) /\
   derives (NT start) (map type_ (tokenize "-(3+2)*4"))).
Proof.
  split; [repeat split; reflexivity|].
  repeat split;
    match goal with
    | |- derives _ (map type_ (tokenize ?s)) =>
        apply (proj1 (parse_accepts s)); eexists; vm_compute; reflexivity
    end.
Qed.

(** C2: binary operators associate to the left, and "*" and "/" bind
    tighter than "+" and "-": the tree of "8-3-2" is (8-3)-2, of value 3 and
    not 7; "1+2*3" is valid and its tree is 1+(2*3), of value 7 and not 9. *)
Theorem C2_associativity_and_precedence :
  let num v p := Node "number" [Leaf (mkToken NUMBER v p)] in
  parse "8-3-2"
    = Some (Return (Some (Node "sub" [Node "sub" [num "8" 0; num "3" 2]; num "2" 4])))
  /\ eval (Node "sub" [Node "sub" [num "8" 0; num "3" 2]; num "2" 4]) = Some 3%Q
  /\ eval (Node "sub" [num "8" 0; Node "sub" [num "3" 2; num "2" 4]]) = Some 7%Q
  /\ parse "1+2*3"
    = Some (Return (Some (Node "add" [num "1" 0; Node "mul" [num "2" 2; num "3" 4]])))
  /\ eval (Node "add" [num "1" 0; Node "mul" [num "2" 2; num "3" 4]]) = Some 7%Q
  /\ eval (Node "mul" [Node "add" [num "1" 0; num "2" 2]; num "3" 4]) = Some 9%Q
  /\ (forall exc_str, validate_expression exc_str "1+2*3" = Some (true, None)).
Proof. repeat split; reflexivity. Qed.

(** C3: the validator raises nothing.  On every string it returns, and a
    failure of the lexer (an unexpected character) and a failure of the
    parser (an unexpected token) come back in the same shape, the flag
    [False] with a message. *)
Theorem C3_failures_are_returned (exc_str : PyException -> string) (expr : string) :
  (exists v, parse expr = Some (Return v) /\
             validate_expression exc_str expr = Some (true, None)) \/
  (exists e, parse expr = Some (Raise e) /\
             validate_expression exc_str expr = Some (false, Some (error_message exc_str e)) /\
             ((exists token expected, e = UnexpectedToken token expected) \/
              (exists lex_pos char allowed, e = UnexpectedCharacters lex_pos char allowed))).
Proof.
  destruct (parse_terminates expr) as [[v|e] H].
  - left. exists v. split; [exact H | now apply validate_return with v].
  - right. exists e. repeat split;
      [exact H | now apply validate_raise | now apply parse_raise_kind with expr].
Qed.

(** C4: for "3 + * 4" the validator reports offset 4, the offset of the
    "*", and names that token as unexpected where a number, a "-" or a "("
    was expected. *)
Theorem C4_missing_operand (exc_str : PyException -> string) :
  validate_expression exc_str "3 + * 4"
    = Some (false,
            Some ("Unexpected token at position 4: "
                  ++ exc_str (UnexpectedToken (mkToken STAR "*" 4) [NUMBER; MINUS; LPAR])))
  /\ substring 4 1 "3 + * 4" = "*".
Proof. split; reflexivity. Qed.

(** C5, as amended: for "(1+2" the validator reports offset 3.  The
    end-of-input token takes the position of the last token read, the "2",
    so the offset is not the length of the input, 4; a ")" is among the
    expected tokens. *)
Theorem C5_unmatched_parenthesis (exc_str : PyException -> string) :
  validate_expression exc_str "(1+2"
    = Some (false,
            Some ("Unexpected token at position 3: "
                  ++ exc_str (UnexpectedToken (mkToken END "" 3) [PLUS; MINUS; RPAR])))
  /\ In RPAR [PLUS; MINUS; RPAR]
  /\ last (tokenize "(1+2") (mkToken END "" 0) = mkToken NUMBER "2" 3
  /\ String.length "(1+2" = 4.
Proof. repeat split; try reflexivity. simpl; auto. Qed.

(** C5, as stated, fails: the offset reported for "(1+2" is not the length
    of the input. *)
Lemma C5_counterexample :
  validate_expression (fun _ => "") "(1+2"
    = Some (false, Some "Unexpected token at position 3: ")
  /\ ~ (exists e, parse "(1+2" = Some (Raise e) /\
                  pos_in_stream e = Some (String.length "(1+2")).
Proof.
  split; [reflexivity|].
  intros (e & He & Hp). vm_compute in He. injection He as <-. discriminate Hp.
Qed.

(** C6: for the empty string the validator reports offset 0, and the
    expected tokens are a number, a "-" and a "(". *)
Theorem C6_empty_input (exc_str : PyException -> string) :
  validate_expression exc_str ""
    = Some (false,
            Some ("Unexpected token at position 0: "
                  ++ exc_str (UnexpectedToken (mkToken END "" 0) [NUMBER; MINUS; LPAR]))).
Proof. reflexivity. Qed.

(** C7: whenever the validator reports an error, the position in its
    message is an offset between 0 and the length of the input. *)
Theorem C7_position_in_range (exc_str : PyException -> string) (expr message : string) :
  validate_expression exc_str expr = Some (false, Some message) ->
  exists e p,
    parse expr = Some (Raise e) /\
    pos_in_stream e = Some p /\
    0 <= p <= String.length expr /\
    (message = "Unexpected token at position " ++ str_int p ++ ": " ++ exc_str e \/
     message = "Invalid input at position " ++ str_int p ++ ": " ++ exc_str e).
Proof.
  intros H. apply validate_false_inv in H as (e & He & Hm).
  injection Hm as ->.
  destruct (parse_raise _ _ He) as (p & Hp & Hle).
  exists e, p. repeat split; auto; [lia|].
  destruct e; try discriminate Hp; simpl in *; injection Hp as ->; auto.
Qed.

Lemma C7_position_in_range_witness :
  validate_expression (fun _ => "") "42 $" = Some (false, Some "Invalid input at position 3: ")
  /\ exists e p,
       parse "42 $" = Some (Raise e) /\
       pos_in_stream e = Some p /\
       0 <= p <= String.length "42 $" /\
       ("Invalid input at position 3: " = "Unexpected token at position " ++ str_int p ++ ": " ++ "" \/
        "Invalid input at position 3: " = "Invalid input at position " ++ str_int p ++ ": " ++ "").
Proof.
  split; [reflexivity|].
  apply (C7_position_in_range (fun _ => "") "42 $" "Invalid input at position 3: ").
  reflexivity.
Defined.

(** C8, as amended: the texts of the NUMBER tokens are exactly the strings
    made of an integer part of digits, a fractional part introduced by "."
    and an exponent ("e" or "E", an optional sign, at least one digit), each
    of which may be missing, with at least one digit in the integer part or
    in the fractional part: a digit of the exponent alone does not make a
    number.  Every such string has the shape the claim describes, with a
    digit.  ".5", "1.", "2e10" and "1.5E-3" are such strings, and each is
    one NUMBER token and valid as a single number. *)
Theorem C8_number_tokens :
  (forall s : string,
      (exists ts ls t ls',
          next_token ts ls = Tok t ls' /\ type_ t = NUMBER /\ value t = s)
      <-> number_text (list_ascii_of_string s))
  /\ (forall cs : list ascii, number_text cs -> number_shape cs)
  /\ (forall (exc_str : PyException -> string) (s : string),
         In s [".5"; "1."; "2e10"; "1.5E-3"] ->
         number_text (list_ascii_of_string s) /\
         tokenize s = [mkToken NUMBER s 0] /\
         parse s = Some (Return (Some (Node "number" [Leaf (mkToken NUMBER s 0)]))) /\
         validate_expression exc_str s = Some (true, None)).
Proof.
  split; [exact NUMBER_token_texts|]. split; [exact number_text_shape|].
  intros exc_str s Hin.
  assert (Htok : tokenize s = [mkToken NUMBER s 0])
    by (destruct Hin as [<- | [<- | [<- | [<- | []]]]]; reflexivity).
  split.
  - apply (proj1 (NUMBER_token_texts s)).
    exists terminals, {| text := list_ascii_of_string s; char_pos := 0 |},
      (mkToken NUMBER s 0), {| text := []; char_pos := String.length s |}.
    destruct Hin as [<- | [<- | [<- | [<- | []]]]]; repeat split; reflexivity.
  - split; [exact Htok|].
    destruct Hin as [<- | [<- | [<- | [<- | []]]]]; split; reflexivity.
Qed.

Lemma C8_number_tokens_witness :
  (next_token terminals {| text := list_ascii_of_string "1.5E-3+2"; char_pos := 0 |}
     = Tok (mkToken NUMBER "1.5E-3" 0)
         {| text := list_ascii_of_string "+2"; char_pos := 6 |}
   /\ type_ (mkToken NUMBER "1.5E-3" 0) = NUMBER)
  /\ number_text (list_ascii_of_string "1.5E-3")
  /\ number_shape (list_ascii_of_string "1.5E-3")
  /\ In "1.5E-3" [".5"; "1."; "2e10"; "1.5E-3"]
  /\ validate_expression (fun _ => "") "1.5E-3" = Some (true, None).
Proof.
  assert (Hn : number_text (list_ascii_of_string "1.5E-3")).
  { apply (proj1 (proj1 C8_number_tokens "1.5E-3")).
    exists terminals, {| text := list_ascii_of_string "1.5E-3+2"; char_pos := 0 |},
      (mkToken NUMBER "1.5E-3" 0), {| text := list_ascii_of_string "+2"; char_pos := 6 |}.
    repeat split; reflexivity. }
  split; [split; reflexivity|]. split; [exact Hn|]. split.
  - exact (proj1 (proj2 C8_number_tokens) _ Hn).
  - split; [simpl; auto|].
    apply (proj2 (proj2 C8_number_tokens) (fun _ => "") "1.5E-3"). simpl; auto.
Defined.

(** C8, as stated, fails: "e5" is an exponent alone, so it has the shape of
    the claim (no integer part, no fractional part, an exponent) with a
    digit; but it is the text of no NUMBER token, and the validator rejects
    it at its first character. *)
Lemma C8_counterexample :
  number_shape (list_ascii_of_string "e5")
  /\ ~ (exists ts ls t ls',
           next_token ts ls = Tok t ls' /\ type_ t = NUMBER /\ value t = "e5")
  /\ tokenize "e5" = []
  /\ validate_expression (fun _ => "") "e5"
     = Some (false, Some "Invalid input at position 0: ").
Proof.
  split; [|split; [|split]].
  - exists [], [], (list_ascii_of_string "e5"). repeat split; reflexivity.
  - intros H. apply (proj1 (NUMBER_token_texts "e5")) in H.
    apply NUMBER_complete in H. discriminate H.
  - reflexivity.
  - reflexivity.
Defined.

(** C9: when the tokens of a valid expression are followed by a further
    token that is no operator (a number, a "(" or a ")"), the validator
    reports that token as unexpected, at its offset in the input. *)
Theorem C9_trailing_input (exc_str : PyException -> string) (s1 s2 : string)
  (t : Token) (post : list Token) :
  validate_expression exc_str s1 = Some (true, None) ->
  tokenize (s1 ++ s2) = (tokenize s1 ++ t :: post)%list ->
  In (type_ t) [NUMBER; LPAR; RPAR] ->
  exists expected,
    validate_expression exc_str (s1 ++ s2)
      = Some (false,
              Some ("Unexpected token at position " ++ str_int (start_pos t) ++ ": "
                    ++ exc_str (UnexpectedToken t expected)))
    /\ substring (start_pos t) (String.length (value t)) (s1 ++ s2) = value t.
Proof.
  intros Hvalid Htok Hty.
  apply validate_true_inv in Hvalid as [v Hv].
  destruct (parse_run_tokens s1) as [stop1 H1]. rewrite H1 in Hv.
  apply run_tokens_app in Hv as (st' & token' & Hret & Happ).
  destruct (parse_run_tokens (s1 ++ s2)) as [stop H].
  rewrite Htok, Happ in H.
  assert (Hraise : exists expected,
             parse (s1 ++ s2) = Some (Raise (UnexpectedToken t expected))).
  { rewrite H. cbn [run_tokens] in *.
    destruct (state_stack st') as [|position below]; [discriminate|].
    destruct (has_action position (type_ t)); [|eexists; reflexivity].
    destruct stop1 as [t1 ls1| |ls1]; try discriminate.
    destruct (feed_token st' _ true) as [[[st2 v2]|e2]|] eqn:Ef; try discriminate.
    unfold feed_token in *.
    apply (feed_loop_trailing _ _ _ t) in Ef as [expected Ef]; auto.
    - rewrite Ef. eexists; reflexivity.
    - destruct token'; reflexivity. }
  destruct Hraise as [expected Hraise]. exists expected. split.
  - now rewrite (validate_raise _ _ _ Hraise).
  - apply tokenize_substring. rewrite Htok. apply in_or_app. right. now left.
Qed.

Lemma C9_trailing_input_witness :
  validate_expression (fun _ => "") "42" = Some (true, None)
  /\ tokenize ("42" ++ " 43") = (tokenize "42" ++ [mkToken NUMBER "43" 3])%list
  /\ In NUMBER [NUMBER; LPAR; RPAR]
  /\ exists expected : list Terminal,
       validate_expression (fun _ => "") ("42" ++ " 43")
         = Some (false, Some ("Unexpected token at position " ++ str_int 3 ++ ": " ++ ""))
       /\ substring 3 (String.length "43") ("42" ++ " 43") = "43".
Proof.
  split; [reflexivity|]. split; [reflexivity|]. split; [simpl; auto|].
  apply (C9_trailing_input (fun _ => "") "42" " 43" (mkToken NUMBER "43" 3) []);
    [reflexivity | reflexivity | simpl; auto].
Defined.

(** C10: the pair the validator returns is [(True, None)] or [(False,
    message)]: the error is [None] exactly when the flag is [True], and a
    string when the flag is [False]. *)
Theorem C10_result_shape (exc_str : PyException -> string) (expr : string) :
  exists (is_valid : bool) (error : option string),
    validate_expression exc_str expr = Some (is_valid, error) /\
    (error = None <-> is_valid = true) /\
    (is_valid = false -> exists message, error = Some message).
Proof.
  destruct (parse_terminates expr) as [[v|e] H].
  - exists true, None. rewrite (validate_return _ _ _ H).
    repeat split; auto; discriminate.
  - exists false, (Some (error_message exc_str e)). rewrite (validate_raise _ _ _ H).
    repeat split; try discriminate. intros _. eexists; reflexivity.
Qed.

Lemma C10_result_shape_witness :
  exists (is_valid : bool) (error : option string),
    validate_expression (fun _ => "") "(1+2" = Some (is_valid, error) /\
    (error = None <-> is_valid = true) /\
    (is_valid = false -> exists message, error = Some message).
Proof. exact (C10_result_shape (fun _ => "") "(1+2"). Defined.

(* ================================================================== *)
(** * Further properties of the validator *)

(* ------------------------------------------------------------------ *)
(** ** What a valid expression looks like *)

Lemma nesting_app (w1 w2 : list Terminal) (d : nat) :
  nesting d (w1 ++ w2)%list =
  match nesting d w1 with
  | Some d' => nesting d' w2
  | None => None
  end.
Proof.
  revert d. induction w1 as [|a w1 IH]; intros d; [reflexivity|].
  destruct a; cbn [nesting app]; try apply IH.
  destruct d; [reflexivity | apply IH].
Qed.

Ltac split_expansion :=
  repeat match goal with
         | H : Forall2 _ (_ :: _) _ |- _ => inversion H; subst; clear H
         | H : Forall2 _ [] _ |- _ => inversion H; subst; clear H
         | H : derives (T _) _ |- _ => apply derives_T_inv in H; subst
         end.

Lemma derives_nesting (X : Symbol) (w : list Terminal) :
  derives X w ->
  match X with
  | NT _ => forall d, nesting d w = Some d
  | T _ => True
  end.
Proof.
  intros H. induction H as [t | r ws Hd HP] using derives_induction; [exact I|].
  destruct r; simpl in *; split_expansion; simpl; rewrite ?app_nil_r; intros d;
    repeat first [ rewrite nesting_app
                 | match goal with
                   | H : forall d, nesting d ?w = Some d |- context [nesting ?n ?w] =>
                       rewrite (H n)
                   end
                 | progress cbn [nesting] ];
    auto.
Qed.

Lemma last_cons {A : Type} (a d : A) (l : list A) : last (a :: l) d = last l a.
Proof.
  revert a d. induction l as [|b l IH]; intros a d; [reflexivity|].
  change (last (a :: b :: l) d) with (last (b :: l) d). now rewrite !IH.
Qed.

Lemma last_app_cons {A : Type} (l1 l2 : list A) (b d : A) :
  last (l1 ++ b :: l2)%list d = last (b :: l2) d.
Proof.
  induction l1 as [|a l1 IH]; [reflexivity|].
  destruct l1; simpl in *; exact IH.
Qed.

Lemma chained_app (w1 w2 : list Terminal) (b : Terminal) :
  chained (w1 ++ b :: w2)%list =
  chained w1 &&
  match w1 with
  | [] => true
  | _ :: _ => may_follow (last w1 END) b
  end && chained (b :: w2).
Proof.
  induction w1 as [|a w1 IH]; [reflexivity|].
  destruct w1 as [|a' w1].
  - reflexivity.
  - change (chained ((a :: a' :: w1) ++ b :: w2)%list)
      with (may_follow a a' && chained ((a' :: w1) ++ b :: w2)%list).
    rewrite IH. change (chained (a :: a' :: w1)) with (may_follow a a' && chained (a' :: w1)).
    rewrite (last_cons a END (a' :: w1)), (last_cons a' a w1).
    change (last (a' :: w1) END) with (last (a' :: w1) END).
    rewrite (last_cons a' END w1). now rewrite !andb_assoc.
Qed.

Lemma sentence_shape_inv (w : list Terminal) :
  sentence_shape w = true ->
  exists a w', w = a :: w' /\ begins_operand a = true /\
               ends_operand (last w END) = true /\ chained w = true.
Proof.
  destruct w as [|a w']; [discriminate|]. unfold sentence_shape.
  intros H. apply andb_true_iff in H as [H H3]. apply andb_true_iff in H as [H1 H2].
  now exists a, w'.
Qed.

Lemma shape_binary (w1 w2 : list Terminal) (op : Terminal) :
  In op [PLUS; MINUS; STAR; SLASH] ->
  sentence_shape w1 = true -> sentence_shape w2 = true ->
  sentence_shape (w1 ++ op :: w2)%list = true.
Proof.
  intros Hop H1 H2.
  apply sentence_shape_inv in H1 as (a1 & w1' & -> & Hb1 & He1 & Hc1).
  apply sentence_shape_inv in H2 as (a2 & w2' & -> & Hb2 & He2 & Hc2).
  unfold sentence_shape. cbn [app]. rewrite Hb1.
  change (a1 :: (w1' ++ op :: a2 :: w2')%list) with ((a1 :: w1') ++ op :: a2 :: w2')%list.
  rewrite last_app_cons, (last_cons op END (a2 :: w2')), (last_cons a2 op w2').
  rewrite (last_cons a2 END w2') in He2. rewrite He2.
  rewrite chained_app, Hc1.
  change (chained (op :: a2 :: w2')) with (may_follow op a2 && chained (a2 :: w2')).
  rewrite Hc2.
  destruct (last (a1 :: w1') END); try discriminate He1;
    destruct Hop as [<- | [<- | [<- | [<- | []]]]]; simpl; now rewrite Hb2.
Qed.

Lemma shape_neg (w : list Terminal) :
  sentence_shape w = true -> sentence_shape (MINUS :: w) = true.
Proof.
  intros H. apply sentence_shape_inv in H as (a & w' & -> & Hb & He & Hc).
  unfold sentence_shape. rewrite (last_cons MINUS END (a :: w')), (last_cons a MINUS w').
  rewrite (last_cons a END w') in He. rewrite He.
  change (chained (MINUS :: a :: w')) with (may_follow MINUS a && chained (a :: w')).
  rewrite Hc. simpl. now rewrite Hb.
Qed.

Lemma shape_paren (w : list Terminal) :
  sentence_shape w = true -> sentence_shape (LPAR :: w ++ [RPAR])%list = true.
Proof.
  intros H. apply sentence_shape_inv in H as (a & w' & -> & Hb & He & Hc).
  unfold sentence_shape.
  change (LPAR :: ((a :: w') ++ [RPAR])%list) with ((LPAR :: a :: w') ++ [RPAR])%list.
  rewrite last_app_cons, chained_app.
  change (chained (LPAR :: a :: w')) with (may_follow LPAR a && chained (a :: w')).
  rewrite Hc, (last_cons LPAR END (a :: w')), (last_cons a LPAR w').
  rewrite (last_cons a END w') in He.
  destruct (last w' a); try discriminate He; simpl; now rewrite Hb.
Qed.

Lemma derives_shape (X : Symbol) (w : list Terminal) :
  derives X w ->
  match X with
  | NT _ => sentence_shape w = true
  | T _ => True
  end.
Proof.
  intros H. induction H as [t | r ws Hd HP] using derives_induction; [exact I|].
  destruct r; simpl in *; split_expansion; simpl; rewrite ?app_nil_r; auto.
  - apply shape_binary; simpl; auto.
  - apply shape_binary; simpl; auto.
  - apply shape_binary; simpl; auto.
  - apply shape_binary; simpl; auto.
  - now apply shape_neg.
  - now apply shape_paren.
Qed.

Lemma forallb_weaken {A : Type} (f g : A -> bool) (l : list A) :
  (forall a, f a = true -> g a = true) -> forallb f l = true -> forallb g l = true.
Proof.
  intros Hfg H. apply forallb_forall. intros a Ha.
  apply Hfg. revert a Ha. now apply forallb_forall.
Qed.

Section TokenCharacters.

Variable P : ascii -> bool.
Hypothesis P_digit : forall c, Common.DIGIT c = true -> P c = true.
Hypothesis P_marks : forallb P (list_ascii_of_string ".eE+-*/()") = true.

Lemma P_mark (c : ascii) :
  In c (list_ascii_of_string ".eE+-*/()") -> P c = true.
Proof. revert c. now apply forallb_forall. Qed.

Lemma digits_chars (d : list ascii) : all_digits d = true -> forallb P d = true.
Proof. apply forallb_weaken, P_digit. Qed.

Lemma number_text_chars (cs : list ascii) : number_text cs -> forallb P cs = true.
Proof.
  intros (ip & fp & ep & (-> & Hip & Hfp & Hep) & _).
  rewrite !forallb_app. rewrite (digits_chars _ Hip). cbn [andb].
  apply andb_true_iff. split.
  - destruct fp as [|c f]; [reflexivity|]. simpl in Hfp.
    apply andb_true_iff in Hfp as [Hc Hf]. apply Ascii.eqb_eq in Hc. subst c.
    cbn [forallb]. rewrite (digits_chars _ Hf), P_mark; [reflexivity | simpl; tauto].
  - destruct ep as [|c r]; [reflexivity|]. simpl in Hep.
    apply andb_true_iff in Hep as [Hc Hr]. cbn [forallb].
    apply andb_true_iff. split.
    + apply orb_true_iff in Hc as [Hc | Hc]; apply Ascii.eqb_eq in Hc; subst c;
        apply P_mark; simpl; tauto.
    + destruct r as [|s d]; [discriminate Hr|]. simpl in Hr.
      destruct (Ascii.eqb s "+" || Ascii.eqb s "-") eqn:Es.
      * cbn [forallb]. apply andb_true_iff. split.
        -- apply orb_true_iff in Es as [Hs | Hs]; apply Ascii.eqb_eq in Hs; subst s;
             apply P_mark; simpl; tauto.
        -- apply unsigned_digits_iff in Hr as [_ Hr]. now apply digits_chars.
      * now apply digits_chars.
Qed.

Lemma pattern_chars (t : Terminal) (cs : list ascii) (n : nat) :
  pattern t cs = Some n -> forallb P (firstn n cs) = true.
Proof.
  destruct t; simpl; intros H;
    try (apply lit_sound in H as [-> ->]; cbn [forallb];
         rewrite P_mark; [reflexivity | simpl; tauto]);
    [|discriminate H].
  now apply number_text_chars, NUMBER_sound.
Qed.

End TokenCharacters.

Lemma pattern_alphabet (t : Terminal) (cs : list ascii) (n : nat) :
  pattern t cs = Some n -> forallb alphabet (firstn n cs) = true.
Proof.
  apply pattern_chars; [|reflexivity].
  intros c Hc. unfold alphabet. now rewrite Hc.
Qed.

Lemma pattern_no_blank (t : Terminal) (cs : list ascii) (n : nat) :
  pattern t cs = Some n -> forallb no_blank (firstn n cs) = true.
Proof.
  apply pattern_chars; [|reflexivity].
  intros c Hc. unfold no_blank. apply negb_true_iff, NUMBER_no_blank.
  simpl. now rewrite Hc.
Qed.

Lemma blanks_alphabet (cs : list ascii) :
  forallb alphabet (firstn (ignored cs) cs) = true.
Proof.
  rewrite ignored_run.
  apply (forallb_weaken Common.WS_INLINE_char); [|apply run_firstn].
  intros c Hc. unfold alphabet. rewrite Hc. now rewrite orb_true_r.
Qed.

Lemma next_token_alphabet (ts : list Terminal) (ls ls' : LexerState) (t : Token) :
  next_token ts ls = Tok t ls' ->
  exists pre, text ls = (pre ++ text ls')%list /\ forallb alphabet pre = true.
Proof.
  unfold next_token. pose proof (blanks_alphabet (text ls)) as Hb.
  destruct (skipn (ignored (text ls)) (text ls)) as [|c cs] eqn:E; [discriminate|].
  destruct (scan ts (c :: cs)) as [[ty n]|] eqn:Es; [|discriminate].
  intros H. injection H as <- <-. cbn [text].
  apply scan_inv in Es as [_ Hp]. apply pattern_alphabet in Hp.
  exists (firstn (ignored (text ls)) (text ls) ++ firstn n (c :: cs))%list. split.
  - rewrite <- app_assoc, (firstn_skipn n (c :: cs)), <- E.
    symmetry. apply firstn_skipn.
  - now rewrite forallb_app, Hb, Hp.
Qed.

Lemma next_token_EOF_alphabet (ts : list Terminal) (ls : LexerState) :
  next_token ts ls = EOF -> forallb alphabet (text ls) = true.
Proof.
  unfold next_token. pose proof (blanks_alphabet (text ls)) as Hb.
  destruct (skipn (ignored (text ls)) (text ls)) as [|c cs] eqn:E.
  - intros _. rewrite <- (firstn_skipn (ignored (text ls)) (text ls)), E.
    now rewrite app_nil_r.
  - destruct (scan ts (c :: cs)) as [[ty n]|]; discriminate.
Qed.

Lemma stop_from_alphabet (fuel : nat) (ls : LexerState) :
  next_token terminals (stop_from fuel ls) = EOF ->
  forallb alphabet (text ls) = true.
Proof.
  revert ls. induction fuel as [|fuel IH]; intros ls; cbn [stop_from].
  - apply next_token_EOF_alphabet.
  - destruct (next_token terminals ls) as [t ls'| |ls'] eqn:En;
      try apply next_token_EOF_alphabet.
    intros H. apply IH in H.
    destruct (next_token_alphabet _ _ _ _ En) as (pre & -> & Hpre).
    now rewrite forallb_app, Hpre, H.
Qed.

(* ------------------------------------------------------------------ *)
(** ** Where an error is reported *)

Lemma tokens_from_types (fuel : nat) (ls : LexerState) :
  Forall (fun x => type_ x <> END) (tokens_from fuel ls).
Proof.
  revert ls. induction fuel as [|fuel IH]; intros ls; cbn [tokens_from]; [constructor|].
  destruct (next_token terminals ls) as [t ls'| |ls'] eqn:En; try constructor.
  - apply next_token_Tok in En as [Hin _]. intros E. rewrite E in Hin.
    simpl in Hin. intuition discriminate.
  - apply IH.
Qed.

Lemma tokens_from_extent (fuel : nat) (ls : LexerState) (t : Token) :
  In t (tokens_from fuel ls) -> start_pos t < extent ls.
Proof.
  revert ls. induction fuel as [|fuel IH]; intros ls; cbn [tokens_from]; [intros []|].
  destruct (next_token terminals ls) as [t0 ls'| |ls'] eqn:En; [|intros []|intros []].
  apply next_token_Tok in En as (_ & _ & Hlt & Hext & _).
  intros [<- | Hin].
  - unfold extent in *. lia.
  - apply IH in Hin. lia.
Qed.

Lemma run_tokens_END (toks : list Token) (st : ParserState) (token : option Token)
  (stop : Lexed) (t : Token) (expected : list Terminal) :
  well_formed st ->
  Forall (fun x => type_ x <> END) toks ->
  (forall x ls, stop = Tok x ls -> type_ x <> END) ->
  run_tokens st token toks stop = Some (Raise (UnexpectedToken t expected)) ->
  type_ t = END ->
  stop = EOF /\
  t = mkToken END ""
        (start_pos (last toks (match token with
                               | Some x => x
                               | None => mkToken END "" 0
                               end))).
Proof.
  revert st token. induction toks as [|t0 toks IH]; intros st token Hwf Hty Hstop;
    cbn [run_tokens]; destruct (state_stack st) as [|position below] eqn:Est;
    try discriminate.
  - destruct stop as [x ls| |ls]; try discriminate.
    + intros H; injection H as -> _. intros E. now destruct (Hstop t ls eq_refl).
    + destruct (feed_token st _ true) as [[[st' v]|e]|] eqn:Ef; try discriminate.
      intros H; injection H as ->. intros _.
      apply feed_token_ok in Ef as [expected' Ef]; auto;
        [|destruct token; reflexivity].
      injection Ef as -> _. split; [reflexivity|]. now destruct token.
  - inversion Hty as [|x l Hx Hl]; subst.
    destruct (has_action position (type_ t0)).
    + destruct (feed_token st t0 false) as [[[st' v]|e]|] eqn:Ef; try discriminate.
      * intros H E. apply feed_token_ok in Ef; auto; [|discriminate].
        destruct (IH st' (Some t0) Ef Hl Hstop H E) as [-> ->].
        split; [reflexivity|]. now rewrite last_cons.
      * intros H; injection H as ->. intros E.
        apply feed_token_ok in Ef as [expected' Ef]; auto; [|discriminate].
        injection Ef as -> _. now destruct Hx.
    + intros H; injection H as -> _. intros E. now destruct Hx.
Qed.

Lemma parse_END (s : string) (t : Token) (expected : list Terminal) :
  parse s = Some (Raise (UnexpectedToken t expected)) ->
  type_ t = END ->
  lexed_whole s /\
  t = mkToken END "" (start_pos (last (tokenize s) (mkToken END "" 0))).
Proof.
  rewrite parse_as_run_tokens. intros H E.
  apply run_tokens_END in H; auto.
  - apply well_formed_start.
  - apply tokens_from_types.
  - intros x ls Hx. apply next_token_Tok in Hx as [Hin _]. intros E'.
    rewrite E' in Hin. simpl in Hin. intuition discriminate.
Qed.

Lemma get_list (s : string) (p : nat) :
  String.get p s = nth_error (list_ascii_of_string s) p.
Proof.
  revert p. induction s as [|c s IH]; intros [|p]; simpl; auto.
Qed.

Lemma skipn_head {A : Type} (l rest : list A) (p : nat) (a : A) :
  skipn p l = a :: rest -> nth_error l p = Some a.
Proof.
  revert l. induction p as [|p IH]; intros [|b l]; simpl; try discriminate.
  - now intros [= -> _].
  - apply IH.
Qed.

Lemma run_tokens_characters (toks : list Token) (st : ParserState) (token : option Token)
  (stop : Lexed) (p : nat) (c : ascii) (allowed : list Terminal) :
  well_formed st ->
  run_tokens st token toks stop = Some (Raise (UnexpectedCharacters p c allowed)) ->
  exists ls, stop = NoMatch ls /\ p = char_pos ls /\ c = hd " "%char (text ls).
Proof.
  revert st token. induction toks as [|t0 toks IH]; intros st token Hwf;
    cbn [run_tokens]; destruct (state_stack st) as [|position below] eqn:Est;
    try discriminate.
  - destruct stop as [x ls| |ls]; try discriminate.
    + destruct (feed_token st _ true) as [[[st' v]|e]|] eqn:Ef; try discriminate.
      intros H; injection H as ->.
      apply feed_token_ok in Ef as [expected' Ef]; auto; [discriminate Ef|].
      destruct token; reflexivity.
    + intros H; injection H as <- <- _. now exists ls.
  - destruct (has_action position (type_ t0)); [|discriminate].
    destruct (feed_token st t0 false) as [[[st' v]|e]|] eqn:Ef; try discriminate.
    + apply feed_token_ok in Ef; auto; [|discriminate]. now apply IH.
    + intros H; injection H as ->.
      apply feed_token_ok in Ef as [expected' Ef]; auto; discriminate.
Qed.

Lemma stop_from_within (w : list ascii) (fuel : nat) (ls : LexerState) :
  within w ls -> within w (stop_from fuel ls).
Proof.
  revert ls. induction fuel as [|fuel IH]; intros ls Hw; cbn [stop_from]; auto.
  destruct (next_token terminals ls) as [t ls'| |ls'] eqn:En; auto.
  apply IH. now apply (next_token_within w) in En.
Qed.

Lemma within_skip_blanks (w : list ascii) (ls : LexerState) :
  within w ls -> within w (skip_blanks ls).
Proof.
  unfold within, skip_blanks. cbn [text char_pos]. intros ->.
  rewrite skipn_skipn. f_equal. lia.
Qed.

Lemma skip_blanks_head (ls : LexerState) (c : ascii) (cs : list ascii) :
  text (skip_blanks ls) = c :: cs -> Common.WS_INLINE_char c = false.
Proof.
  unfold skip_blanks. cbn [text]. rewrite ignored_run. intros H.
  pose proof (run_skipn Common.WS_INLINE_char (text ls)) as Hr.
  rewrite H in Hr. cbn [run] in Hr.
  destruct (Common.WS_INLINE_char c); [discriminate Hr | reflexivity].
Qed.

Lemma parse_characters (s : string) (p : nat) (c : ascii) (allowed : list Terminal) :
  parse s = Some (Raise (UnexpectedCharacters p c allowed)) ->
  String.get p s = Some c /\ Common.WS_INLINE_char c = false /\
  (forall t, pattern t (skipn p (list_ascii_of_string s)) = None) /\
  ~ lexed_whole s.
Proof.
  rewrite parse_as_run_tokens. intros H.
  apply run_tokens_characters in H as (ls & Hstop & -> & ->); [|apply well_formed_start].
  assert (Hw : within (list_ascii_of_string s) ls).
  { apply next_token_NoMatch in Hstop as H'. destruct H' as (-> & _).
    apply within_skip_blanks, stop_from_within. reflexivity. }
  apply next_token_NoMatch in Hstop as H'. destruct H' as (Hls & Hne & Hscan & _).
  destruct (text ls) as [|c cs] eqn:Et; [now destruct Hne|]. cbn [hd].
  unfold within in Hw. rewrite Et in Hw. symmetry in Hw.
  repeat split.
  - rewrite get_list. now apply skipn_head with cs.
  - apply skip_blanks_head with (stop_from (S (List.length (list_ascii_of_string s)))
                                   {| text := list_ascii_of_string s; char_pos := 0 |}) cs.
    now rewrite <- Hls.
  - intros t. rewrite Hw. destruct t; try (apply (proj1 (scan_None _ _) Hscan); simpl; tauto).
    reflexivity.
  - unfold lexed_whole. cbv zeta. rewrite Hstop. discriminate.
Qed.

(** X1: the validator answers [(True, None)] exactly for the texts that
    the lexer reads to their end and whose tokens are a sentence of
    [GRAMMAR]. *)
Theorem validate_accepts (exc_str : PyException -> string) (expr : string) :
  validate_expression exc_str expr = Some (true, None) <->
  lexed_whole expr /\ derives (NT start) (map type_ (tokenize expr)).
Proof.
  split.
  - intros H. apply validate_true_inv in H. now apply (proj1 (parse_accepts expr)).
  - intros H. apply (proj2 (parse_accepts expr)) in H as [v H].
    now apply validate_return with v.
Qed.

(** X2: in a valid expression the parentheses are nested: no ")" comes
    before its "(", at no point of the text, and at the end every "(" is
    closed. *)
Theorem valid_parentheses_nested (exc_str : PyException -> string) (expr : string) :
  validate_expression exc_str expr = Some (true, None) ->
  nesting 0 (map type_ (tokenize expr)) = Some 0 /\
  forall pre post, map type_ (tokenize expr) = (pre ++ post)%list ->
    exists d, nesting 0 pre = Some d /\ nesting d post = Some 0.
Proof.
  intros H. apply validate_true_inv in H as [v H]. apply parse_sound in H.
  apply derives_nesting in H. split; [apply H|].
  intros pre post E. specialize (H 0). rewrite E, nesting_app in H.
  destruct (nesting 0 pre) as [d|]; [|discriminate H]. now exists d.
Qed.

Lemma valid_parentheses_nested_witness :
  validate_expression (fun _ => "") "(4 - 5) * (6 + 7)" = Some (true, None) /\
  nesting 0 (map type_ (tokenize "(4 - 5) * (6 + 7)")) = Some 0.
Proof.
  split; [reflexivity|].
  apply (valid_parentheses_nested (fun _ => "") "(4 - 5) * (6 + 7)"). reflexivity.
Defined.

(** X3: the tokens of a valid expression alternate: the first begins an
    operand (a number, a "-" or a "("), the last ends one (a number or a
    ")"), after a number or a ")" comes a binary operator or a ")", and
    after an operator or a "(" comes the beginning of an operand.  So two
    numbers in a row, an operator at the end and an empty pair of
    parentheses are never accepted. *)
Theorem valid_tokens_alternate (exc_str : PyException -> string) (expr : string) :
  validate_expression exc_str expr = Some (true, None) ->
  sentence_shape (map type_ (tokenize expr)) = true.
Proof.
  intros H. apply validate_true_inv in H as [v H]. apply parse_sound in H.
  now apply derives_shape in H.
Qed.

Lemma valid_tokens_alternate_witness :
  validate_expression (fun _ => "") "-(3+2)*4" = Some (true, None) /\
  sentence_shape (map type_ (tokenize "-(3+2)*4")) = true.
Proof.
  split; [reflexivity|].
  apply (valid_tokens_alternate (fun _ => "") "-(3+2)*4"). reflexivity.
Defined.

(** X4: a valid expression has no character but digits, ".", "e", "E",
    the operators, the parentheses, spaces and tabs. *)
Theorem valid_characters (exc_str : PyException -> string) (expr : string) :
  validate_expression exc_str expr = Some (true, None) ->
  forallb alphabet (list_ascii_of_string expr) = true.
Proof.
  intros H. apply validate_true_inv in H.
  apply (proj1 (parse_accepts expr)) in H as [H _].
  unfold lexed_whole in H. now apply stop_from_alphabet in H.
Qed.

Lemma valid_characters_witness :
  validate_expression (fun _ => "") "1.5E-3 / (2 - .5)" = Some (true, None) /\
  forallb alphabet (list_ascii_of_string "1.5E-3 / (2 - .5)") = true.
Proof.
  split; [reflexivity|].
  apply (valid_characters (fun _ => "") "1.5E-3 / (2 - .5)"). reflexivity.
Defined.

Lemma parse_END_inside (s : string) (t : Token) (expected : list Terminal) :
  parse s = Some (Raise (UnexpectedToken t expected)) ->
  type_ t = END -> s <> "" -> start_pos t < String.length s.
Proof.
  intros H E Hne. destruct (parse_END _ _ _ H E) as [_ ->]. cbn [start_pos].
  destruct (tokenize s) as [|t0 toks] eqn:Etok.
  - simpl. destruct s; [now destruct Hne | simpl; lia].
  - assert (Hin : In (last (t0 :: toks) (mkToken END "" 0)) (tokenize s)).
    { rewrite Etok.
      destruct (exists_last (l := t0 :: toks)) as (l' & a & E'); [discriminate|].
      rewrite E', last_last. apply in_or_app. right. now left. }
    apply tokens_from_extent in Hin. unfold extent in Hin. simpl in Hin.
    now rewrite length_list_ascii in Hin.
Qed.

(** X5: when the parser fails at the end of the input, the lexer has read
    the whole text, and the offset reported is the offset at which the last
    token starts, or 0 when there is no token. *)
Theorem end_of_input_position (exc_str : PyException -> string) (expr : string)
  (t : Token) (expected : list Terminal) :
  parse expr = Some (Raise (UnexpectedToken t expected)) ->
  type_ t = END ->
  lexed_whole expr /\
  value t = "" /\
  start_pos t = start_pos (last (tokenize expr) (mkToken END "" 0)) /\
  validate_expression exc_str expr
    = Some (false,
            Some ("Unexpected token at position "
                  ++ str_int (start_pos (last (tokenize expr) (mkToken END "" 0)))
                  ++ ": " ++ exc_str (UnexpectedToken t expected))).
Proof.
  intros H E. destruct (parse_END _ _ _ H E) as [Hl Ht].
  assert (Hp : start_pos t = start_pos (last (tokenize expr) (mkToken END "" 0)))
    by now rewrite Ht at 1.
  repeat split; auto.
  - now rewrite Ht.
  - rewrite (validate_raise _ _ _ H). cbn [error_message pos_in_stream str_pos].
    now rewrite Hp.
Qed.

Lemma end_of_input_position_witness :
  parse "2 * (3 +" = Some (Raise (UnexpectedToken (mkToken END "" 7) [NUMBER; MINUS; LPAR]))
  /\ start_pos (mkToken END "" 7) = start_pos (last (tokenize "2 * (3 +") (mkToken END "" 0))
  /\ last (tokenize "2 * (3 +") (mkToken END "" 0) = mkToken PLUS "+" 7.
Proof.
  split; [reflexivity|].
  destruct (end_of_input_position (fun _ => "") "2 * (3 +" (mkToken END "" 7)
              [NUMBER; MINUS; LPAR] eq_refl eq_refl) as (_ & _ & Hp & _).
  split; [exact Hp | reflexivity].
Defined.

(** X6: when the validator reports "Invalid input at position p", the
    character at offset p of the input is no blank and no terminal of the
    grammar matches there; the lexer has not read the text to its end. *)
Theorem invalid_input_character (exc_str : PyException -> string) (expr : string)
  (p : nat) (c : ascii) (allowed : list Terminal) :
  parse expr = Some (Raise (UnexpectedCharacters p c allowed)) ->
  validate_expression exc_str expr
    = Some (false,
            Some ("Invalid input at position " ++ str_int p ++ ": "
                  ++ exc_str (UnexpectedCharacters p c allowed))) /\
  String.get p expr = Some c /\ Common.WS_INLINE_char c = false /\
  (forall t, pattern t (skipn p (list_ascii_of_string expr)) = None) /\
  ~ lexed_whole expr.
Proof.
  intros H. split; [now rewrite (validate_raise _ _ _ H)|].
  now apply parse_characters with allowed.
Qed.

Lemma invalid_input_character_witness :
  parse "2 * x" = Some (Raise (UnexpectedCharacters 4 "x" [NUMBER; MINUS; LPAR])) /\
  String.get 4 "2 * x" = Some "x"%char.
Proof.
  split; [reflexivity|].
  apply (invalid_input_character (fun _ => "") "2 * x" 4 "x" [NUMBER; MINUS; LPAR]).
  reflexivity.
Defined.

(** X7: a text that the lexer reads to its end and that is not valid is
    reported by the first [except] clause, as an unexpected token: the
    clause for [UnexpectedInput] is reached only for a character that
    starts no terminal, not for an incomplete expression. *)
Theorem read_to_end_unexpected_token (exc_str : PyException -> string) (expr message : string) :
  lexed_whole expr ->
  validate_expression exc_str expr = Some (false, Some message) ->
  exists t expected,
    parse expr = Some (Raise (UnexpectedToken t expected)) /\
    message = "Unexpected token at position " ++ str_int (start_pos t) ++ ": "
              ++ exc_str (UnexpectedToken t expected).
Proof.
  intros Hl H. apply validate_false_inv in H as (e & He & Hm). injection Hm as ->.
  destruct (parse_raise_kind _ _ He) as [(t & expected & ->) | (p & c & allowed & ->)].
  - now exists t, expected.
  - apply parse_characters in He as (_ & _ & _ & Hn). now destruct Hn.
Qed.

Lemma read_to_end_unexpected_token_witness :
  lexed_whole "(1+2" /\
  exists t expected,
    parse "(1+2" = Some (Raise (UnexpectedToken t expected)) /\
    "Unexpected token at position 3: "
    = "Unexpected token at position " ++ str_int (start_pos t) ++ ": " ++ "".
Proof.
  split; [reflexivity|].
  apply (read_to_end_unexpected_token (fun _ => "") "(1+2" "Unexpected token at position 3: ");
    reflexivity.
Defined.

(* ------------------------------------------------------------------ *)
(** ** The tokens before an error are the beginning of a valid expression *)

Lemma stack_ok_init (l : list State) : stack_ok (s_init :: l) = true -> l = [].
Proof.
  destruct l as [|b l]; [reflexivity|].
  rewrite stack_ok_cons. destruct b; discriminate.
Qed.

Ltac unclosed_here H Hskip Hg :=
  first [ solve [ simpl in Hskip; injection Hskip as <- <-;
                  simpl in Hg; injection Hg as <-; simpl; lia ]
        | below H; unclosed_here H Hskip Hg ].

Lemma reduce_unclosed (s b s' : State) (below rest : list State) (t : Terminal) (r : Rule) :
  stack_ok (s :: below) = true ->
  action s t = Some (Reduce r) ->
  skipn (List.length (expansion r)) (s :: below) = b :: rest ->
  goto b (origin r) = Some s' ->
  unclosed (s' :: b :: rest) = unclosed (s :: below).
Proof.
  intros H Ha Hskip Hg.
  destruct s; simpl in Ha; destruct t; try discriminate Ha; injection Ha as <-;
    unclosed_here H Hskip Hg.
Qed.

Lemma Rule_start_dec (r : Rule) : {origin r = start} + {origin r <> start}.
Proof. destruct r; simpl; (now left) || (right; discriminate). Qed.

Lemma goto_complete (b s' : State) (n : NonTerminal) :
  goto b n = Some s' -> n <> start -> wants_operand s' = false /\ s' <> s_end.
Proof.
  destruct b, n; simpl; intros H Hn; try discriminate H; injection H as <-;
    try (now destruct Hn); split; try reflexivity; discriminate.
Qed.

(** A reduction keeps what the stack has open. *)
Lemma reduce_preserves (st : ParserState) (s : State) (below : list State) (a : Token)
  (r : Rule) :
  well_formed st ->
  state_stack st = s :: below ->
  action s (type_ a) = Some (Reduce r) ->
  origin r <> start ->
  exists st1,
    well_formed st1 /\
    list_sum (map weight (state_stack st1)) < list_sum (map weight (state_stack st)) /\
    unclosed (state_stack st1) = unclosed (state_stack st) /\
    (exists s1 below1, state_stack st1 = s1 :: below1 /\
                       wants_operand s1 = false /\ s1 <> s_end) /\
    forall is_end, feed_token st a is_end = feed_token st1 a is_end.
Proof.
  intros Hwf Est Ha Hr.
  destruct (reduce_step st s below (type_ a) r Hwf Est Ha)
    as (v & b & rest & s' & Hcb & Hskip & Hg & _ & Hwf').
  destruct (goto_complete _ _ _ Hg Hr) as [Hw Hne].
  assert (Hok : stack_ok (s :: below) = true) by (rewrite <- Est; apply Hwf).
  eexists. split; [exact Hwf'|]. cbn [state_stack]. rewrite Est. repeat split.
  - now apply reduce_lighter with (t := type_ a) (rule := r).
  - now apply reduce_unclosed with (t := type_ a) (r := r).
  - now exists s', (b :: rest).
  - intros is_end. apply (feed_token_reduce r) with s b s' below rest v; auto.
    destruct s'; try reflexivity. now destruct Hne.
Qed.

Lemma close_END (n : nat) (st : ParserState) (s : State) (below : list State) (a : Token) :
  list_sum (map weight (state_stack st)) < n ->
  well_formed st ->
  state_stack st = s :: below ->
  wants_operand s = false -> s <> s_end ->
  unclosed (state_stack st) = 0 ->
  type_ a = END ->
  exists r, feed_token st a true = Some (Return r).
Proof.
  revert st s below. induction n as [|n IH]; intros st s below Hn Hwf Est Hw Hne Hu Ha;
    [lia|].
  destruct (action s END) as [[s'|r]|] eqn:Eact.
  - now apply no_shift_END in Eact.
  - destruct (Rule_start_dec r) as [Hr | Hr].
    + assert (s = s_expr) by (destruct s; simpl in Eact; try discriminate Eact;
                              injection Eact as <-; try discriminate Hr; reflexivity).
      subst s. destruct Hwf as [Hok Hlen]. destruct st as [ss vs]. simpl in *. subst ss.
      below Hok. apply stack_ok_init in Hok. subst.
      destruct vs as [|v [|v' vs]]; try discriminate Hlen.
      eexists. unfold feed_token. simpl. rewrite Ha. reflexivity.
    + rewrite <- Ha in Eact.
      destruct (reduce_preserves st s below a r Hwf Est Eact Hr)
        as (st1 & Hwf1 & Hlt & Hu1 & (s1 & below1 & Est1 & Hw1 & Hne1) & Hfeed).
      rewrite Hfeed. apply IH with s1 below1; auto; try lia; now rewrite Hu1.
  - exfalso. destruct Hwf as [Hok _]. rewrite Est in *.
    destruct s; try discriminate Eact; try discriminate Hw; try (now destruct Hne).
    below Hok. discriminate Hu.
Qed.

Lemma close_RPAR (n k : nat) (st : ParserState) (s : State) (below : list State)
  (a : Token) :
  list_sum (map weight (state_stack st)) < n ->
  well_formed st ->
  state_stack st = s :: below ->
  wants_operand s = false -> s <> s_end ->
  unclosed (state_stack st) = S k ->
  type_ a = RPAR ->
  has_action s RPAR = true /\
  exists st',
    feed_token st a false = Some (Return (st', None)) /\
    well_formed st' /\
    (exists s' below', state_stack st' = s' :: below' /\
                       wants_operand s' = false /\ s' <> s_end) /\
    unclosed (state_stack st') = k.
Proof.
  revert st s below. induction n as [|n IH]; intros st s below Hn Hwf Est Hw Hne Hu Ha;
    [lia|].
  unfold has_action.
  destruct (action s RPAR) as [[s'|r]|] eqn:Eact.
  - split; [reflexivity|].
    assert (s = s_inner /\ s' = s_rpar) as [-> ->]
      by (destruct s; simpl in Eact; try discriminate Eact; injection Eact as <-; auto).
    rewrite <- Ha in Eact.
    exists (push s_rpar (Leaf a) st). split; [now apply feed_token_shift with s_inner below|].
    split.
    { pose proof (feed_token_shift st s_inner s_rpar below a Est Eact) as Hf.
      now apply feed_token_ok in Hf. }
    split; [exists s_rpar, (state_stack st); repeat split; discriminate|].
    cbn [push state_stack unclosed]. rewrite Hu. lia.
  - split; [reflexivity|].
    assert (Hr : origin r <> start)
      by (destruct s; simpl in Eact; try discriminate Eact; injection Eact as <-;
          discriminate).
    rewrite <- Ha in Eact.
    destruct (reduce_preserves st s below a r Hwf Est Eact Hr)
      as (st1 & Hwf1 & Hlt & Hu1 & (s1 & below1 & Est1 & Hw1 & Hne1) & Hfeed).
    rewrite Hfeed. apply (IH st1 s1 below1); auto; try lia; now rewrite Hu1.
  - exfalso. destruct Hwf as [Hok _]. rewrite Est in *.
    destruct s; try discriminate Eact; try discriminate Hw; try (now destruct Hne).
    below Hok. apply stack_ok_init in Hok. subst. discriminate Hu.
Qed.

Lemma closers_accepted (k : nat) (st : ParserState) (s : State) (below : list State)
  (token : option Token) :
  well_formed st ->
  state_stack st = s :: below ->
  wants_operand s = false -> s <> s_end ->
  unclosed (state_stack st) = k ->
  exists v, run_tokens st token (map token_of (repeat RPAR k)) EOF = Some (Return v).
Proof.
  revert st s below token. induction k as [|k IH]; intros st s below token Hwf Est Hw Hne Hu.
  - cbn [repeat map run_tokens]. rewrite Est.
    match goal with |- context [feed_token st ?tk true] => set (end_token := tk) end.
    destruct (close_END _ st s below end_token (Nat.lt_succ_diag_r _) Hwf Est Hw Hne Hu)
      as [[st' v] Hf]; [subst end_token; now destruct token|].
    rewrite Hf. now exists v.
  - cbn [repeat map run_tokens]. rewrite Est.
    destruct (close_RPAR _ k st s below (token_of RPAR) (Nat.lt_succ_diag_r _)
                Hwf Est Hw Hne Hu eq_refl)
      as (Hact & st' & Hf & Hwf' & (s' & below' & Est' & Hw' & Hne') & Hu').
    cbn [token_of type_] in *. rewrite Hact, Hf.
    now apply IH with s' below'.
Qed.

(** From every stack the parser builds, the tokens of [completion] lead to
    acceptance. *)
Lemma completion_accepted (st : ParserState) (s : State) (below : list State)
  (token : option Token) :
  well_formed st ->
  state_stack st = s :: below ->
  s <> s_end ->
  exists v,
    run_tokens st token (map token_of (completion (state_stack st))) EOF
    = Some (Return v).
Proof.
  intros Hwf Est Hne. rewrite Est. cbn [completion]. rewrite <- Est.
  destruct (wants_operand s) eqn:Hw.
  - assert (Eact : action s (type_ (token_of NUMBER)) = Some (Shift s_number))
      by (destruct s; try discriminate Hw; reflexivity).
    pose proof (feed_token_shift st s s_number below _ Est Eact) as Hf.
    cbn [app map run_tokens]. rewrite Est. unfold has_action. rewrite Eact, Hf.
    apply closers_accepted with s_number (state_stack st); auto.
    + now apply feed_token_ok in Hf.
    + discriminate.
    + cbn [push state_stack unclosed]. now rewrite Est.
  - cbn [app]. now apply closers_accepted with s below.
Qed.

Lemma feed_loop_shifted (fuel : nat) (st st' : ParserState) (t : Token) (v : option Tree) :
  feed_loop fuel st t false = Some (Return (st', v)) ->
  exists s' below', state_stack st' = s' :: below' /\ symbol_of s' = Some (T (type_ t)).
Proof.
  revert st. induction fuel as [|fuel IH]; intros st; cbn [feed_loop]; [discriminate|].
  destruct (state_stack st) as [|state below] eqn:Est; [discriminate|].
  destruct (action state (type_ t)) as [[s'|rule]|] eqn:Eact; [| |discriminate].
  - intros H; injection H as <- _. exists s', (state :: below).
    split; [reflexivity | now apply shift_symbol with state].
  - destruct (callback rule _); [|discriminate].
    destruct (skipn _ (state :: below)) as [|b rest]; [discriminate|].
    destruct (goto b (origin rule)); [|discriminate].
    cbn [andb]. apply IH.
Qed.

Lemma feed_all_invariant (pre : list Token) (st st' : ParserState) (w : list Terminal) :
  well_formed st ->
  yields (state_stack st) w ->
  hd s_init (state_stack st) <> s_end ->
  feed_all st pre = Some st' ->
  well_formed st' /\
  yields (state_stack st') (w ++ map type_ pre) /\
  hd s_init (state_stack st') <> s_end.
Proof.
  revert st w. induction pre as [|t pre IH]; intros st w Hwf Hy Hne; cbn [feed_all map].
  - intros H; injection H as <-. now rewrite app_nil_r.
  - destruct (feed_token st t false) as [[[st1 v]|e]|] eqn:Ef; try discriminate.
    intros H.
    assert (Hwf1 : well_formed st1)
      by (pose proof Ef as Ef'; apply feed_token_ok in Ef'; auto; discriminate).
    pose proof (feed_loop_yields _ _ _ _ _ _ _ Hwf Hy Ef) as Hy1. cbn beta iota in Hy1.
    destruct (feed_loop_shifted _ _ _ _ _ Ef) as (s' & below' & Est1 & Hs).
    apply IH with (w := (w ++ [type_ t])%list) in H; auto.
    + now rewrite <- app_assoc in H.
    + rewrite Est1. cbn [hd]. intros ->. discriminate Hs.
Qed.

Lemma yields_init : yields [start_state] [].
Proof. constructor. Qed.

Lemma feed_all_viable (pre : list Token) (st : ParserState) :
  feed_all {| state_stack := [start_state]; value_stack := [] |} pre = Some st ->
  viable (map type_ pre).
Proof.
  intros H.
  apply (feed_all_invariant pre _ st []) in H as (Hwf & Hy & Hne);
    [|apply well_formed_start | apply yields_init | discriminate].
  destruct (well_formed_top _ Hwf) as (s & below & Est).
  rewrite Est in Hne. cbn [hd] in Hne.
  destruct (completion_accepted st s below None Hwf Est Hne) as [v Hv].
  apply (run_tokens_yields _ _ _ _ _ _ Hwf Hy) in Hv.
  eexists. exact Hv.
Qed.

Lemma stop_from_not_Tok (fuel : nat) (ls ls' : LexerState) (t : Token) :
  List.length (text ls) < fuel ->
  next_token terminals (stop_from fuel ls) <> Tok t ls'.
Proof.
  revert ls. induction fuel as [|fuel IH]; intros ls Hlt; [lia|]. cbn [stop_from].
  destruct (next_token terminals ls) as [t0 ls0| |ls0] eqn:En.
  - apply IH. apply next_token_Tok in En. lia.
  - now rewrite En.
  - now rewrite En.
Qed.

(** A run that raises has fed the parser a part of the tokens; the token
    after that part, if there is one, is the token the parser refuses. *)
Lemma run_tokens_split (toks : list Token) (st : ParserState) (token : option Token)
  (stop : Lexed) (e : PyException) :
  well_formed st ->
  run_tokens st token toks stop = Some (Raise e) ->
  exists pre post st' token',
    toks = (pre ++ post)%list /\ feed_all st pre = Some st' /\
    match post with
    | t :: _ =>
        (forall r, feed_token st' t false <> Some (Return r)) /\
        exists expected, e = UnexpectedToken t expected
    | [] => run_tokens st' token' [] stop = Some (Raise e)
    end.
Proof.
  revert st token. induction toks as [|t toks IH]; intros st token Hwf H.
  - now exists [], [], st, token.
  - cbn [run_tokens] in H.
    destruct (state_stack st) as [|position below] eqn:Est.
    { apply well_formed_top in Hwf as (p & b & E). congruence. }
    destruct (has_action position (type_ t)) eqn:Ha.
    + destruct (feed_token st t false) as [[[st1 v]|e0]|] eqn:Ef; try discriminate.
      * assert (Hwf1 : well_formed st1)
          by (pose proof Ef as Ef'; apply feed_token_ok in Ef'; auto; discriminate).
        destruct (IH st1 (Some t) Hwf1 H) as (pre & post & st' & token' & -> & Hf & Hpost).
        exists (t :: pre), post, st', token'. cbn [feed_all app]. now rewrite Ef.
      * injection H as ->. exists [], (t :: toks), st, token.
        split; [reflexivity|]. split; [reflexivity|]. split.
        -- intros r. rewrite Ef. discriminate.
        -- apply feed_token_ok in Ef; auto. discriminate.
    + injection H as <-. exists [], (t :: toks), st, token.
      split; [reflexivity|]. split; [reflexivity|]. split; [|eexists; reflexivity].
      intros r. unfold feed_token, budget. cbn [feed_loop]. rewrite Est.
      unfold has_action in Ha. destruct (action position (type_ t)); discriminate.
Qed.

Lemma run_tokens_Return_feed_all (l1 l2 : list Token) (st : ParserState)
  (token : option Token) (stop : Lexed) (v : option Tree) :
  run_tokens st token (l1 ++ l2) stop = Some (Return v) ->
  exists st', feed_all st l1 = Some st'.
Proof.
  revert st token. induction l1 as [|t l1 IH]; intros st token; [now exists st|].
  cbn [run_tokens app feed_all].
  destruct (state_stack st) as [|position below]; [discriminate|].
  destruct (has_action position (type_ t)); [|discriminate].
  destruct (feed_token st t false) as [[[st1 v1]|e]|]; try discriminate.
  apply IH.
Qed.

Lemma map_type_token_of (w : list Terminal) : map type_ (map token_of w) = w.
Proof. induction w as [|a w IH]; simpl; now rewrite ?IH. Qed.

(** A token the parser refuses after the tokens [pre] continues no
    sentence that begins with [pre]. *)
Lemma refused_not_viable (pre : list Token) (t : Token) (st : ParserState) :
  feed_all {| state_stack := [start_state]; value_stack := [] |} pre = Some st ->
  (forall r, feed_token st t false <> Some (Return r)) ->
  ~ viable (map type_ pre ++ [type_ t]).
Proof.
  intros Hf Hr [rest Hd].
  assert (E : ((map type_ pre ++ [type_ t]) ++ rest
               = map type_ ((pre ++ [t]) ++ map token_of rest))%list)
    by now rewrite !map_app, map_type_token_of.
  rewrite E in Hd. apply tokens_accepted in Hd as [v Hv].
  apply run_tokens_Return_feed_all in Hv as [st' Hv].
  rewrite feed_all_app, Hf in Hv. cbn [feed_all] in Hv.
  destruct (feed_token st t false) as [[[st1 v1]|e]|] eqn:Ef; try discriminate.
  now apply (Hr (st1, v1)).
Qed.

Lemma parse_split (s : string) (e : PyException) :
  parse s = Some (Raise e) ->
  exists pre post st,
    tokenize s = (pre ++ post)%list /\
    feed_all {| state_stack := [start_state]; value_stack := [] |} pre = Some st /\
    match post with
    | t :: _ =>
        (forall r, feed_token st t false <> Some (Return r)) /\
        type_ t <> END /\
        exists expected, e = UnexpectedToken t expected
    | [] =>
        (exists lex_pos char allowed, e = UnexpectedCharacters lex_pos char allowed) \/
        (exists t expected, e = UnexpectedToken t expected /\ type_ t = END)
    end.
Proof.
  rewrite parse_as_run_tokens.
  remember (next_token terminals
              (stop_from (S (List.length (list_ascii_of_string s)))
                 {| text := list_ascii_of_string s; char_pos := 0 |})) as stop eqn:Estop.
  symmetry in Estop. intros H.
  apply run_tokens_split in H as (pre & post & st & token' & Htok & Hf & Hpost);
    [|apply well_formed_start].
  exists pre, post, st. split; [exact Htok|]. split; [exact Hf|].
  destruct post as [|t post].
  - apply (feed_all_invariant pre _ st []) in Hf as (Hwf & _);
      [|apply well_formed_start | apply yields_init | discriminate].
    cbn [run_tokens] in Hpost.
    destruct (well_formed_top _ Hwf) as (position & below & Est). rewrite Est in Hpost.
    destruct stop as [x ls| |ls].
    + apply stop_from_not_Tok in Estop; [destruct Estop | simpl; lia].
    + destruct (feed_token st _ true) as [[[st' v]|e0]|] eqn:Ef; try discriminate.
      injection Hpost as ->.
      apply feed_token_ok in Ef as [expected ->]; auto; [|now destruct token'].
      right. eexists _, _. split; [reflexivity|]. now destruct token'.
    + injection Hpost as <-. left. eexists _, _, _. reflexivity.
  - destruct Hpost as [Hr Hex]. repeat split; auto.
    pose proof (tokens_from_types (S (List.length (list_ascii_of_string s)))
                  {| text := list_ascii_of_string s; char_pos := 0 |}) as Hty.
    fold (tokenize s) in Hty. rewrite Htok in Hty.
    apply Forall_app in Hty as [_ Hty]. now inversion Hty.
Qed.

(** X8: an unexpected token that the validator reports stands in the
    text at the offset reported, and it is the first token at which the text
    stops being the beginning of a valid expression: the tokens before it
    begin a sentence of the grammar, and with it they begin none. *)
Theorem unexpected_token_first_failure (exc_str : PyException -> string) (expr : string)
  (t : Token) (expected : list Terminal) :
  parse expr = Some (Raise (UnexpectedToken t expected)) ->
  type_ t <> END ->
  validate_expression exc_str expr
    = Some (false,
            Some ("Unexpected token at position " ++ str_int (start_pos t) ++ ": "
                  ++ exc_str (UnexpectedToken t expected))) /\
  substring (start_pos t) (String.length (value t)) expr = value t /\
  exists pre post,
    tokenize expr = (pre ++ t :: post)%list /\
    viable (map type_ pre) /\
    ~ viable (map type_ pre ++ [type_ t]).
Proof.
  intros H Hty. split; [now rewrite (validate_raise _ _ _ H)|].
  apply parse_split in H as (pre & post & st & Htok & Hf & Hpost).
  destruct post as [|t' post].
  - destruct Hpost as [(p & c & a & E) | (t' & ex & E & Hend)]; [discriminate E|].
    injection E as -> _. now destruct Hty.
  - destruct Hpost as (Hr & _ & ex & E). injection E as -> _. split.
    + apply tokenize_substring. rewrite Htok. apply in_or_app. right. now left.
    + exists pre, post. split; [exact Htok|]. split.
      * now apply feed_all_viable with st.
      * now apply refused_not_viable with st.
Qed.

Lemma unexpected_token_first_failure_witness :
  parse "(1 + 2)) * 3" = Some (Raise (UnexpectedToken (mkToken RPAR ")" 7)
                                        [PLUS; MINUS; END])) /\
  substring 7 1 "(1 + 2)) * 3" = ")" /\
  exists pre post,
    tokenize "(1 + 2)) * 3" = (pre ++ mkToken RPAR ")" 7 :: post)%list /\
    viable (map type_ pre) /\
    ~ viable (map type_ pre ++ [RPAR]).
Proof.
  split; [reflexivity|].
  apply (unexpected_token_first_failure (fun _ => "") "(1 + 2)) * 3" (mkToken RPAR ")" 7)
           [PLUS; MINUS; END]); [reflexivity | discriminate].
Defined.

(** X9: an expression that fails at the end of the input is incomplete:
    its tokens are no sentence of the grammar, and they are the beginning
    of one. *)
Theorem end_of_input_incomplete (expr : string) (t : Token) (expected : list Terminal) :
  parse expr = Some (Raise (UnexpectedToken t expected)) ->
  type_ t = END ->
  viable (map type_ (tokenize expr)) /\
  ~ derives (NT start) (map type_ (tokenize expr)).
Proof.
  intros H Hty. split.
  - apply parse_split in H as (pre & post & st & Htok & Hf & Hpost).
    destruct post as [|t' post].
    + rewrite Htok, app_nil_r. now apply feed_all_viable with st.
    + destruct Hpost as (_ & Hne & ex & E). injection E as -> _. now destruct Hne.
  - intros Hd. destruct (parse_END _ _ _ H Hty) as [Hl _].
    destruct (proj2 (parse_accepts expr) (conj Hl Hd)) as [v Hv]. congruence.
Qed.

Lemma end_of_input_incomplete_witness :
  parse "2 * (3 +" = Some (Raise (UnexpectedToken (mkToken END "" 7) [NUMBER; MINUS; LPAR]))
  /\ viable (map type_ (tokenize "2 * (3 +"))
  /\ ~ derives (NT start) (map type_ (tokenize "2 * (3 +")).
Proof.
  split; [reflexivity|].
  apply (end_of_input_incomplete "2 * (3 +" (mkToken END "" 7) [NUMBER; MINUS; LPAR]);
    reflexivity.
Defined.

Lemma stop_from_mono (fuel : nat) (ls : LexerState) :
  char_pos ls <= char_pos (stop_from fuel ls).
Proof.
  revert ls. induction fuel as [|fuel IH]; intros ls; cbn [stop_from]; [lia|].
  destruct (next_token terminals ls) as [t ls'| |ls'] eqn:En; try lia.
  apply next_token_Tok in En. specialize (IH ls'). lia.
Qed.

Lemma tokens_from_before (fuel : nat) (ls : LexerState) (t : Token) :
  In t (tokens_from fuel ls) -> start_pos t < char_pos (stop_from fuel ls).
Proof.
  revert ls. induction fuel as [|fuel IH]; intros ls; cbn [tokens_from stop_from];
    [intros []|].
  destruct (next_token terminals ls) as [t0 ls'| |ls'] eqn:En; [|intros []|intros []].
  apply next_token_Tok in En as (_ & _ & Hlt & _).
  intros [<- | Hin].
  - pose proof (stop_from_mono fuel ls'). lia.
  - now apply IH.
Qed.

(** X10: when the validator reports a character, the tokens the lexer
    has read before that character are the beginning of a valid
    expression: an earlier token that could not stand where it is would have
    been reported instead. *)
Theorem tokens_before_character_viable (expr : string) (p : nat) (c : ascii)
  (allowed : list Terminal) :
  parse expr = Some (Raise (UnexpectedCharacters p c allowed)) ->
  viable (map type_ (tokenize expr)) /\
  forall t, In t (tokenize expr) -> start_pos t < p.
Proof.
  intros H. split.
  - apply parse_split in H as (pre & post & st & Htok & Hf & Hpost).
    destruct post as [|t' post].
    + rewrite Htok, app_nil_r. now apply feed_all_viable with st.
    + destruct Hpost as (_ & _ & ex & E). discriminate E.
  - intros t Hin. rewrite parse_as_run_tokens in H.
    apply run_tokens_characters in H as (ls & Hstop & -> & _); [|apply well_formed_start].
    apply next_token_NoMatch in Hstop as (-> & _).
    apply tokens_from_before in Hin. unfold skip_blanks. cbn [char_pos]. lia.
Qed.

Lemma tokens_before_character_viable_witness :
  parse "1 + $" = Some (Raise (UnexpectedCharacters 4 "$" [NUMBER; MINUS; LPAR])) /\
  viable (map type_ (tokenize "1 + $")) /\
  forall t, In t (tokenize "1 + $") -> start_pos t < 4.
Proof.
  split; [reflexivity|].
  apply (tokens_before_character_viable "1 + $" 4 "$" [NUMBER; MINUS; LPAR]). reflexivity.
Defined.

(* ------------------------------------------------------------------ *)
(** ** Blanks *)

Lemma list_ascii_app (a b : string) :
  list_ascii_of_string (a ++ b) = (list_ascii_of_string a ++ list_ascii_of_string b)%list.
Proof. induction a as [|c a IH]; simpl; now rewrite ?IH. Qed.

Lemma tokens_from_fuel (f1 f2 : nat) (ls : LexerState) :
  List.length (text ls) < f1 -> List.length (text ls) < f2 ->
  tokens_from f1 ls = tokens_from f2 ls /\ stop_from f1 ls = stop_from f2 ls.
Proof.
  revert f2 ls. induction f1 as [|f1 IH]; intros [|f2] ls H1 H2; try lia.
  cbn [tokens_from stop_from].
  destruct (next_token terminals ls) as [t ls'| |ls'] eqn:En; auto.
  apply next_token_Tok in En as (_ & _ & _ & _ & Hlen).
  destruct (IH f2 ls') as [-> ->]; auto; lia.
Qed.

Lemma run_app_short (cls : ascii -> bool) (cs x : list ascii) :
  run cls cs < List.length cs -> run cls (cs ++ x) = run cls cs.
Proof.
  induction cs as [|c cs IH]; simpl; [lia|].
  destruct (cls c); [|reflexivity]. intros H. rewrite IH; [reflexivity | lia].
Qed.

Section TrailingBlanks.

Variable ws : list ascii.
Hypothesis blanks : forallb Common.WS_INLINE_char ws = true.

Lemma stable_lit (a : ascii) : Common.WS_INLINE_char a = false -> stable ws (lit a).
Proof.
  intros Ha [|c cs]; [|reflexivity]. simpl.
  destruct ws as [|c w]; [reflexivity|]. simpl in *.
  apply andb_true_iff in blanks as [Hc _].
  destruct (Ascii.eqb c a) eqn:E; [|reflexivity].
  apply Ascii.eqb_eq in E. congruence.
Qed.

Lemma run_stable (cls : ascii -> bool) (cs : list ascii) :
  (forall c, Common.WS_INLINE_char c = true -> cls c = false) ->
  run cls (cs ++ ws) = run cls cs.
Proof.
  intros Hcls. induction cs as [|c cs IH]; simpl.
  - destruct ws as [|c w]; [reflexivity|]. simpl in *.
    apply andb_true_iff in blanks as [Hc _]. now rewrite (Hcls c Hc).
  - now rewrite IH.
Qed.

Lemma stable_plus (cls : ascii -> bool) :
  (forall c, Common.WS_INLINE_char c = true -> cls c = false) -> stable ws (plus cls).
Proof. intros Hcls cs. unfold plus. now rewrite run_stable. Qed.

Lemma stable_seq (p q : matcher) :
  bounded p -> stable ws p -> stable ws q -> stable ws (seq p q).
Proof.
  intros Hb Hp Hq cs. unfold seq. rewrite Hp.
  destruct (p cs) as [n|] eqn:E; [|reflexivity].
  apply Hb in E. rewrite skipn_app.
  replace (n - List.length cs) with 0 by lia. cbn [skipn]. now rewrite Hq.
Qed.

Lemma stable_alt (p q : matcher) : stable ws p -> stable ws q -> stable ws (alt p q).
Proof. intros Hp Hq cs. unfold alt. now rewrite Hp, Hq. Qed.

Lemma stable_opt (p : matcher) : stable ws p -> stable ws (opt p).
Proof. intros Hp cs. unfold opt. now rewrite Hp. Qed.

Lemma DIGIT_no_blank (c : ascii) : Common.WS_INLINE_char c = true -> Common.DIGIT c = false.
Proof.
  intros H. destruct (Common.DIGIT c) eqn:E; [|reflexivity].
  assert (Hs : starts NUMBER c = true) by (simpl; now rewrite E).
  apply NUMBER_no_blank in Hs. congruence.
Qed.

Lemma stable_INT : stable ws Common.INT.
Proof. apply stable_plus, DIGIT_no_blank. Qed.

Lemma bounded_INT : bounded Common.INT.
Proof. apply bounded_plus. Qed.

Lemma stable_NUMBER : stable ws Common.NUMBER.
Proof.
  pose proof stable_INT as Hi. pose proof bounded_INT as Bi.
  assert (Hs : stable ws Common.SIGNED_INT).
  { apply stable_seq; auto.
    - apply bounded_opt, bounded_alt; apply bounded_lit.
    - apply stable_opt, stable_alt; now apply stable_lit. }
  assert (He : stable ws Common.EXP).
  { apply stable_seq; auto.
    - apply bounded_alt; apply bounded_lit.
    - apply stable_alt; now apply stable_lit. }
  assert (Hd : stable ws Common.DECIMAL).
  { apply stable_alt.
    - apply stable_seq; auto. apply stable_seq; auto.
      + apply bounded_lit.
      + now apply stable_lit.
      + now apply stable_opt.
    - apply stable_seq; auto; [apply bounded_lit | now apply stable_lit]. }
  assert (Bd : bounded Common.DECIMAL).
  { apply bounded_alt.
    - apply bounded_seq; auto. apply bounded_seq; [apply bounded_lit|].
      now apply bounded_opt.
    - apply bounded_seq; auto. apply bounded_lit. }
  apply stable_alt; auto. apply stable_alt.
  - now apply stable_seq.
  - apply stable_seq; auto. now apply stable_opt.
Qed.

Lemma stable_pattern (t : Terminal) : stable ws (pattern t).
Proof.
  destruct t; simpl; try (now apply stable_lit); [apply stable_NUMBER | now intros cs].
Qed.

Lemma scan_stable (ts : list Terminal) (cs : list ascii) :
  scan ts (cs ++ ws) = scan ts cs.
Proof.
  induction ts as [|t ts IH]; simpl; [reflexivity|].
  now rewrite stable_pattern, IH.
Qed.

Lemma next_token_pad (ts : list Terminal) (ls : LexerState) :
  next_token ts (pad ws ls) = pad_lexed ws (next_token ts ls).
Proof.
  unfold next_token, pad. cbn [text char_pos]. rewrite !ignored_run.
  destruct (skipn (run Common.WS_INLINE_char (text ls)) (text ls)) as [|c cs] eqn:E.
  - assert (Hall : forallb Common.WS_INLINE_char (text ls) = true).
    { rewrite <- (firstn_skipn (run Common.WS_INLINE_char (text ls)) (text ls)), E.
      rewrite app_nil_r. apply run_firstn. }
    rewrite run_app_all by exact Hall.
    assert (Hr : run Common.WS_INLINE_char ws = List.length ws).
    { rewrite <- (app_nil_r ws) at 1. rewrite run_app_all by exact blanks. simpl. lia. }
    rewrite Hr, <- length_app, skipn_all. reflexivity.
  - assert (Hrun : run Common.WS_INLINE_char (text ls ++ ws)
                   = run Common.WS_INLINE_char (text ls)).
    { apply run_app_short.
      destruct (Nat.lt_ge_cases (run Common.WS_INLINE_char (text ls))
                  (List.length (text ls))) as [Hlt | Hge]; [exact Hlt|].
      rewrite skipn_all2 in E by exact Hge. discriminate E. }
    rewrite Hrun, skipn_app, E.
    pose proof (run_le Common.WS_INLINE_char (text ls)) as Hle.
    replace (run Common.WS_INLINE_char (text ls) - List.length (text ls)) with 0 by lia.
    cbn [skipn app]. change (c :: (cs ++ ws)%list) with ((c :: cs) ++ ws)%list.
    rewrite scan_stable.
    destruct (scan ts (c :: cs)) as [[ty n]|] eqn:Es; [|reflexivity].
    apply scan_inv in Es as [_ Hp]. apply bounded_pattern in Hp.
    cbn [pad_lexed]. unfold pad. cbn [text char_pos].
    rewrite firstn_app, skipn_app.
    replace (n - List.length (c :: cs)) with 0 by lia.
    cbn [firstn skipn]. now rewrite app_nil_r.
Qed.

Lemma tokens_from_pad (fuel : nat) (ls : LexerState) :
  tokens_from fuel (pad ws ls) = tokens_from fuel ls /\
  stop_from fuel (pad ws ls) = pad ws (stop_from fuel ls).
Proof.
  revert ls. induction fuel as [|fuel IH]; intros ls; cbn [tokens_from stop_from]; auto.
  rewrite next_token_pad.
  destruct (next_token terminals ls) as [t ls'| |ls']; cbn [pad_lexed]; auto.
  destruct (IH ls') as [-> ->]. auto.
Qed.

Lemma run_tokens_pad (toks : list Token) (st : ParserState) (token : option Token)
  (stop : Lexed) :
  (forall ls, stop = NoMatch ls -> text ls <> []) ->
  run_tokens st token toks (pad_lexed ws stop) = run_tokens st token toks stop.
Proof.
  intros Hstop. revert st token. induction toks as [|t toks IH]; intros st token;
    cbn [run_tokens]; destruct (state_stack st) as [|position below]; auto.
  - destruct stop as [x ls| |ls]; cbn [pad_lexed]; auto.
    unfold pad. cbn [text char_pos].
    pose proof (Hstop ls eq_refl) as Hne.
    destruct (text ls) as [|c cs]; [now destruct Hne | reflexivity].
  - destruct (has_action position (type_ t)); auto.
    destruct (feed_token st t false) as [[[st' v]|e]|]; auto.
Qed.

Lemma parse_trailing_blanks (s : string) :
  parse (s ++ string_of_list_ascii ws) = parse s.
Proof.
  rewrite !parse_as_run_tokens. unfold tokenize.
  rewrite list_ascii_app, list_ascii_of_string_of_list_ascii.
  set (cs := list_ascii_of_string s).
  change {| text := (cs ++ ws)%list; char_pos := 0 |}
    with (pad ws {| text := cs; char_pos := 0 |}).
  destruct (tokens_from_pad (S (List.length (cs ++ ws))) {| text := cs; char_pos := 0 |})
    as [-> ->].
  destruct (tokens_from_fuel (S (List.length (cs ++ ws))) (S (List.length cs))
              {| text := cs; char_pos := 0 |}) as [-> ->];
    [rewrite length_app; simpl; lia | simpl; lia |].
  rewrite next_token_pad. apply run_tokens_pad.
  intros ls H. now apply next_token_NoMatch in H.
Qed.

End TrailingBlanks.

Lemma next_token_relocate (ts : list Terminal) (ls : LexerState) (k : nat) :
  next_token ts (relocate k ls) = relocate_lexed k (next_token ts ls).
Proof.
  unfold next_token, relocate. cbn [text char_pos].
  destruct (skipn (ignored (text ls)) (text ls)) as [|c cs]; [reflexivity|].
  destruct (scan ts (c :: cs)) as [[ty n]|]; cbn [relocate_lexed]; unfold shift, relocate;
    cbn [type_ value start_pos text char_pos]; now rewrite !Nat.add_assoc.
Qed.

Lemma tokens_from_relocate (fuel : nat) (ls : LexerState) (k : nat) :
  tokens_from fuel (relocate k ls) = map (shift k) (tokens_from fuel ls) /\
  stop_from fuel (relocate k ls) = relocate k (stop_from fuel ls).
Proof.
  revert ls. induction fuel as [|fuel IH]; intros ls; cbn [tokens_from stop_from]; auto.
  rewrite next_token_relocate.
  destruct (next_token terminals ls) as [t ls'| |ls']; cbn [relocate_lexed map]; auto.
  destruct (IH ls') as [-> ->]. auto.
Qed.

Lemma next_token_leading (ts : list Terminal) (b cs : list ascii) :
  forallb Common.WS_INLINE_char b = true ->
  next_token ts {| text := (b ++ cs)%list; char_pos := 0 |}
  = next_token ts {| text := cs; char_pos := List.length b |}.
Proof.
  intros Hb. unfold next_token. cbn [text char_pos].
  rewrite !ignored_run, run_app_all by exact Hb.
  assert (E : skipn (List.length b + run Common.WS_INLINE_char cs) (b ++ cs)
              = skipn (run Common.WS_INLINE_char cs) cs)
    by (rewrite Nat.add_comm, <- skipn_skipn, skipn_length_app; reflexivity).
  rewrite E. reflexivity.
Qed.

Lemma tokens_from_leading (fuel : nat) (b cs : list ascii) :
  forallb Common.WS_INLINE_char b = true ->
  tokens_from fuel {| text := (b ++ cs)%list; char_pos := 0 |}
  = tokens_from fuel {| text := cs; char_pos := List.length b |} /\
  next_token terminals (stop_from fuel {| text := (b ++ cs)%list; char_pos := 0 |})
  = next_token terminals (stop_from fuel {| text := cs; char_pos := List.length b |}).
Proof.
  intros Hb. pose proof (next_token_leading terminals b cs Hb) as Hn.
  destruct fuel as [|fuel]; cbn [tokens_from stop_from]; [now split|].
  rewrite Hn.
  destruct (next_token terminals {| text := cs; char_pos := List.length b |}) eqn:E;
    split; auto; congruence.
Qed.

(** The tokens and the end of the text [b ++ s], for blanks [b], are those
    of [s], further on by the length of [b]. *)
Lemma tokenize_leading (b : list ascii) (s : string) :
  forallb Common.WS_INLINE_char b = true ->
  tokenize (string_of_list_ascii b ++ s) = map (shift (List.length b)) (tokenize s) /\
  next_token terminals
    (stop_from (S (List.length (list_ascii_of_string (string_of_list_ascii b ++ s))))
       {| text := list_ascii_of_string (string_of_list_ascii b ++ s); char_pos := 0 |})
  = relocate_lexed (List.length b)
      (next_token terminals
         (stop_from (S (List.length (list_ascii_of_string s)))
            {| text := list_ascii_of_string s; char_pos := 0 |})).
Proof.
  intros Hb. unfold tokenize.
  rewrite list_ascii_app, list_ascii_of_string_of_list_ascii.
  set (cs := list_ascii_of_string s).
  destruct (tokens_from_leading (S (List.length (b ++ cs))) b cs Hb) as [-> ->].
  change {| text := cs; char_pos := List.length b |}
    with {| text := cs; char_pos := List.length b + 0 |} || idtac.
  assert (E : {| text := cs; char_pos := List.length b |}
              = relocate (List.length b) {| text := cs; char_pos := 0 |})
    by (unfold relocate; cbn [text char_pos]; now rewrite Nat.add_0_r).
  rewrite E.
  destruct (tokens_from_relocate (S (List.length (b ++ cs))) {| text := cs; char_pos := 0 |}
              (List.length b)) as [-> ->].
  destruct (tokens_from_fuel (S (List.length (b ++ cs))) (S (List.length cs))
              {| text := cs; char_pos := 0 |}) as [-> ->];
    [rewrite length_app; simpl; lia | simpl; lia |].
  now rewrite next_token_relocate.
Qed.

Lemma child_filter_shift (k : nat) (syms : list Symbol) (children : list Tree) :
  child_filter syms (map (shift_tree k) children)
  = option_map (map (shift_tree k)) (child_filter syms children).
Proof.
  revert children. induction syms as [|sym syms IH]; intros [|c children]; try reflexivity.
  cbn [child_filter map]. rewrite IH.
  destruct (child_filter syms children) as [rest|]; [|reflexivity].
  destruct sym as [t|n]; [destruct (filter_out t)|]; reflexivity.
Qed.

Lemma callback_shift (k : nat) (r : Rule) (children : list Tree) :
  callback r (map (shift_tree k) children)
  = option_map (shift_tree k) (callback r children).
Proof.
  unfold callback. rewrite child_filter_shift.
  destruct (child_filter (expansion r) children) as [kept|]; [|reflexivity].
  cbn [option_map]. destruct (alias r); [reflexivity|].
  destruct kept as [|c [|c' kept]]; reflexivity.
Qed.

Lemma feed_loop_shift (k fuel : nat) (st : ParserState) (t : Token) (is_end : bool) :
  feed_loop fuel (shift_state k st) (shift k t) is_end
  = shift_result (fun r : ParserState * option Tree =>
                    (shift_state k (fst r), option_map (shift_tree k) (snd r)))
      k (feed_loop fuel st t is_end).
Proof.
  revert st. induction fuel as [|fuel IH]; intros st; [reflexivity|].
  cbn [feed_loop shift_state state_stack value_stack shift type_].
  destruct (state_stack st) as [|state below] eqn:Est; [reflexivity|].
  destruct (action state (type_ t)) as [[s'|rule]|]; [| |reflexivity].
  - destruct is_end; [reflexivity|]. cbn [shift_result]. unfold shift_state.
    reflexivity.
  - rewrite firstn_map, <- map_rev, callback_shift, skipn_map.
    destruct (callback rule _) as [v|]; [|reflexivity]. cbn [option_map].
    destruct (skipn _ (state :: below)) as [|b rest] eqn:Es; [reflexivity|].
    destruct (goto b (origin rule)) as [new_state|]; [|reflexivity].
    destruct (is_end && State_eqb new_state end_state); [reflexivity|].
    rewrite <- IH. reflexivity.
Qed.

Lemma feed_token_shift_by (k : nat) (st : ParserState) (t : Token) (is_end : bool) :
  feed_token (shift_state k st) (shift k t) is_end
  = shift_result (fun r : ParserState * option Tree =>
                    (shift_state k (fst r), option_map (shift_tree k) (snd r)))
      k (feed_token st t is_end).
Proof. unfold feed_token. apply feed_loop_shift. Qed.

(** The parser on tokens further on in the text: the same run, with the
    trees and the exceptions further on.  The end-of-input token takes part
    in this when it borrows its position from a token. *)
Lemma run_tokens_shift (k : nat) (toks : list Token) (st : ParserState)
  (token : option Token) (stop : Lexed) :
  (token = None -> toks = [] -> stop <> EOF) ->
  run_tokens (shift_state k st) (option_map (shift k) token) (map (shift k) toks)
    (relocate_lexed k stop)
  = shift_result (option_map (shift_tree k)) k (run_tokens st token toks stop).
Proof.
  revert st token. induction toks as [|t toks IH]; intros st token Hnone;
    cbn [run_tokens map];
    change (state_stack (shift_state k st)) with (state_stack st);
    destruct (state_stack st) as [|position below] eqn:Est; try reflexivity.
  - destruct stop as [x ls| |ls]; try reflexivity.
    destruct token as [t|]; [|now destruct (Hnone eq_refl eq_refl)].
    cbn [option_map relocate_lexed].
    change (new_borrow_pos END "" (shift k t)) with (shift k (new_borrow_pos END "" t)).
    rewrite feed_token_shift_by.
    destruct (feed_token st (new_borrow_pos END "" t) true) as [[[st' v]|e]|]; reflexivity.
  - change (type_ (shift k t)) with (type_ t).
    destruct (has_action position (type_ t)); [|reflexivity].
    rewrite feed_token_shift_by.
    destruct (feed_token st t false) as [[[st' v]|e]|]; try reflexivity.
    cbn [shift_result fst]. apply (IH st' (Some t)). discriminate.
Qed.

Lemma filter_blanks (l : list ascii) :
  forallb Common.WS_INLINE_char l = true -> filter no_blank l = [].
Proof.
  induction l as [|c l IH]; simpl; [reflexivity|].
  intros H. apply andb_true_iff in H as [Hc Hl]. unfold no_blank at 1.
  rewrite Hc. now apply IH.
Qed.

Lemma filter_no_blanks (l : list ascii) :
  forallb no_blank l = true -> filter no_blank l = l.
Proof.
  induction l as [|c l IH]; simpl; [reflexivity|].
  intros H. apply andb_true_iff in H as [Hc Hl]. rewrite Hc. now rewrite IH.
Qed.

Lemma next_token_cover (ts : list Terminal) (ls ls' : LexerState) (t : Token) :
  next_token ts ls = Tok t ls' ->
  filter no_blank (text ls)
  = (list_ascii_of_string (value t) ++ filter no_blank (text ls'))%list.
Proof.
  unfold next_token.
  destruct (skipn (ignored (text ls)) (text ls)) as [|c cs] eqn:E; [discriminate|].
  destruct (scan ts (c :: cs)) as [[ty n]|] eqn:Es; [|discriminate].
  intros H. injection H as <- <-. cbn [text value].
  apply scan_inv in Es as [_ Hp]. apply pattern_no_blank in Hp.
  rewrite list_ascii_of_string_of_list_ascii.
  rewrite <- (firstn_skipn (ignored (text ls)) (text ls)) at 1.
  rewrite E, <- (firstn_skipn n (c :: cs)) at 1.
  rewrite !filter_app, filter_blanks, (filter_no_blanks _ Hp); [reflexivity|].
  rewrite ignored_run. apply run_firstn.
Qed.

Lemma tokens_from_cover (fuel : nat) (ls : LexerState) :
  filter no_blank (text ls)
  = (List.concat (map (fun t => list_ascii_of_string (value t)) (tokens_from fuel ls))
     ++ filter no_blank (text (stop_from fuel ls)))%list.
Proof.
  revert ls. induction fuel as [|fuel IH]; intros ls; cbn [tokens_from stop_from];
    [reflexivity|].
  destruct (next_token terminals ls) as [t ls'| |ls'] eqn:En; try reflexivity.
  cbn [map List.concat]. rewrite <- app_assoc, <- IH. now apply next_token_cover in En.
Qed.

Lemma next_token_EOF_blanks (ts : list Terminal) (ls : LexerState) :
  next_token ts ls = EOF -> forallb Common.WS_INLINE_char (text ls) = true.
Proof.
  unfold next_token.
  destruct (skipn (ignored (text ls)) (text ls)) as [|c cs] eqn:E.
  - intros _. rewrite <- (firstn_skipn (ignored (text ls)) (text ls)), E, app_nil_r.
    rewrite ignored_run. apply run_firstn.
  - destruct (scan ts (c :: cs)) as [[ty n]|]; discriminate.
Qed.

(** X11: the tokens are the text without its blanks: when the lexer reads
    a text to its end, the texts of the tokens, one after the other, are the
    text with the spaces and tabs taken out, and every token stands in the
    text at its offset. *)
Theorem tokens_cover_text (s : string) :
  lexed_whole s ->
  List.concat (map (fun t => list_ascii_of_string (value t)) (tokenize s))
  = filter no_blank (list_ascii_of_string s) /\
  forall t, In t (tokenize s) ->
    substring (start_pos t) (String.length (value t)) s = value t.
Proof.
  intros H. split; [|apply tokenize_substring].
  unfold lexed_whole in H. apply next_token_EOF_blanks, filter_blanks in H.
  unfold tokenize.
  pose proof (tokens_from_cover (S (List.length (list_ascii_of_string s)))
                {| text := list_ascii_of_string s; char_pos := 0 |}) as Hc.
  cbn [text] in Hc. cbv zeta in H. rewrite H, app_nil_r in Hc. now symmetry.
Qed.

Lemma tokens_cover_text_witness :
  lexed_whole " 12 *( 3.5" /\
  List.concat (map (fun t => list_ascii_of_string (value t)) (tokenize " 12 *( 3.5"))
  = list_ascii_of_string "12*(3.5".
Proof.
  split; [reflexivity|].
  apply (tokens_cover_text " 12 *( 3.5"). reflexivity.
Defined.

(** X12: blanks after a text change neither the verdict nor the place of
    an error: the parser gives the same tree or raises the same exception
    (the same token or character, at the same offset, with the same expected
    terminals), the text is valid with the blanks exactly when it is valid
    without them, and an error comes from the same [except] clause with the
    same position.  The text the library gives the exception shows the
    input around the error, so it may differ between the two inputs:
    [exc_str] renders the exception for the text with the blanks and
    [exc_str'] for the text without them.  So a text of blanks is reported
    like the empty text, and an error at the end of the input is reported at
    the last token and not after the blanks. *)
Theorem trailing_blanks (exc_str exc_str' : PyException -> string) (expr blanks : string) :
  forallb Common.WS_INLINE_char (list_ascii_of_string blanks) = true ->
  parse (expr ++ blanks) = parse expr /\
  (validate_expression exc_str (expr ++ blanks) = Some (true, None) <->
   validate_expression exc_str' expr = Some (true, None)) /\
  forall e,
    parse expr = Some (Raise e) ->
    validate_expression exc_str (expr ++ blanks)
    = Some (false, Some (error_message exc_str e)) /\
    validate_expression exc_str' expr
    = Some (false, Some (error_message exc_str' e)).
Proof.
  intros H.
  assert (E : parse (expr ++ blanks) = parse expr).
  { rewrite <- (string_of_list_ascii_of_string blanks). now apply parse_trailing_blanks. }
  split; [exact E|]. unfold validate_expression. rewrite E. split.
  - destruct (parse expr) as [[v|e]|]; split; intros H0; try reflexivity; discriminate H0.
  - intros e ->. now split.
Qed.

Lemma trailing_blanks_witness :
  forallb Common.WS_INLINE_char (list_ascii_of_string "   ") = true /\
  parse ("(1+2" ++ "   ") = Some (Raise (UnexpectedToken (mkToken END "" 3) [PLUS; MINUS; RPAR])) /\
  validate_expression (fun _ => "") ("(1+2" ++ "   ")
  = Some (false, Some "Unexpected token at position 3: ").
Proof.
  split; [reflexivity|].
  pose proof (trailing_blanks (fun _ => "") (fun _ => "") "(1+2" "   " eq_refl) as H.
  destruct H as (E & _ & H). split.
  - rewrite E. reflexivity.
  - exact (proj1 (H (UnexpectedToken (mkToken END "" 3) [PLUS; MINUS; RPAR]) eq_refl)).
Defined.

Lemma parse_leading_blanks (b : list ascii) (s : string) :
  forallb Common.WS_INLINE_char b = true ->
  tokenize s <> [] \/ ~ lexed_whole s ->
  parse (string_of_list_ascii b ++ s)
  = shift_result (option_map (shift_tree (List.length b))) (List.length b) (parse s).
Proof.
  intros Hb Hne. destruct (tokenize_leading b s Hb) as [Htok Hstop].
  rewrite !parse_as_run_tokens, Htok, Hstop.
  apply (run_tokens_shift (List.length b) (tokenize s)
           {| state_stack := [start_state]; value_stack := [] |} None).
  intros _ Hnil Heof. destruct Hne as [Hne | Hne]; [now destruct Hne|].
  now apply Hne.
Qed.

(** X13: blanks before a text move everything on by their number: the
    tokens are those of the text, each further on; the text is valid with
    the blanks exactly when it is valid without them; and an error is
    reported further on by the number of blanks.  (A text without a token
    that the lexer reads to its end, which is a text of blanks, is excepted:
    it is reported at offset 0.) *)
Theorem leading_blanks (exc_str : PyException -> string) (expr blanks : string) :
  forallb Common.WS_INLINE_char (list_ascii_of_string blanks) = true ->
  tokenize expr <> [] \/ ~ lexed_whole expr ->
  tokenize (blanks ++ expr) = map (shift (String.length blanks)) (tokenize expr) /\
  (validate_expression exc_str (blanks ++ expr) = Some (true, None) <->
   validate_expression exc_str expr = Some (true, None)) /\
  forall e p,
    parse expr = Some (Raise e) -> pos_in_stream e = Some p ->
    parse (blanks ++ expr) = Some (Raise (shift_exception (String.length blanks) e)) /\
    pos_in_stream (shift_exception (String.length blanks) e)
    = Some (String.length blanks + p).
Proof.
  intros Hb Hne.
  pose proof (proj1 (tokenize_leading _ expr Hb)) as Htok.
  pose proof (parse_leading_blanks _ expr Hb Hne) as Hparse.
  rewrite string_of_list_ascii_of_string, length_list_ascii in Htok, Hparse.
  split; [exact Htok|]. split.
  - unfold validate_expression. rewrite Hparse.
    destruct (parse expr) as [[v|e]|]; cbn [shift_result]; split; intros H; try exact H;
      discriminate H.
  - intros e p He Hp. rewrite Hparse, He. cbn [shift_result]. split; [reflexivity|].
    destruct e; try discriminate Hp; simpl in *; now injection Hp as ->.
Qed.

Lemma leading_blanks_witness :
  forallb Common.WS_INLINE_char (list_ascii_of_string "  ") = true /\
  (tokenize "3 + * 4" <> [] \/ ~ lexed_whole "3 + * 4") /\
  parse ("  " ++ "3 + * 4")
  = Some (Raise (UnexpectedToken (mkToken STAR "*" 6) [NUMBER; MINUS; LPAR])).
Proof.
  assert (Hne : tokenize "3 + * 4" <> [] \/ ~ lexed_whole "3 + * 4")
    by (left; discriminate).
  split; [reflexivity|]. split; [exact Hne|].
  pose proof (leading_blanks (fun _ => "") "3 + * 4" "  " eq_refl Hne) as H.
  destruct H as (_ & _ & H).
  specialize (H (UnexpectedToken (mkToken STAR "*" 4) [NUMBER; MINUS; LPAR]) 4
                eq_refl eq_refl).
  destruct H as [H _]. exact H.
Defined.

(* ------------------------------------------------------------------ *)
(** ** The offset of an error, and the numbers *)

Lemma Terminal_END_dec (t : Terminal) : {t = END} + {t <> END}.
Proof. destruct t; (now left) || (right; discriminate). Qed.

Lemma get_Some (s : string) (p : nat) (c : ascii) :
  String.get p s = Some c -> p < String.length s.
Proof.
  rewrite get_list, <- length_list_ascii. intros H.
  apply nth_error_Some. congruence.
Qed.

(** X14: the offset the validator reports lies inside the text: it is the
    offset of one of its characters, never the length of the text, unless
    the text is empty. *)
Theorem position_inside_text (exc_str : PyException -> string) (expr message : string) :
  validate_expression exc_str expr = Some (false, Some message) ->
  expr <> "" ->
  exists e p,
    parse expr = Some (Raise e) /\ pos_in_stream e = Some p /\
    p < String.length expr /\
    message = error_message exc_str e.
Proof.
  intros H Hne. apply validate_false_inv in H as (e & He & Hm). injection Hm as ->.
  destruct (parse_raise_kind _ _ He) as [(t & expected & ->) | (p & c & allowed & ->)].
  - exists (UnexpectedToken t expected), (start_pos t). repeat split; auto.
    destruct (Terminal_END_dec (type_ t)) as [E | E].
    + now apply parse_END_inside with expected.
    + apply parse_split in He as (pre & post & st & Htok & _ & Hpost).
      destruct post as [|t' post].
      * destruct Hpost as [(p & c & a & E') | (t' & ex & E' & Hend)]; [discriminate E'|].
        injection E' as -> _. now destruct E.
      * destruct Hpost as (_ & _ & ex & E'). injection E' as -> _.
        assert (Hin : In t' (tokenize expr))
          by (rewrite Htok; apply in_or_app; right; now left).
        apply tokens_from_extent in Hin. unfold extent in Hin. simpl in Hin.
        now rewrite length_list_ascii in Hin.
  - exists (UnexpectedCharacters p c allowed), p. repeat split; auto.
    apply parse_characters in He as (Hg & _). now apply get_Some with c.
Qed.

Lemma position_inside_text_witness :
  validate_expression (fun _ => "") "7 *" = Some (false, Some "Unexpected token at position 2: ")
  /\ exists e p,
       parse "7 *" = Some (Raise e) /\ pos_in_stream e = Some p /\
       p < String.length "7 *" /\
       "Unexpected token at position 2: " = error_message (fun _ => "") e.
Proof.
  split; [reflexivity|].
  apply (position_inside_text (fun _ => "") "7 *" "Unexpected token at position 2: ");
    [reflexivity | discriminate].
Defined.

Lemma tokenize_number (s : string) :
  number_text (list_ascii_of_string s) -> tokenize s = [mkToken NUMBER s 0].
Proof.
  intros H. apply NUMBER_complete in H. unfold tokenize.
  destruct (list_ascii_of_string s) as [|c cs] eqn:E.
  - apply positive_NUMBER in H. simpl in H. lia.
  - apply NUMBER_starts in H as Hc. apply NUMBER_no_blank in Hc.
    cbn [List.length tokens_from]. unfold next_token at 1. cbn [text char_pos].
    rewrite ignored_run. cbn [run]. rewrite Hc. cbn [skipn].
    change terminals with (NUMBER :: [PLUS; MINUS; STAR; SLASH; LPAR; RPAR]).
    cbn [scan pattern]. rewrite H.
    rewrite firstn_all, skipn_all, <- E, string_of_list_ascii_of_string.
    destruct (List.length cs); reflexivity.
Qed.

(** X15: a text is one NUMBER token exactly when it is an integer part of
    digits, then an optional "." with digits, then an optional exponent
    ("e" or "E", an optional sign, at least one digit), with a digit in the
    integer part or after the "."; such a text is a valid expression.  So
    "1.", ".5" and "1e5" are numbers, and ".", "e5" and "+1" are not. *)
Theorem number_literals (exc_str : PyException -> string) (s : string) :
  (tokenize s = [mkToken NUMBER s 0] <-> number_text (list_ascii_of_string s)) /\
  (number_text (list_ascii_of_string s) ->
   validate_expression exc_str s = Some (true, None)).
Proof.
  split; [split|].
  - unfold tokenize. cbn [tokens_from].
    destruct (next_token terminals _) as [t ls'| |ls'] eqn:En; try discriminate.
    intros H. injection H as -> _.
    apply token_number_text in En; [exact En | reflexivity].
  - apply tokenize_number.
  - intros H. apply parse_number in H. exact (validate_return exc_str s _ H).
Qed.

Lemma number_literals_witness :
  number_text (list_ascii_of_string "1.e5") /\
  tokenize "1.e5" = [mkToken NUMBER "1.e5" 0] /\
  ~ number_text (list_ascii_of_string ".") /\
  ~ number_text (list_ascii_of_string "+1").
Proof.
  assert (H : tokenize "1.e5" = [mkToken NUMBER "1.e5" 0]) by reflexivity.
  split; [|split; [exact H|split]].
  - apply (proj1 (proj1 (number_literals (fun _ => "") "1.e5"))). exact H.
  - intros N. apply (proj2 (proj1 (number_literals (fun _ => "") "."))) in N.
    discriminate N.
  - intros N. apply (proj2 (proj1 (number_literals (fun _ => "") "+1"))) in N.
    discriminate N.
Defined.

(* ================================================================== *)
(** * The window *)

(* ------------------------------------------------------------------ *)
(** ** [str.strip] *)

Lemma lstrip_nil_iff (cs : list ascii) :
  lstrip cs = [] <-> forallb isspace cs = true.
Proof.
  induction cs as [|c cs IH]; simpl; [tauto|].
  destruct (isspace c); simpl; [exact IH|]. split; discriminate.
Qed.

Lemma lstrip_head (cs r : list ascii) (c : ascii) :
  lstrip cs = c :: r -> isspace c = false.
Proof.
  induction cs as [|a cs IH]; simpl; [discriminate|].
  destruct (isspace a) eqn:Ea; [exact IH|]. now intros [= <- _].
Qed.

Lemma lstrip_app_blank (ws cs : list ascii) :
  forallb isspace ws = true -> lstrip (ws ++ cs) = lstrip cs.
Proof.
  induction ws as [|a ws IH]; simpl; [reflexivity|].
  destruct (isspace a); [exact IH | discriminate].
Qed.

Lemma lstrip_app (cs x : list ascii) :
  lstrip cs <> [] -> lstrip (cs ++ x) = (lstrip cs ++ x)%list.
Proof.
  induction cs as [|a cs IH]; simpl; [now intros []|].
  destruct (isspace a); [exact IH | reflexivity].
Qed.

Lemma lstrip_idem (cs : list ascii) : lstrip (lstrip cs) = lstrip cs.
Proof.
  destruct (lstrip cs) as [|c r] eqn:E; [reflexivity|].
  apply lstrip_head in E. simpl. now rewrite E.
Qed.

Lemma forallb_rev {A : Type} (f : A -> bool) (l : list A) :
  forallb f (rev l) = forallb f l.
Proof.
  induction l as [|a l IH]; [reflexivity|].
  simpl. rewrite forallb_app, IH. simpl. rewrite andb_true_r. apply andb_comm.
Qed.

Lemma rstrip_nil_iff (cs : list ascii) :
  rstrip cs = [] <-> forallb isspace cs = true.
Proof.
  unfold rstrip. rewrite <- (forallb_rev isspace cs), <- lstrip_nil_iff.
  split; intros H.
  - apply (f_equal (@rev ascii)) in H. now rewrite rev_involutive in H.
  - now rewrite H.
Qed.

Lemma rstrip_app_blank (cs ws : list ascii) :
  forallb isspace ws = true -> rstrip (cs ++ ws) = rstrip cs.
Proof.
  intros H. unfold rstrip. rewrite rev_app_distr, lstrip_app_blank; [reflexivity|].
  now rewrite forallb_rev.
Qed.

Lemma string_nil (cs : list ascii) : string_of_list_ascii cs = "" <-> cs = [].
Proof.
  split; [|now intros ->]. destruct cs; [reflexivity | discriminate].
Qed.

(** [strip] gives the empty string exactly for a text of whitespace. *)
Lemma strip_empty_iff (s : string) :
  strip s = "" <-> forallb isspace (list_ascii_of_string s) = true.
Proof.
  unfold strip. rewrite string_nil, rstrip_nil_iff, <- lstrip_nil_iff, <- lstrip_nil_iff.
  now rewrite lstrip_idem.
Qed.

(** Whitespace around a text does not change what [strip] gives. *)
Lemma strip_padding (ws ws' : list ascii) (s : string) :
  forallb isspace ws = true -> forallb isspace ws' = true ->
  strip (string_of_list_ascii (ws ++ list_ascii_of_string s ++ ws')) = strip s.
Proof.
  intros H H'. unfold strip. rewrite list_ascii_of_string_of_list_ascii.
  rewrite lstrip_app_blank by exact H. f_equal.
  destruct (lstrip (list_ascii_of_string s)) as [|c r] eqn:E.
  - apply lstrip_nil_iff in E.
    assert (E' : lstrip (list_ascii_of_string s ++ ws') = []).
    { apply lstrip_nil_iff. now rewrite forallb_app, E, H'. }
    now rewrite E'.
  - rewrite lstrip_app, E by (rewrite E; discriminate).
    now apply rstrip_app_blank.
Qed.

(** What [strip] gives neither begins nor ends with whitespace. *)
Lemma strip_ends (s : string) (c : ascii) :
  (String.get 0 (strip s) = Some c \/
   String.get (String.length (strip s) - 1) (strip s) = Some c) ->
  isspace c = false.
Proof.
  rewrite !get_list. unfold strip. rewrite list_ascii_of_string_of_list_ascii.
  rewrite <- (length_list_ascii (string_of_list_ascii _)).
  rewrite list_ascii_of_string_of_list_ascii.
  set (l := lstrip (list_ascii_of_string s)).
  intros [H | H].
  - unfold rstrip in H.
    destruct (lstrip (rev l)) as [|a r] eqn:E; [discriminate H|].
    assert (Hl : l <> []).
    { intros El. rewrite El in E. discriminate E. }
    destruct l as [|b l'] eqn:El; [now destruct Hl|].
    assert (Hb : isspace b = false) by (apply lstrip_head with (list_ascii_of_string s) l';
                                        exact El).
    assert (Hr : exists x, rev (a :: r) = b :: x).
    { assert (Ex : exists y, rev (b :: l') = (y ++ a :: r)%list).
      { clear -E. revert E. generalize (rev (b :: l')). intros m.
        induction m as [|d m IH]; simpl; [discriminate|].
        destruct (isspace d).
        - intros E. destruct (IH E) as [y ->]. now exists (d :: y).
        - intros ->. now exists []. }
      destruct Ex as [y Ex]. apply (f_equal (@rev ascii)) in Ex.
      rewrite rev_involutive, rev_app_distr in Ex.
      destruct (rev (a :: r)) as [|b' x] eqn:Er.
      - apply (f_equal (@List.length ascii)) in Er. rewrite length_rev in Er. discriminate Er.
      - injection Ex as <- _. now exists x. }
    destruct Hr as [x Hr]. rewrite Hr in H. now injection H as <-.
  - unfold rstrip in H. rewrite length_rev in H.
    destruct (lstrip (rev l)) as [|a r] eqn:E; [discriminate H|].
    apply lstrip_head in E.
    change (rev (a :: r)) with (rev r ++ [a])%list in H.
    rewrite nth_error_app2 in H by (cbn [List.length]; rewrite length_rev; lia).
    cbn [List.length] in H. rewrite length_rev in H.
    replace (S (List.length r) - 1 - List.length r) with 0 in H by lia.
    now injection H as <-.
Qed.

(* ------------------------------------------------------------------ *)
(** ** [check], [clear] and [insert_example] *)

Lemma eqb_empty (s : string) : String.eqb s "" = true <-> s = "".
Proof. apply String.eqb_eq. Qed.

Lemma check_empty (exc_str : PyException -> string) (self : CFGValidatorApp) :
  strip (input_var self) = "" ->
  check exc_str self
  = Some (self, [("Empty input", "Please enter an expression to validate.")]).
Proof. unfold check. now intros ->. Qed.

Lemma check_valid (exc_str : PyException -> string) (self : CFGValidatorApp) :
  strip (input_var self) <> "" ->
  validate_expression exc_str (strip (input_var self)) = Some (true, None) ->
  check exc_str self
  = Some (append_result ("[OK] " ++ strip (input_var self))
            (set_status "Valid expression" self), []).
Proof.
  unfold check. intros Hne ->.
  destruct (String.eqb (strip (input_var self)) "") eqn:E; [|reflexivity].
  apply String.eqb_eq in E. now destruct Hne.
Qed.

Lemma check_invalid (exc_str : PyException -> string) (self : CFGValidatorApp)
  (err : option string) :
  strip (input_var self) <> "" ->
  validate_expression exc_str (strip (input_var self)) = Some (false, err) ->
  check exc_str self
  = Some (append_result ("[ERROR] " ++ strip (input_var self) ++ " -> " ++ str_error err)
            (set_status "Invalid expression" self), []).
Proof.
  unfold check. intros Hne ->.
  destruct (String.eqb (strip (input_var self)) "") eqn:E; [|reflexivity].
  apply String.eqb_eq in E. now destruct Hne.
Qed.

(** [append_result] adds its line whatever the state of the result box,
    and leaves the box disabled. *)
Lemma append_result_box (text : string) (self : CFGValidatorApp) :
  result_box (append_result text self)
  = {| contents := contents (result_box self) ++ text ++ newline; state := disabled |}.
Proof. unfold append_result, insert_end, configure. reflexivity. Qed.

Lemma clear_window (self : CFGValidatorApp) :
  clear self = {| input_var := ""; result_box := {| contents := ""; state := disabled |};
                  status := "Cleared" |}.
Proof. reflexivity. Qed.

Lemma validate_total (exc_str : PyException -> string) (expr : string) :
  validate_expression exc_str expr = Some (true, None) \/
  exists message, validate_expression exc_str expr = Some (false, Some message).
Proof.
  unfold validate_expression. destruct (parse_terminates expr) as [[v|e] ->]; eauto.
Qed.

(** X16: when the entry holds nothing but whitespace, or nothing at all,
    [check] opens the dialog "Empty input" and changes nothing in the
    window: no line is added to the result box and the status stays. *)
Theorem check_blank_entry (exc_str : PyException -> string) (self : CFGValidatorApp) :
  forallb isspace (list_ascii_of_string (input_var self)) = true ->
  check exc_str self
  = Some (self, [("Empty input", "Please enter an expression to validate.")]).
Proof. intros H. now apply check_empty, strip_empty_iff. Qed.

Lemma check_blank_entry_witness :
  let self := {| input_var := String " " (String "009" newline);
                 result_box := {| contents := "[OK] 42" ++ newline; state := disabled |};
                 status := "Valid expression" |} in
  check (fun _ => "") self
  = Some (self, [("Empty input", "Please enter an expression to validate.")]).
Proof.
  intros self. apply (check_blank_entry (fun _ => "") self). reflexivity.
Defined.

(** X17: when the entry holds more than whitespace, [check] opens no
    dialog, leaves the entry as it is and the result box disabled, and adds
    one line for the stripped text: "[OK] ..." with the status "Valid
    expression" exactly when the lexer reads the stripped text to its end
    and its tokens are a sentence of the grammar, and "[ERROR] ... -> "
    with the validator's message and the status "Invalid expression"
    otherwise. *)
Theorem check_verdict (exc_str : PyException -> string) (self : CFGValidatorApp) :
  forallb isspace (list_ascii_of_string (input_var self)) = false ->
  let expr := strip (input_var self) in
  exists self',
    check exc_str self = Some (self', []) /\
    input_var self' = input_var self /\
    state (result_box self') = disabled /\
    ((lexed_whole expr /\ derives (NT start) (map type_ (tokenize expr)) /\
      status self' = "Valid expression" /\
      contents (result_box self')
      = contents (result_box self) ++ ("[OK] " ++ expr) ++ newline)
     \/
     (~ (lexed_whole expr /\ derives (NT start) (map type_ (tokenize expr))) /\
      status self' = "Invalid expression" /\
      exists message,
        validate_expression exc_str expr = Some (false, Some message) /\
        contents (result_box self')
        = contents (result_box self) ++ ("[ERROR] " ++ expr ++ " -> " ++ message)
          ++ newline)).
Proof.
  intros Hb expr.
  assert (Hne : strip (input_var self) <> "").
  { intros E. apply strip_empty_iff in E. congruence. }
  destruct (validate_total exc_str expr) as [Hv | [message Hv]].
  - eexists. split; [now apply check_valid|].
    split; [reflexivity|]. split; [reflexivity|]. left.
    apply validate_true_inv in Hv. apply (proj1 (parse_accepts expr)) in Hv as [Hl Hd].
    repeat split; auto.
  - eexists. split; [now apply check_invalid with (err := Some message)|].
    split; [reflexivity|]. split; [reflexivity|]. right. split.
    + intros H. apply (proj2 (parse_accepts expr)) in H as [v H].
      apply validate_return with (exc_str := exc_str) in H. congruence.
    + split; [reflexivity|]. now exists message.
Qed.

Lemma check_verdict_witness :
  let self := {| input_var := "  (1+2 ";
                 result_box := {| contents := ""; state := disabled |};
                 status := "Ready" |} in
  forallb isspace (list_ascii_of_string (input_var self)) = false /\
  exists self',
    check (fun _ => "") self = Some (self', []) /\
    status self' = "Invalid expression" /\
    contents (result_box self')
    = "[ERROR] (1+2 -> Unexpected token at position 3: " ++ newline.
Proof.
  intros self. split; [reflexivity|].
  destruct (check_verdict (fun _ => "") self eq_refl) as (self' & Hc & _).
  exists self'. split; [exact Hc|].
  vm_compute in Hc. injection Hc as <-. split; reflexivity.
Defined.

(** X18: whitespace before and after the text of the entry makes no
    difference to [check]: the status and the result box come out as for
    the text alone.  This holds for every whitespace character, also for
    those, such as a line feed, that the grammar does not ignore. *)
Theorem check_ignores_padding (exc_str : PyException -> string) (self : CFGValidatorApp)
  (ws ws' : list ascii) (s : string) :
  forallb isspace ws = true -> forallb isspace ws' = true ->
  let padded := string_of_list_ascii (ws ++ list_ascii_of_string s ++ ws') in
  let view := option_map (fun r : CFGValidatorApp * list Dialog =>
                            (result_box (fst r), status (fst r), snd r)) in
  view (check exc_str (set_input padded self)) = view (check exc_str (set_input s self)).
Proof.
  intros H H' padded view. unfold check. cbn [set_input input_var].
  unfold padded. rewrite (strip_padding ws ws' s H H').
  destruct (String.eqb (strip s) ""); [reflexivity|].
  destruct (validate_expression exc_str (strip s)) as [[[|] err]|]; reflexivity.
Qed.

Lemma check_ignores_padding_witness :
  forallb isspace ["009"%char] = true /\ forallb isspace ["010"%char] = true /\
  option_map (fun r : CFGValidatorApp * list Dialog =>
                (result_box (fst r), status (fst r), snd r))
    (check (fun _ => "")
       (set_input (string_of_list_ascii
                     (["009"%char] ++ list_ascii_of_string "42" ++ ["010"%char])) __init__))
  = option_map (fun r : CFGValidatorApp * list Dialog =>
                  (result_box (fst r), status (fst r), snd r))
      (check (fun _ => "") (set_input "42" __init__)).
Proof.
  split; [reflexivity|]. split; [reflexivity|].
  apply (check_ignores_padding (fun _ => "") __init__ ["009"%char] ["010"%char] "42");
    reflexivity.
Defined.

(* ------------------------------------------------------------------ *)
(** ** The window over a run of events *)

Lemma handle_total (exc_str : PyException -> string) (self : CFGValidatorApp) (ev : Event) :
  exists self' shown, handle exc_str self ev = Some (self', shown).
Proof.
  destruct ev; simpl; eauto. unfold check.
  destruct (String.eqb _ ""); eauto.
  destruct (validate_total exc_str (strip (input_var self))) as [-> | [m ->]]; eauto.
Qed.

Lemma check_cases (exc_str : PyException -> string) (self self' : CFGValidatorApp)
  (shown : list Dialog) :
  check exc_str self = Some (self', shown) ->
  (self' = self /\ shown = [("Empty input", "Please enter an expression to validate.")]) \/
  (shown = [] /\
   validate_expression exc_str (strip (input_var self)) = Some (true, None) /\
   self' = append_result ("[OK] " ++ strip (input_var self))
             (set_status "Valid expression" self)) \/
  (shown = [] /\
   exists message,
     validate_expression exc_str (strip (input_var self)) = Some (false, Some message) /\
     self' = append_result ("[ERROR] " ++ strip (input_var self) ++ " -> " ++ message)
               (set_status "Invalid expression" self)).
Proof.
  unfold check. destruct (String.eqb _ "").
  - intros [= <- <-]. now left.
  - destruct (validate_total exc_str (strip (input_var self))) as [-> | [m ->]];
      intros [= <- <-]; right; [left | right]; eauto.
Qed.

Lemma handle_invariant (exc_str : PyException -> string) (self self' : CFGValidatorApp)
  (ev : Event) (shown : list Dialog) :
  handle exc_str self ev = Some (self', shown) ->
  state (result_box self) = disabled /\ describes exc_str self ->
  state (result_box self') = disabled /\ describes exc_str self'.
Proof.
  intros H [Hs Hd]. destruct ev; simpl in H.
  - injection H as <- _. now split.
  - apply check_cases in H as [[-> _] | [(_ & Hv & ->) | (_ & m & Hv & ->)]].
    + now split.
    + split; [reflexivity|]. right. right. right. left. split; [reflexivity|].
      exists (contents (result_box self)), (strip (input_var self)). now split.
    + split; [reflexivity|]. right. right. right. right. split; [reflexivity|].
      exists (contents (result_box self)), (strip (input_var self)), m. now split.
  - injection H as <- _. split; [reflexivity|]. right. left. now split.
  - injection H as <- _. split; [exact Hs|]. right. right. now left.
Qed.

Lemma mainloop_invariant (exc_str : PyException -> string) (evs : list Event)
  (self self' : CFGValidatorApp) (shown : list Dialog) :
  mainloop exc_str self evs = Some (self', shown) ->
  state (result_box self) = disabled /\ describes exc_str self ->
  state (result_box self') = disabled /\ describes exc_str self'.
Proof.
  revert self shown. induction evs as [|ev evs IH]; intros self shown; cbn [mainloop].
  - now intros [= <- _].
  - destruct (handle exc_str self ev) as [[self1 shown1]|] eqn:Eh; [|discriminate].
    destruct (mainloop exc_str self1 evs) as [[self2 shown2]|] eqn:Em; [|discriminate].
    intros [= <- _] Hinv. apply (IH _ _ Em). now apply handle_invariant in Eh.
Qed.

Lemma mainloop_total (exc_str : PyException -> string) (evs : list Event)
  (self : CFGValidatorApp) :
  exists self' shown, mainloop exc_str self evs = Some (self', shown).
Proof.
  revert self. induction evs as [|ev evs IH]; intros self; cbn [mainloop]; eauto.
  destruct (handle_total exc_str self ev) as (self1 & shown1 & ->).
  destruct (IH self1) as (self2 & shown2 & ->). eauto.
Qed.

(** X19: whatever the user does, from the window that [__init__] builds,
    every event is handled, the result box stays disabled, so the user
    cannot write into it, and the status bar describes the result box:
    with "Ready" or "Cleared" the box is empty, with "Valid expression" its
    last line is "[OK]" with an expression the validator accepts, and with
    "Invalid expression" its last line is "[ERROR]" with an expression the
    validator rejects and the validator's message. *)
Theorem window_invariant (exc_str : PyException -> string) (evs : list Event) :
  exists self' shown,
    mainloop exc_str __init__ evs = Some (self', shown) /\
    state (result_box self') = disabled /\
    describes exc_str self'.
Proof.
  destruct (mainloop_total exc_str evs __init__) as (self' & shown & H).
  exists self', shown. split; [exact H|].
  apply (mainloop_invariant _ _ _ _ _ H). split; [reflexivity|]. left. now split.
Qed.

Lemma string_app_assoc (a b c : string) : (a ++ b) ++ c = a ++ b ++ c.
Proof. induction a as [|x a IH]; simpl; now rewrite ?IH. Qed.

Lemma string_app_nil_r (a : string) : a ++ "" = a.
Proof. induction a as [|x a IH]; simpl; now rewrite ?IH. Qed.

Lemma handle_appends (exc_str : PyException -> string) (self self' : CFGValidatorApp)
  (ev : Event) (shown : list Dialog) :
  ev <> Clear ->
  handle exc_str self ev = Some (self', shown) ->
  exists added, contents (result_box self') = contents (result_box self) ++ added.
Proof.
  intros Hev H. destruct ev; simpl in H.
  - injection H as <- _. exists "". now rewrite string_app_nil_r.
  - apply check_cases in H as [[-> _] | [(_ & Hv & ->) | (_ & m & Hv & ->)]].
    + exists "". now rewrite string_app_nil_r.
    + eexists. rewrite append_result_box. reflexivity.
    + eexists. rewrite append_result_box. reflexivity.
  - now destruct Hev.
  - injection H as <- _. exists "". now rewrite string_app_nil_r.
Qed.

(** X20: as long as "Clear" is not pressed, nothing is taken out of the
    result box: what it held before a run of events is the beginning of
    what it holds after. *)
Theorem results_kept (exc_str : PyException -> string) (evs : list Event)
  (self self' : CFGValidatorApp) (shown : list Dialog) :
  ~ In Clear evs ->
  mainloop exc_str self evs = Some (self', shown) ->
  exists added, contents (result_box self') = contents (result_box self) ++ added.
Proof.
  revert self shown. induction evs as [|ev evs IH]; intros self shown Hc; cbn [mainloop].
  - intros [= <- _]. exists "". now rewrite string_app_nil_r.
  - destruct (handle exc_str self ev) as [[self1 shown1]|] eqn:Eh; [|discriminate].
    destruct (mainloop exc_str self1 evs) as [[self2 shown2]|] eqn:Em; [|discriminate].
    intros [= <- _].
    apply handle_appends in Eh as [a1 E1]; [|intros ->; apply Hc; now left].
    apply IH in Em as [a2 E2]; [|intros Hin; apply Hc; now right].
    exists (a1 ++ a2). now rewrite E2, E1, string_app_assoc.
Qed.

Lemma results_kept_witness :
  ~ In Clear [Edit "1+"; Validate; Example; Validate] /\
  exists self' shown,
    mainloop (fun _ => "") __init__ [Edit "1+"; Validate; Example; Validate]
    = Some (self', shown) /\
    exists added, contents (result_box self') = contents (result_box __init__) ++ added.
Proof.
  split; [simpl; intuition discriminate|].
  eexists _, _. split; [reflexivity|].
  eapply (results_kept (fun _ => "") [Edit "1+"; Validate; Example; Validate] __init__);
    [simpl; intuition discriminate | reflexivity].
Defined.

(** X21: "Clear" leaves the same window whatever it was before: an empty
    entry, an empty and disabled result box, the status "Cleared".
    Pressing "Validate" next only opens the dialog "Empty input". *)
Theorem clear_then_check (exc_str : PyException -> string) (self : CFGValidatorApp) :
  clear self = {| input_var := ""; result_box := {| contents := ""; state := disabled |};
                  status := "Cleared" |} /\
  mainloop exc_str self [Clear; Validate]
  = Some (clear self, [("Empty input", "Please enter an expression to validate.")]).
Proof. split; reflexivity. Qed.

(** X22: "Example" puts the first example, "1+2*3", into the entry, and
    "Validate" then reports it valid, as the comment in [insert_example]
    says; of the six examples the four that are not marked invalid are
    valid and the two that are marked invalid are not. *)
Theorem example_then_check (exc_str : PyException -> string) (self : CFGValidatorApp) :
  mainloop exc_str self [Example; Validate]
  = Some ({| input_var := "1+2*3";
             result_box := {| contents := contents (result_box self)
                                          ++ "[OK] 1+2*3" ++ newline;
                              state := disabled |};
             status := "Valid expression" |}, []) /\
  map (fun e => option_map fst (validate_expression exc_str e)) examples
  = [Some true; Some true; Some true; Some true; Some false; Some false].
Proof. split; reflexivity. Qed.
